(** * Smallbrain: a shallow embedding of the search driver

    The development follows [src/search.cpp], [src/helper.cpp] and
    [src/evaluation.cpp].  C++ [int], [Score] and [U64] values are
    integers of [Z] without overflow, C++ integer division is [Z.quot]
    (truncation toward zero), [%] is [Z.rem], [&] is [Z.land]; the
    [uint8_t] counters wrap explicitly.

    Everything the three files take from headers that are not part of the
    sources (score constants, the board, the transposition table, the move
    picker, the tablebase probe) enters as a field of a class, so that
    every statement holds for each implementation of those collaborators.

    A C++ function becomes a function on the search object in a small
    state monad; recursion and loops take fuel.  Statements about stores
    to the transposition table are statements about the log of calls of
    [storeEntry] that the model keeps next to the table. *)

From Stdlib Require Import ZArith Lia Bool String DecimalString.
From stdpp Require Import base list.

#[local] Open Scope Z_scope.

(** ** Score constants *)

Definition Score := Z.
Definition Move := Z.
Definition Square := Z.
Definition Color := Z.
Definition PieceType := Z.
Definition Piece := Z.

(** The named constants of the missing header.  The fields [*_layout]
    record the partition of the score domain: mated scores, tablebase
    losses, centipawns, tablebase wins, mate scores, and [VALUE_NONE]
    outside all of them.  The bound 3500 of the aspiration windows is a
    centipawn score; [NO_MOVE] is the move that tests false. *)
Class Consts := {
  MAX_PLY : Z;
  VALUE_MATE : Score;
  VALUE_INFINITE : Score;
  VALUE_NONE : Score;
  VALUE_MATE_IN_PLY : Score;
  VALUE_MATED_IN_PLY : Score;
  VALUE_TB_WIN : Score;
  VALUE_TB_LOSS : Score;
  VALUE_TB_WIN_IN_MAX_PLY : Score;
  VALUE_TB_LOSS_IN_MAX_PLY : Score;
  NO_MOVE : Move;
  NULL_MOVE : Move;
  NONETYPE : PieceType;
  None_piece : Piece;
  max_ply_layout : 1 < MAX_PLY;
  mate_layout : VALUE_MATE_IN_PLY = VALUE_MATE - MAX_PLY
                /\ VALUE_MATED_IN_PLY = - VALUE_MATE_IN_PLY;
  tb_layout : VALUE_TB_LOSS_IN_MAX_PLY = - VALUE_TB_WIN_IN_MAX_PLY
              /\ 3500 < VALUE_TB_WIN_IN_MAX_PLY < VALUE_MATE_IN_PLY;
  inf_layout : VALUE_MATE < VALUE_INFINITE < VALUE_NONE;
  no_move_layout : NO_MOVE = 0 /\ NULL_MOVE <> 0
}.

(** The assignment used to run the model on closed inputs. *)
Definition engine_consts : Consts.
Proof.
  refine {|
    MAX_PLY := 120;
    VALUE_MATE := 32000;
    VALUE_INFINITE := 32001;
    VALUE_NONE := 32002;
    VALUE_MATE_IN_PLY := 31880;
    VALUE_MATED_IN_PLY := -31880;
    VALUE_TB_WIN := 31880;
    VALUE_TB_LOSS := -31880;
    VALUE_TB_WIN_IN_MAX_PLY := 31760;
    VALUE_TB_LOSS_IN_MAX_PLY := -31760;
    NO_MOVE := 0;
    NULL_MOVE := 65;
    NONETYPE := 6;
    None_piece := 12
  |}; lia.
Defined.

(** ** Score algebra *)

Section ScoreAlgebra.
Context `{Consts}.

Definition mate_in (ply : Z) : Score := VALUE_MATE - ply.
Definition mated_in (ply : Z) : Score := - VALUE_MATE + ply.

(** Modelled from the spec: [scoreToTT] is declared in a header that is
    not among the sources.  "If s >= MATE_IN_MAX_PLY return s + ply; if
    s <= MATED_IN_MAX_PLY return s - ply; else s." *)
Definition scoreToTT (s : Score) (plies : Z) : Score :=
  if s >=? VALUE_MATE_IN_PLY then s + plies
  else if s <=? VALUE_MATED_IN_PLY then s - plies
  else s.

(** Modelled from the spec: [scoreFromTT] is declared in the same missing
    header.  "After load, subtract ply, provided the score is in the
    mate-distance ranges": the same two tests with the signs exchanged. *)
Definition scoreFromTT (s : Score) (plies : Z) : Score :=
  if s >=? VALUE_MATE_IN_PLY then s - plies
  else if s <=? VALUE_MATED_IN_PLY then s + plies
  else s.

End ScoreAlgebra.

(** ** UCI score formatting ([helper.cpp]) *)

(** [std::to_string] on an [int]: decimal digits with a leading minus. *)
Definition to_string (z : Z) : string :=
  NilZero.string_of_int (Z.to_int z).

Section OutputScore.
Context `{Consts}.

Definition outputScore (score0 : Z) : string :=
  let score := if Z.abs score0 <=? 4 then 0 else score0 in
  if score >=? VALUE_MATE_IN_PLY then
    ("mate " ++ to_string ((VALUE_MATE - score) ÷ 2
                           + Z.land (VALUE_MATE - score) 1))%string
  else if score <=? VALUE_MATED_IN_PLY then
    ("mate " ++ to_string (- ((VALUE_MATE + score) ÷ 2)
                           + Z.land (VALUE_MATE + score) 1))%string
  else ("cp " ++ to_string score)%string.

End OutputScore.


(** ** Data of the search *)

Inductive Node := Root | PV | NonPV.

Inductive Flag := NONEBOUND | UPPERBOUND | LOWERBOUND | EXACTBOUND.

(** The numbering of the bound flags, read by [tte->flag & LOWERBOUND]. *)
Definition flag_bits (f : Flag) : Z :=
  match f with
  | NONEBOUND => 0 | UPPERBOUND => 1 | LOWERBOUND => 2 | EXACTBOUND => 3
  end.

Definition Flag_eqb (a b : Flag) : bool := flag_bits a =? flag_bits b.

Inductive Result := Result_NONE | Result_DRAWN | Result_LOST.

Inductive Stage := TT_MOVE | GENERATE.

(** Outcome of the tablebase WDL probe. *)
Inductive WDL :=
  TB_LOSS | TB_BLESSED_LOSS | TB_DRAW | TB_CURSED_WIN | TB_WIN | TB_FAILED.

Record Stack := {
  ply : Z;
  currentmove : Move;
  eval : Score;
  excludedMove : Move
}.

#[export] Instance Stack_inhabited : Inhabited Stack :=
  populate {| ply := 0; currentmove := 0; eval := 0; excludedMove := 0 |}.

Record TEntry := {
  tte_score : Score;
  tte_depth : Z;
  tte_flag : Flag
}.

(** One call of [TranspositionTable.storeEntry] with its five arguments;
    [st_stopped] is the value of the stop flag when the call ran. *)
Record TTStore := {
  st_depth : Z;
  st_score : Score;
  st_flag : Flag;
  st_key : Z;
  st_move : Move;
  st_stopped : bool
}.

Record Time := { optimum : Z; maximum : Z }.

Record Limits := { limit_time : Time; limit_nodes : Z; limit_depth : Z }.

(** Members of [Search] that stay fixed while a search runs. *)
Record Config := {
  id : Z;
  normalSearch : bool;
  useTB : bool;
  limit : Limits
}.

(** The per-worker search object ([class Search]) together with the two
    process-wide objects it touches, the transposition table [TTable] and the
    stop flag [stopped].  [tt_log], [loads], [clock_reads] and [output]
    are bookkeeping of the model: the stores issued to the table (newest
    first), the number of loads of the stop flag, the number of clock
    readings, and the lines printed. *)
Record Search {Board TranspositionTable : Type} := {
  board : Board;
  nodes : Z;
  tbhits : Z;
  seldepth : Z;
  checkTime : Z;
  pvTable : list (list Move);
  pvLength : list Z;
  killerMoves : list (list Move);
  history : list Z;
  spentEffort : list (list Z);
  stack : list Stack;
  TTable : TranspositionTable;
  stopped : bool;
  tt_log : list TTStore;
  loads : Z;
  clock_reads : Z;
  output : list string
}.
Arguments Search : clear implicits.

Section Setters.
Context {Board TranspositionTable : Type}.
#[local] Abbreviation St := (Search Board TranspositionTable).

Definition set_board (v : Board) (s : St) : St :=
  {| board := v; nodes := nodes s; tbhits := tbhits s; seldepth := seldepth
     s; checkTime := checkTime s; pvTable := pvTable s; pvLength := pvLength
     s; killerMoves := killerMoves s; history := history s; spentEffort :=
     spentEffort s; stack := stack s; TTable := TTable s; stopped := stopped s;
     tt_log := tt_log s; loads := loads s; clock_reads := clock_reads s;
     output := output s |}.
Definition set_nodes (v : Z) (s : St) : St :=
  {| board := board s; nodes := v; tbhits := tbhits s; seldepth := seldepth
     s; checkTime := checkTime s; pvTable := pvTable s; pvLength := pvLength
     s; killerMoves := killerMoves s; history := history s; spentEffort :=
     spentEffort s; stack := stack s; TTable := TTable s; stopped := stopped s;
     tt_log := tt_log s; loads := loads s; clock_reads := clock_reads s;
     output := output s |}.
Definition set_tbhits (v : Z) (s : St) : St :=
  {| board := board s; nodes := nodes s; tbhits := v; seldepth := seldepth
     s; checkTime := checkTime s; pvTable := pvTable s; pvLength := pvLength
     s; killerMoves := killerMoves s; history := history s; spentEffort :=
     spentEffort s; stack := stack s; TTable := TTable s; stopped := stopped s;
     tt_log := tt_log s; loads := loads s; clock_reads := clock_reads s;
     output := output s |}.
Definition set_seldepth (v : Z) (s : St) : St :=
  {| board := board s; nodes := nodes s; tbhits := tbhits s; seldepth := v;
     checkTime := checkTime s; pvTable := pvTable s; pvLength := pvLength s;
     killerMoves := killerMoves s; history := history s; spentEffort :=
     spentEffort s; stack := stack s; TTable := TTable s; stopped := stopped s;
     tt_log := tt_log s; loads := loads s; clock_reads := clock_reads s;
     output := output s |}.
Definition set_checkTime (v : Z) (s : St) : St :=
  {| board := board s; nodes := nodes s; tbhits := tbhits s; seldepth :=
     seldepth s; checkTime := v; pvTable := pvTable s; pvLength := pvLength
     s; killerMoves := killerMoves s; history := history s; spentEffort :=
     spentEffort s; stack := stack s; TTable := TTable s; stopped := stopped s;
     tt_log := tt_log s; loads := loads s; clock_reads := clock_reads s;
     output := output s |}.
Definition set_pvTable (v : list (list Move)) (s : St) : St :=
  {| board := board s; nodes := nodes s; tbhits := tbhits s; seldepth :=
     seldepth s; checkTime := checkTime s; pvTable := v; pvLength :=
     pvLength s; killerMoves := killerMoves s; history := history s;
     spentEffort := spentEffort s; stack := stack s; TTable := TTable s; stopped :=
     stopped s; tt_log := tt_log s; loads := loads s; clock_reads :=
     clock_reads s; output := output s |}.
Definition set_pvLength (v : list Z) (s : St) : St :=
  {| board := board s; nodes := nodes s; tbhits := tbhits s; seldepth :=
     seldepth s; checkTime := checkTime s; pvTable := pvTable s; pvLength :=
     v; killerMoves := killerMoves s; history := history s; spentEffort :=
     spentEffort s; stack := stack s; TTable := TTable s; stopped := stopped s;
     tt_log := tt_log s; loads := loads s; clock_reads := clock_reads s;
     output := output s |}.
Definition set_killerMoves (v : list (list Move)) (s : St) : St :=
  {| board := board s; nodes := nodes s; tbhits := tbhits s; seldepth :=
     seldepth s; checkTime := checkTime s; pvTable := pvTable s; pvLength :=
     pvLength s; killerMoves := v; history := history s; spentEffort :=
     spentEffort s; stack := stack s; TTable := TTable s; stopped := stopped s;
     tt_log := tt_log s; loads := loads s; clock_reads := clock_reads s;
     output := output s |}.
Definition set_history (v : list Z) (s : St) : St :=
  {| board := board s; nodes := nodes s; tbhits := tbhits s; seldepth :=
     seldepth s; checkTime := checkTime s; pvTable := pvTable s; pvLength :=
     pvLength s; killerMoves := killerMoves s; history := v; spentEffort :=
     spentEffort s; stack := stack s; TTable := TTable s; stopped := stopped s;
     tt_log := tt_log s; loads := loads s; clock_reads := clock_reads s;
     output := output s |}.
Definition set_spentEffort (v : list (list Z)) (s : St) : St :=
  {| board := board s; nodes := nodes s; tbhits := tbhits s; seldepth :=
     seldepth s; checkTime := checkTime s; pvTable := pvTable s; pvLength :=
     pvLength s; killerMoves := killerMoves s; history := history s;
     spentEffort := v; stack := stack s; TTable := TTable s; stopped := stopped s;
     tt_log := tt_log s; loads := loads s; clock_reads := clock_reads s;
     output := output s |}.
Definition set_stack (v : list Stack) (s : St) : St :=
  {| board := board s; nodes := nodes s; tbhits := tbhits s; seldepth :=
     seldepth s; checkTime := checkTime s; pvTable := pvTable s; pvLength :=
     pvLength s; killerMoves := killerMoves s; history := history s;
     spentEffort := spentEffort s; stack := v; TTable := TTable s; stopped :=
     stopped s; tt_log := tt_log s; loads := loads s; clock_reads :=
     clock_reads s; output := output s |}.
Definition set_TTable (v : TranspositionTable) (s : St) : St :=
  {| board := board s; nodes := nodes s; tbhits := tbhits s; seldepth :=
     seldepth s; checkTime := checkTime s; pvTable := pvTable s; pvLength :=
     pvLength s; killerMoves := killerMoves s; history := history s;
     spentEffort := spentEffort s; stack := stack s; TTable := v; stopped :=
     stopped s; tt_log := tt_log s; loads := loads s; clock_reads :=
     clock_reads s; output := output s |}.
Definition set_stopped (v : bool) (s : St) : St :=
  {| board := board s; nodes := nodes s; tbhits := tbhits s; seldepth :=
     seldepth s; checkTime := checkTime s; pvTable := pvTable s; pvLength :=
     pvLength s; killerMoves := killerMoves s; history := history s;
     spentEffort := spentEffort s; stack := stack s; TTable := TTable s; stopped :=
     v; tt_log := tt_log s; loads := loads s; clock_reads := clock_reads s;
     output := output s |}.
Definition set_tt_log (v : list TTStore) (s : St) : St :=
  {| board := board s; nodes := nodes s; tbhits := tbhits s; seldepth :=
     seldepth s; checkTime := checkTime s; pvTable := pvTable s; pvLength :=
     pvLength s; killerMoves := killerMoves s; history := history s;
     spentEffort := spentEffort s; stack := stack s; TTable := TTable s; stopped :=
     stopped s; tt_log := v; loads := loads s; clock_reads := clock_reads s;
     output := output s |}.
Definition set_loads (v : Z) (s : St) : St :=
  {| board := board s; nodes := nodes s; tbhits := tbhits s; seldepth :=
     seldepth s; checkTime := checkTime s; pvTable := pvTable s; pvLength :=
     pvLength s; killerMoves := killerMoves s; history := history s;
     spentEffort := spentEffort s; stack := stack s; TTable := TTable s; stopped :=
     stopped s; tt_log := tt_log s; loads := v; clock_reads := clock_reads
     s; output := output s |}.
Definition set_clock_reads (v : Z) (s : St) : St :=
  {| board := board s; nodes := nodes s; tbhits := tbhits s; seldepth :=
     seldepth s; checkTime := checkTime s; pvTable := pvTable s; pvLength :=
     pvLength s; killerMoves := killerMoves s; history := history s;
     spentEffort := spentEffort s; stack := stack s; TTable := TTable s; stopped :=
     stopped s; tt_log := tt_log s; loads := loads s; clock_reads := v;
     output := output s |}.
Definition set_output (v : list string) (s : St) : St :=
  {| board := board s; nodes := nodes s; tbhits := tbhits s; seldepth :=
     seldepth s; checkTime := checkTime s; pvTable := pvTable s; pvLength :=
     pvLength s; killerMoves := killerMoves s; history := history s;
     spentEffort := spentEffort s; stack := stack s; TTable := TTable s; stopped :=
     stopped s; tt_log := tt_log s; loads := loads s; clock_reads :=
     clock_reads s; output := v |}.

End Setters.

(** ** Collaborators

    The board, the evaluation network, the transposition table, the move
    picker, the tablebase and the other threads are outside the three
    source files.  Their operations are the fields below; nothing is
    assumed about them. *)
Class Extern := {
  Board : Type;
  TranspositionTable : Type;
  MovePick : Type;
  (* board *)
  sideToMove : Board -> Color;
  opp : Color -> Color;
  KingSQ : Board -> Color -> Square;
  isSquareAttacked : Board -> Color -> Square -> bool;
  isRepetition : Board -> Z -> bool;
  isDrawn : Board -> bool -> Result;
  hashKey : Board -> Z;
  pieceAtB : Board -> Square -> Piece;
  nonPawnMat : Board -> Color -> bool;
  see : Board -> Move -> Z -> bool;
  makeMove : bool -> Board -> Move -> Board;
  unmakeMove : bool -> Board -> Move -> Board;
  makeNullMove : Board -> Board;
  unmakeNullMove : Board -> Board;
  (* moves and pieces *)
  from : Move -> Square;
  to : Move -> Square;
  promoted : Move -> bool;
  type_of_piece : Piece -> PieceType;
  piece_values_EG : PieceType -> Z;
  uciMove : Move -> string;
  (* evaluation: the network output scaled by the half-move clock, as the
     [double] product converted back to [int] *)
  nnue_scaled : Board -> Z;
  (* transposition table: [probeTT] yields the hit flag, the table move
     and the slot it points to; [tte_at] reads through that pointer *)
  probeTT : TranspositionTable -> Z -> bool * Move * Z;
  tte_at : TranspositionTable -> Z -> TEntry;
  storeEntry : TranspositionTable -> Z -> Score -> Flag -> Z -> Move -> TranspositionTable;
  hashfull : TranspositionTable -> Z;
  (* tablebase *)
  TB_LARGEST : Z;
  piece_count : Board -> Z;
  tb_probe_wdl : Board -> WDL;
  (* late-move-reduction table, filled with floating-point logarithms *)
  reductions : Z -> Z -> Z;
  (* move picker: constructors for the two search kinds, and [nextMove],
     which reads the search object it was built on *)
  mp_qsearch : Z -> Move -> Stage -> MovePick;
  mp_absearch : Z -> bool -> Move -> Stage -> MovePick;
  nextMove : MovePick -> Search Board TranspositionTable -> Move * MovePick;
  (* the other threads: whether a stop was requested from outside by the
     time of the n-th load of the flag, the n-th reading of the clock in
     milliseconds, and the pool-wide counters *)
  external_stop : Z -> bool;
  clock : Z -> Z;
  Threads_getNodes : Search Board TranspositionTable -> Z;
  Threads_getTbHits : Search Board TranspositionTable -> Z
}.

(** ** Arrays

    C++ arrays are lists indexed by [Z].  An access outside the array is
    undefined in C++; the model reads the default element and drops the
    write. *)
Definition zget {A} `{Inhabited A} (l : list A) (i : Z) : A :=
  if i <? 0 then inhabitant else l !!! Z.to_nat i.

Definition zset {A} (l : list A) (i : Z) (x : A) : list A :=
  if i <? 0 then l else <[Z.to_nat i := x]> l.

Definition zget2 {A} `{Inhabited A} (l : list (list A)) (i j : Z) : A :=
  zget (zget l i) j.

Definition zset2 {A} (l : list (list A)) (i j : Z) (x : A) : list (list A) :=
  zset l i (zset (zget l i) j x).

(** The integers [lo], [lo+1], ..., [hi-1]. *)
Definition zrange (lo hi : Z) : list Z :=
  map (fun k => lo + Z.of_nat k) (seq 0 (Z.to_nat (hi - lo))).

Definition b2z (b : bool) : Z := if b then 1 else 0.

(** [uint8_t] arithmetic. *)
Definition wrap8 (x : Z) : Z := x mod 256.

(** Conversion to a 32-bit [signed]. *)
Definition to_int32 (x : Z) : Z := (x + 2^31) mod 2^32 - 2^31.

(** [std::clamp(v, lo, hi)]. *)
Definition clamp (v lo hi : Z) : Z :=
  if v <? lo then lo else if hi <? v then hi else v.

(** ** A monad for function bodies

    A computation runs on the search object and either runs out of fuel
    ([None]), leaves the enclosing function through a [return] statement
    ([Ret]), or completes with a value ([Val]). *)
Inductive Ctl (A : Type) :=
| Ret (v : Score)
| Val (a : A).
Arguments Ret {A} v.
Arguments Val {A} a.

Section Monad.
Context {S : Type}.

Definition M (A : Type) : Type := S -> option (Ctl A * S).

Definition ret {A} (a : A) : M A := fun s => Some (Val a, s).

Definition return_ {A} (v : Score) : M A := fun s => Some (Ret v, s).

Definition out_of_fuel {A} : M A := fun _ => None.

Definition bind {A B} (m : M A) (k : A -> M B) : M B :=
  fun s =>
    match m s with
    | None => None
    | Some (Ret v, s') => Some (Ret v, s')
    | Some (Val a, s') => k a s'
    end.

Definition gets {A} (f : S -> A) : M A := fun s => Some (Val (f s), s).

Definition modify (f : S -> S) : M unit := fun s => Some (Val tt, f s).

Definition when (c : bool) (m : M unit) : M unit := if c then m else ret tt.

(** A whole function: both ways of finishing deliver its result. *)
Definition Fn : Type := S -> option (Score * S).

Definition fn (body : M Score) : Fn :=
  fun s =>
    match body s with
    | None => None
    | Some (Ret v, s') => Some (v, s')
    | Some (Val v, s') => Some (v, s')
    end.

Definition call (f : Fn) : M Score :=
  fun s =>
    match f s with
    | None => None
    | Some (v, s') => Some (Val v, s')
    end.

End Monad.

Declare Scope search_scope.
Delimit Scope search_scope with search.
Notation "x <- y ;; z" := (bind y (fun x => z))
  (at level 20, y at level 99, z at level 200, only parsing) : search_scope.
Notation "' p <- y ;; z" := (bind y (fun x => match x with p => z end))
  (at level 20, p pattern, y at level 99, z at level 200, only parsing)
  : search_scope.
Notation "y ;; z" := (bind y (fun _ => z))
  (at level 100, z at level 200, only parsing, right associativity)
  : search_scope.
#[local] Open Scope search_scope.

(** ** The search ([search.cpp], [evaluation.cpp]) *)

Section Model.
Context `{Consts} `{Extern}.
Variable cfg : Config.

#[local] Abbreviation St := (Search Board TranspositionTable).

(** *** Primitive accesses *)

Definition frame (s : St) (ss : Z) : Stack := zget (stack s) ss.

Definition set_frame (ss : Z) (f : Stack -> Stack) : M unit :=
  modify (fun s : St => set_stack (zset (stack s) ss (f (frame s ss))) s).

Definition with_currentmove (m : Move) (f : Stack) : Stack :=
  {| ply := ply f; currentmove := m; eval := eval f;
     excludedMove := excludedMove f |}.

Definition with_eval (e : Score) (f : Stack) : Stack :=
  {| ply := ply f; currentmove := currentmove f; eval := e;
     excludedMove := excludedMove f |}.

Definition with_excludedMove (m : Move) (f : Stack) : Stack :=
  {| ply := ply f; currentmove := currentmove f; eval := eval f;
     excludedMove := m |}.

Definition with_ply (p : Z) (f : Stack) : Stack :=
  {| ply := p; currentmove := currentmove f; eval := eval f;
     excludedMove := excludedMove f |}.

(** [stopped.load(std::memory_order_relaxed)].  Another thread may have
    set the flag since the previous load; the worker notices at the load. *)
Definition load_stopped : M bool :=
  fun s : St =>
    let v := stopped s || external_stop (loads s) in
    Some (Val v, set_loads (loads s + 1) (set_stopped v s)).

(** [getTime()]: one reading of the clock. *)
Definition getTime : M Z :=
  fun s : St =>
    Some (Val (clock (clock_reads s)), set_clock_reads (clock_reads s + 1) s).

(** [TTable.storeEntry(depth, score, flag, key, move)]: the table is
    updated and the call is logged. *)
Definition logged_store (depth : Z) (score : Score) (f : Flag)
    (key : Z) (move : Move) (s : St) : St :=
  set_tt_log ({| st_depth := depth; st_score := score; st_flag := f;
                 st_key := key; st_move := move;
                 st_stopped := stopped s |} :: tt_log s)
    (set_TTable (storeEntry (TTable s) depth score f key move) s).

Definition TTable_storeEntry (depth : Z) (score : Score) (f : Flag)
    (key : Z) (move : Move) : M unit :=
  modify (logged_store depth score f key move).

Definition print (line : string) : M unit :=
  modify (fun s : St => set_output (line :: output s) s).

Definition inCheck_of (b : Board) : bool :=
  isSquareAttacked b (opp (sideToMove b)) (KingSQ b (sideToMove b)).

(** *** [Eval::evaluation] *)
Definition evaluation (b : Board) : Score :=
  clamp (nnue_scaled b) (VALUE_MATED_IN_PLY + 1) (VALUE_MATE_IN_PLY - 1).

(** *** [Search::limitReached] *)
Definition limitReached : M bool :=
  stop <- (if normalSearch cfg then load_stopped else ret false) ;;
  if stop then ret true
  else if negb (id cfg =? 0) then ret false
  else
    n <- gets (fun s : St => nodes s) ;;
    if negb (limit_nodes (limit cfg) =? 0) && (n >=? limit_nodes (limit cfg))
    then ret true
    else
      modify (fun s : St => set_checkTime (checkTime s - 1) s) ;;
      ct <- gets (fun s : St => checkTime s) ;;
      if ct >? 0 then ret false
      else
        modify (set_checkTime 2047) ;;
        if negb (maximum (limit_time (limit cfg)) =? 0) then
          ms <- getTime ;;
          if ms >=? maximum (limit_time (limit cfg)) then
            modify (set_stopped true) ;;
            ret true
          else ret false
        else ret false.

(** *** [Search::probeTB] *)
Definition probeTB (b : Board) : Score :=
  if piece_count b >? TB_LARGEST then VALUE_NONE
  else
    match tb_probe_wdl b with
    | TB_LOSS => VALUE_TB_LOSS
    | TB_WIN => VALUE_TB_WIN
    | TB_DRAW | TB_BLESSED_LOSS | TB_CURSED_WIN => 0
    | TB_FAILED => VALUE_NONE
    end.

(** *** History heuristics *)

Definition bonus (depth : Z) : Z := Z.min 2000 (depth * 155).

(** Position of [history[c][from][to]] in the flattened [2][64][64] table. *)
Definition history_index (c : Color) (f t : Square) : Z := (c * 64 + f) * 64 + t.

(** Modelled from the spec: [getHistory] comes from a header that is not
    among the sources; for quiet moves it is the butterfly entry
    "indexed by (side-to-move, from, to)". *)
Definition getHistory (move : Move) (s : St) : Z :=
  zget (history s)
    (history_index (sideToMove (board s)) (from move) (to move)).

Definition updateHistoryBonus (move : Move) (bonus : Z) (s : St) : St :=
  let hhBonus := bonus - (getHistory move s * Z.abs bonus) ÷ 16384 in
  let i := history_index (sideToMove (board s)) (from move) (to move) in
  set_history (zset (history s) i (zget (history s) i + hhBonus)) s.

Definition updateHistory (bestmove : Move) (bonus depth : Z)
    (quiets : list Move) (quietCount : Z) (s : St) : St :=
  let s1 := if depth >? 1 then updateHistoryBonus bestmove bonus s else s in
  fold_left
    (fun (acc : St) (i : Z) =>
       let move := zget quiets i in
       if move =? bestmove then acc
       else updateHistoryBonus move (- bonus) acc)
    (zrange 0 quietCount) s1.

Definition updateAllHistories (bestMove : Move) (best beta : Score)
    (depth : Z) (quiets : list Move) (quietCount : Z) (ss : Z) (s : St) : St :=
  if best <? beta then s
  else
    let depthBonus := bonus depth in
    if pieceAtB (board s) (to bestMove) =? None_piece then
      let p := ply (frame s ss) in
      let s1 := set_killerMoves
                  (zset2 (killerMoves s) 1 p (zget2 (killerMoves s) 0 p)) s in
      let s2 := set_killerMoves (zset2 (killerMoves s1) 0 p bestMove) s1 in
      updateHistory bestMove depthBonus depth quiets quietCount s2
    else s.

(** *** [Search::qsearch] *)

(** What the move loop of [qsearch] does with one move. *)
Inductive QPrune := DeltaPruned | SeePruned | Searched.

(** The two pruning tests at the head of the loop body.  [seeOk] is
    [board.see(move, 0)]. *)
Definition qsearch_prune (bestValue alpha : Score) (captured : PieceType)
    (inCheck promo nonPawn seeOk : bool) : QPrune :=
  if bestValue >? VALUE_TB_LOSS_IN_MAX_PLY then
    if negb (captured =? NONETYPE)
       && negb inCheck
       && (bestValue + 400 + piece_values_EG captured <? alpha)
       && negb promo
       && nonPawn
    then DeltaPruned
    else if negb inCheck && negb seeOk then SeePruned
    else Searched
  else Searched.

(** Locals that the move loop of [qsearch] updates. *)
Record QLoop := {
  q_alpha : Score;
  q_bestValue : Score;
  q_bestMove : Move
}.

(** Locals fixed before the move loop of [qsearch] starts. *)
Record QEntry := {
  qe_inCheck : bool;
  qe_color : Color;
  qe_mp : MovePick;
  qe_loop : QLoop
}.

(** The part of [qsearch] between the limit check and the move loop; it
    only reads the search object.  [inl v] is [return v]. *)
Definition qsearch_entry (node : Node) (alpha beta : Score) (ss : Z)
    (s : St) : Score + QEntry :=
  let PvNode := match node with PV => true | _ => false end in
  let color := sideToMove (board s) in
  let inCheck := isSquareAttacked (board s) (opp color) (KingSQ (board s) color) in
  let p := ply (frame s ss) in
  if p >=? MAX_PLY then inl (evaluation (board s))
  else if isRepetition (board s) (1 + b2z PvNode) then
    inl (-1 + Z.land (nodes s) 2)
  else
    match isDrawn (board s) inCheck with
    | Result_LOST => inl (mated_in p)
    | Result_DRAWN => inl 0
    | Result_NONE =>
      let bestValue := evaluation (board s) in
      if bestValue >=? beta then inl bestValue
      else
        let alpha := if bestValue >? alpha then bestValue else alpha in
        let '(ttHit, ttMove, tte) := probeTT (TTable s) (hashKey (board s)) in
        let ttScore :=
          if ttHit then scoreFromTT (tte_score (tte_at (TTable s) tte)) p
          else VALUE_NONE in
        let fl := tte_flag (tte_at (TTable s) tte) in
        let continue_ :=
          inr {| qe_inCheck := inCheck; qe_color := color;
                 qe_mp := mp_qsearch ss ttMove
                            (if ttHit then TT_MOVE else GENERATE);
                 qe_loop := {| q_alpha := alpha; q_bestValue := bestValue;
                               q_bestMove := NO_MOVE |} |} in
        if ttHit && negb PvNode && negb (ttScore =? VALUE_NONE)
           && negb (Flag_eqb fl NONEBOUND)
        then
          if Flag_eqb fl EXACTBOUND then inl ttScore
          else if Flag_eqb fl LOWERBOUND && (ttScore >=? beta) then inl ttScore
          else if Flag_eqb fl UPPERBOUND && (ttScore <=? alpha) then inl ttScore
          else continue_
        else continue_
    end.

(** The move loop.  [rec alpha beta ss] is the recursive call
    [qsearch<node>(alpha, beta, ss)]; [n] bounds the number of moves
    fetched. *)
Fixpoint qsearch_moves (rec : Score -> Score -> Z -> Fn (S:=St)) (n : nat)
    (inCheck : bool) (color : Color) (beta : Score) (ss : Z)
    (mp : MovePick) (l : QLoop) : M (S:=St) QLoop :=
  match n with
  | O => out_of_fuel
  | Datatypes.S n' =>
    s <- gets (fun s : St => s) ;;
    let '(move, mp) := nextMove mp s in
    if move =? NO_MOVE then ret l
    else
      let captured := type_of_piece (pieceAtB (board s) (to move)) in
      match qsearch_prune (q_bestValue l) (q_alpha l) captured inCheck
              (promoted move) (nonPawnMat (board s) color)
              (see (board s) move 0) with
      | DeltaPruned | SeePruned =>
        qsearch_moves rec n' inCheck color beta ss mp l
      | Searched =>
        modify (fun s : St => set_nodes (nodes s + 1) s) ;;
        modify (fun s : St => set_board (makeMove true (board s) move) s) ;;
        v <- call (rec (- beta) (- q_alpha l) (ss + 1)) ;;
        let score := - v in
        modify (fun s : St => set_board (unmakeMove false (board s) move) s) ;;
        if score >? q_bestValue l then
          if score >? q_alpha l then
            let l' := {| q_alpha := score; q_bestValue := score;
                         q_bestMove := move |} in
            if score >=? beta then ret l'
            else qsearch_moves rec n' inCheck color beta ss mp l'
          else
            qsearch_moves rec n' inCheck color beta ss mp
              {| q_alpha := q_alpha l; q_bestValue := score;
                 q_bestMove := q_bestMove l |}
        else qsearch_moves rec n' inCheck color beta ss mp l
      end
  end.

(** The end of [qsearch]: the bound flag, the guarded store, the result. *)
Definition qsearch_store (beta : Score) (ss : Z) (l : QLoop) : M (S:=St) Score :=
  let bestValue := q_bestValue l in
  let b := if bestValue >=? beta then LOWERBOUND else UPPERBOUND in
  ok <- (if negb (normalSearch cfg) then ret true
         else (st <- load_stopped ;; ret (negb st))) ;;
  s <- gets (fun s : St => s) ;;
  when ok (TTable_storeEntry 0 (scoreToTT bestValue (ply (frame s ss))) b
             (hashKey (board s)) (q_bestMove l)) ;;
  ret bestValue.

Definition qsearch_body (rec : Score -> Score -> Z -> Fn (S:=St)) (n : nat)
    (node : Node) (alpha beta : Score) (ss : Z) : M (S:=St) Score :=
  reached <- limitReached ;;
  if reached : bool then return_ 0
  else
    s <- gets (fun s : St => s) ;;
    match qsearch_entry node alpha beta ss s with
    | inl v => return_ v
    | inr e =>
      l <- qsearch_moves rec n (qe_inCheck e) (qe_color e) beta ss
             (qe_mp e) (qe_loop e) ;;
      qsearch_store beta ss l
    end.

Fixpoint qsearch (fuel : nat) (node : Node) (alpha beta : Score) (ss : Z)
    : Fn (S:=St) :=
  match fuel with
  | O => fun _ => None
  | Datatypes.S fuel' =>
    fn (qsearch_body (qsearch fuel' node) fuel' node alpha beta ss)
  end.

(** *** [Search::absearch] *)

(** The [improving] flag of a node that is not in check; [prev] is
    [(ss - 2)->eval]. *)
Definition improving_of (staticEval prev : Score) : bool :=
  if negb (prev =? VALUE_NONE) then staticEval >? prev else false.

(** Locals of [absearch] fixed when the move loop starts. *)
Record AEntry := {
  ae_depth : Z;
  ae_beta : Score;
  ae_maxValue : Score;
  ae_inCheck : bool;
  ae_improving : bool;
  ae_excludedMove : Move;
  ae_ttHit : bool;
  ae_ttMove : Move;
  ae_tte : Z;
  ae_ttScore : Score
}.

(** Locals that the move loop of [absearch] updates. *)
Record ALoop := {
  a_alpha : Score;
  a_best : Score;
  a_bestMove : Move;
  a_score : Score;
  a_quiets : list Move;
  a_quietCount : Z;
  a_madeMoves : Z
}.

Definition isRoot (node : Node) : bool :=
  match node with Root => true | _ => false end.

Definition isPv (node : Node) : bool :=
  match node with NonPV => false | _ => true end.

(** Draw detection and mate-distance pruning of a node that is not the
    root. *)
Definition absearch_draws (node : Node) (inCheck : bool) (p : Z)
    (alpha beta : Score) : M (S:=St) (Score * Score) :=
  if isRoot node then ret (alpha, beta)
  else
    s <- gets (fun s : St => s) ;;
    if isRepetition (board s) (1 + b2z (isPv node)) then
      return_ (-1 + Z.land (nodes s) 2)
    else
      match isDrawn (board s) inCheck with
      | Result_LOST => return_ (mated_in p)
      | Result_DRAWN => return_ 0
      | Result_NONE =>
        let alpha := Z.max alpha (mated_in p) in
        let beta := Z.min beta (mate_in (p + 1)) in
        if alpha >=? beta then return_ alpha else ret (alpha, beta)
      end.

(** The cutoff from the transposition table in nodes outside the
    principal variation. *)
Definition absearch_ttcut (node : Node) (excludedMove : Move) (ttHit : bool)
    (tte : Z) (ttScore : Score) (depth : Z) (ss : Z) (alpha beta : Score)
    : M (S:=St) (Score * Score) :=
  s <- gets (fun s : St => s) ;;
  let e := tte_at (TTable s) tte in
  if negb (isRoot node)
     && (excludedMove =? 0)
     && negb (isPv node)
     && ttHit
     && (tte_depth e >=? depth)
     && negb (currentmove (frame s (ss - 1)) =? NULL_MOVE)
     && negb (ttScore =? VALUE_NONE)
  then
    match tte_flag e with
    | EXACTBOUND => return_ ttScore
    | LOWERBOUND =>
      let alpha := Z.max alpha ttScore in
      if alpha >=? beta then return_ ttScore else ret (alpha, beta)
    | UPPERBOUND =>
      let beta := Z.min beta ttScore in
      if alpha >=? beta then return_ ttScore else ret (alpha, beta)
    | NONEBOUND =>
      if alpha >=? beta then return_ ttScore else ret (alpha, beta)
    end
  else ret (alpha, beta).

(** Tablebase probing; yields the new [alpha], [best] and [maxValue]. *)
Definition absearch_tb (node : Node) (depth p : Z) (alpha beta : Score)
    (best maxValue : Score) : M (S:=St) (Score * Score * Score) :=
  if negb (isRoot node) && normalSearch cfg && useTB cfg then
    s <- gets (fun s : St => s) ;;
    let tbRes := probeTB (board s) in
    if negb (tbRes =? VALUE_NONE) then
      modify (fun s : St => set_tbhits (tbhits s + 1) s) ;;
      let '(tbRes, fl) :=
        if tbRes =? VALUE_TB_WIN then
          (VALUE_MATE_IN_PLY - p - 1, LOWERBOUND)
        else if tbRes =? VALUE_TB_LOSS then
          (VALUE_MATED_IN_PLY + p + 1, UPPERBOUND)
        else (0, EXACTBOUND) in
      if Flag_eqb fl EXACTBOUND
         || (Flag_eqb fl LOWERBOUND && (tbRes >=? beta))
         || (Flag_eqb fl UPPERBOUND && (tbRes <=? alpha))
      then
        TTable_storeEntry (depth + 6) (scoreToTT tbRes p) fl
          (hashKey (board s)) NO_MOVE ;;
        return_ tbRes
      else if isPv node then
        if Flag_eqb fl LOWERBOUND then
          ret (Z.max alpha tbRes, tbRes, maxValue)
        else ret (alpha, best, tbRes)
      else ret (alpha, best, maxValue)
    else ret (alpha, best, maxValue)
  else ret (alpha, best, maxValue).

(** Static evaluation, internal iterative reductions and the prunings
    before the move loop; yields [depth], [staticEval] and [improving]. *)
Definition absearch_early
    (qrec : Node -> Score -> Score -> Z -> Fn (S:=St))
    (arec : Node -> Z -> Score -> Score -> Z -> Fn (S:=St))
    (node : Node) (inCheck : bool) (color : Color) (excludedMove : Move)
    (ttHit : bool) (tte : Z) (depth : Z) (alpha beta : Score) (ss : Z)
    : M (S:=St) (Z * Score * bool) :=
  if inCheck then ret (depth, VALUE_NONE, false)
  else
    s <- gets (fun s : St => s) ;;
    let staticEval :=
      if ttHit then tte_score (tte_at (TTable s) tte)
      else evaluation (board s) in
    set_frame ss (with_eval staticEval) ;;
    prev <- gets (fun s : St => eval (frame s (ss - 2))) ;;
    let improving := improving_of staticEval prev in
    if isRoot node then ret (depth, staticEval, improving)
    else
      let depth := if (depth >=? 3) && negb ttHit then depth - 1 else depth in
      let depth := if isPv node && negb ttHit then depth - 1 else depth in
      if depth <=? 0 then
        v <- call (qrec PV alpha beta ss) ;; return_ v
      else if isPv node then ret (depth, staticEval, improving)
      else if (depth <? 3) && (staticEval + 129 <? alpha) then
        v <- call (qrec NonPV alpha beta ss) ;; return_ v
      else if (Z.abs beta <? VALUE_TB_WIN_IN_MAX_PLY)
              && (depth <? 7)
              && (staticEval - 64 * depth + 71 * b2z improving >=? beta)
      then return_ beta
      else
        prevMove <- gets (fun s : St => currentmove (frame s (ss - 1))) ;;
        (if nonPawnMat (board s) color
            && (excludedMove =? 0)
            && negb (prevMove =? NULL_MOVE)
            && (depth >=? 3)
            && (staticEval >=? beta)
         then
           let R := 5 + Z.min 4 (depth ÷ 5)
                    + Z.min 3 ((staticEval - beta) ÷ 214) in
           modify (fun s : St => set_board (makeNullMove (board s)) s) ;;
           set_frame ss (with_currentmove NULL_MOVE) ;;
           v <- call (arec NonPV (depth - R) (- beta) (- beta + 1) (ss + 1)) ;;
           let score := - v in
           modify (fun s : St => set_board (unmakeNullMove (board s)) s) ;;
           if score >=? beta then
             return_ (if score >=? VALUE_TB_WIN_IN_MAX_PLY then beta else score)
           else ret tt
         else ret tt) ;;
        ret (depth, staticEval, improving).

(** The pruning tests at the head of the loop body of [absearch]:
    [true] when the move is skipped. *)
Definition absearch_prune (node : Node) (e : AEntry) (l : ALoop)
    (capture : bool) (move : Move) (b : Board) : bool :=
  let depth := ae_depth e in
  if negb (isRoot node) && (a_best l >? VALUE_TB_LOSS_IN_MAX_PLY) then
    if capture then
      (depth <? 6) && negb (see b move (- (depth * 92)))
    else
      (negb (ae_inCheck e)
       && negb (isPv node)
       && negb (promoted move)
       && (depth <=? 5)
       && (a_quietCount l >? 4 + depth * depth))
      || ((depth <? 7) && negb (see b move (- (depth * 93))))
  else false.

(** Copying the child's principal variation behind [move]. *)
Definition update_pv (p : Z) (move : Move) (s : St) : St :=
  let t1 := zset2 (pvTable s) p p move in
  let t2 :=
    fold_left
      (fun t next_ply => zset2 t p next_ply (zget2 t (p + 1) next_ply))
      (zrange (p + 1) (zget (pvLength s) (p + 1))) t1 in
  set_pvLength (zset (pvLength s) p (zget (pvLength s) (p + 1)))
    (set_pvTable t2 s).

(** Singular extension: the verification search on the same frame with
    the table move excluded; yields the extension. *)
Definition absearch_singular
    (arec : Node -> Z -> Score -> Score -> Z -> Fn (S:=St))
    (node : Node) (e : AEntry) (move : Move) (ss : Z) : M (S:=St) Z :=
  s <- gets (fun s : St => s) ;;
  let depth := ae_depth e in
  let te := tte_at (TTable s) (ae_tte e) in
  if negb (isRoot node)
     && (depth >=? 8)
     && ae_ttHit e
     && (ae_ttMove e =? move)
     && (ae_excludedMove e =? 0)
     && (Z.abs (ae_ttScore e) <? 10000)
     && negb (Z.land (flag_bits (tte_flag te)) (flag_bits LOWERBOUND) =? 0)
     && (tte_depth te >=? depth - 3)
  then
    let singularBeta := ae_ttScore e - 3 * depth in
    let singularDepth := (depth - 1) ÷ 2 in
    set_frame ss (with_excludedMove move) ;;
    value <- call (arec NonPV singularDepth (singularBeta - 1) singularBeta ss) ;;
    set_frame ss (with_excludedMove NO_MOVE) ;;
    if value <? singularBeta then ret 1
    else if singularBeta >=? ae_beta e then return_ singularBeta
    else ret 0
  else ret 0.

(** The three searches of one move: reduced, zero-window, full window. *)
Definition absearch_child
    (arec : Node -> Z -> Score -> Score -> Z -> Fn (S:=St))
    (node : Node) (e : AEntry) (l : ALoop) (madeMoves newDepth : Z) (ss : Z)
    : M (S:=St) Score :=
  let depth := ae_depth e in
  let alpha := a_alpha l in
  let PvNode := isPv node in
  '(score, doFullSearch) <-
    (if (depth >=? 3) && negb (ae_inCheck e)
        && (madeMoves >? 3 + 2 * b2z PvNode)
     then
       let rdepth := reductions depth madeMoves in
       let rdepth := rdepth - Z.rem (id cfg) 2 in
       let rdepth := rdepth + b2z (ae_improving e) in
       let rdepth := rdepth - b2z PvNode in
       let rdepth := clamp (newDepth - rdepth) 1 (newDepth + 1) in
       v <- call (arec NonPV rdepth (- alpha - 1) (- alpha) (ss + 1)) ;;
       ret (- v, (- v >? alpha) && (rdepth <? newDepth))
     else ret (a_score l, negb PvNode || (madeMoves >? 1))) ;;
  score <-
    (if doFullSearch : bool then
       v <- call (arec NonPV newDepth (- alpha - 1) (- alpha) (ss + 1)) ;;
       ret (- v)
     else ret score) ;;
  if PvNode && (((score >? alpha) && (score <? ae_beta e)) || (madeMoves =? 1))
  then
    v <- call (arec PV newDepth (- ae_beta e) (- alpha) (ss + 1)) ;;
    ret (- v)
  else ret score.

(** The [currmove] line of the main thread at the root. *)
Definition absearch_currmove (node : Node) (e : AEntry) (move : Move)
    (madeMoves : Z) : M (S:=St) unit :=
  if (id cfg =? 0) && isRoot node && normalSearch cfg then
    st <- load_stopped ;;
    if negb st then
      ms <- getTime ;;
      when (ms >? 10000)
        (print ("info depth "
                ++ to_string (ae_depth e - b2z (ae_inCheck e))
                ++ " currmove " ++ uciMove move
                ++ " currmovenumber " ++ to_string madeMoves)%string)
    else ret tt
  else ret tt.

(** The move loop.  [n] bounds the number of moves fetched. *)
Fixpoint absearch_moves
    (arec : Node -> Z -> Score -> Score -> Z -> Fn (S:=St)) (n : nat)
    (node : Node) (e : AEntry) (ss : Z) (mp : MovePick) (l : ALoop)
    : M (S:=St) ALoop :=
  match n with
  | O => out_of_fuel
  | Datatypes.S n' =>
    s <- gets (fun s : St => s) ;;
    let '(move, mp) := nextMove mp s in
    if move =? NO_MOVE then ret l
    else if move =? ae_excludedMove e then
      absearch_moves arec n' node e ss mp l
    else
      let madeMoves := wrap8 (a_madeMoves l + 1) in
      let l := {| a_alpha := a_alpha l; a_best := a_best l;
                  a_bestMove := a_bestMove l; a_score := a_score l;
                  a_quiets := a_quiets l; a_quietCount := a_quietCount l;
                  a_madeMoves := madeMoves |} in
      let capture := negb (pieceAtB (board s) (to move) =? None_piece) in
      if absearch_prune node e l capture move (board s) then
        absearch_moves arec n' node e ss mp l
      else
        extension <- absearch_singular arec node e move ss ;;
        let newDepth := ae_depth e - 1 + extension in
        absearch_currmove node e move madeMoves ;;
        modify (fun s : St => set_nodes (nodes s + 1) s) ;;
        modify (fun s : St => set_board (makeMove true (board s) move) s) ;;
        nodeCount <- gets (fun s : St => nodes s) ;;
        set_frame ss (with_currentmove move) ;;
        score <- absearch_child arec node e l madeMoves newDepth ss ;;
        modify (fun s : St => set_board (unmakeMove false (board s) move) s) ;;
        when (id cfg =? 0)
          (modify (fun s : St =>
             set_spentEffort
               (zset2 (spentEffort s) (from move) (to move)
                  (zget2 (spentEffort s) (from move) (to move)
                   + (nodes s - nodeCount))) s)) ;;
        let p := ply (frame s ss) in
        let append (l : ALoop) : ALoop :=
          if capture then l
          else {| a_alpha := a_alpha l; a_best := a_best l;
                  a_bestMove := a_bestMove l; a_score := a_score l;
                  a_quiets := zset (a_quiets l) (a_quietCount l) move;
                  a_quietCount := wrap8 (a_quietCount l + 1);
                  a_madeMoves := a_madeMoves l |} in
        if score >? a_best l then
          if score >? a_alpha l then
            let l' := {| a_alpha := score; a_best := score;
                         a_bestMove := move; a_score := score;
                         a_quiets := a_quiets l;
                         a_quietCount := a_quietCount l;
                         a_madeMoves := madeMoves |} in
            modify (update_pv p move) ;;
            if score >=? ae_beta e then
              modify (updateAllHistories move score (ae_beta e) (ae_depth e)
                        (a_quiets l) (a_quietCount l) ss) ;;
              ret l'
            else absearch_moves arec n' node e ss mp (append l')
          else
            absearch_moves arec n' node e ss mp
              (append {| a_alpha := a_alpha l; a_best := score;
                         a_bestMove := a_bestMove l; a_score := score;
                         a_quiets := a_quiets l;
                         a_quietCount := a_quietCount l;
                         a_madeMoves := madeMoves |})
        else
          absearch_moves arec n' node e ss mp
            (append {| a_alpha := a_alpha l; a_best := a_best l;
                       a_bestMove := a_bestMove l; a_score := score;
                       a_quiets := a_quiets l;
                       a_quietCount := a_quietCount l;
                       a_madeMoves := madeMoves |})
  end.

(** The value of a node after the move loop. *)
Definition absearch_value (node : Node) (e : AEntry) (p : Z) (l : ALoop)
    : Score :=
  let best :=
    if a_madeMoves l =? 0 then
      if negb (ae_excludedMove e =? 0) then a_alpha l
      else if ae_inCheck e then mated_in p
      else 0
    else a_best l in
  if isPv node then Z.min best (ae_maxValue e) else best.

(** The end of [absearch]: the value, the bound flag, the guarded store. *)
Definition absearch_finish (node : Node) (e : AEntry) (ss : Z) (l : ALoop)
    : M (S:=St) Score :=
  s <- gets (fun s : St => s) ;;
  let p := ply (frame s ss) in
  let best := absearch_value node e p l in
  let b :=
    if best >=? ae_beta e then LOWERBOUND
    else if isPv node && negb (a_bestMove l =? NO_MOVE) then EXACTBOUND
    else UPPERBOUND in
  ok <- (if negb (ae_excludedMove e =? 0) then ret false
         else if negb (normalSearch cfg) then ret true
         else (st <- load_stopped ;; ret (negb st))) ;;
  when ok (TTable_storeEntry (ae_depth e) (scoreToTT best p) b
             (hashKey (board s)) (a_bestMove l)) ;;
  ret best.

Definition absearch_body
    (qrec : Node -> Score -> Score -> Z -> Fn (S:=St))
    (arec : Node -> Z -> Score -> Score -> Z -> Fn (S:=St)) (n : nat)
    (node : Node) (depth : Z) (alpha beta : Score) (ss : Z)
    : M (S:=St) Score :=
  reached <- limitReached ;;
  if reached : bool then return_ 0
  else
    s <- gets (fun s : St => s) ;;
    let color := sideToMove (board s) in
    let best := - VALUE_INFINITE in
    let maxValue := VALUE_MATE in
    let excludedMove := excludedMove (frame s ss) in
    let inCheck := isSquareAttacked (board s) (opp color) (KingSQ (board s) color) in
    let p := ply (frame s ss) in
    if p >=? MAX_PLY then
      return_ (if (p >=? MAX_PLY) && negb inCheck then evaluation (board s)
               else 0)
    else
      modify (fun s : St => set_pvLength (zset (pvLength s) p p) s) ;;
      '(alpha, beta) <- absearch_draws node inCheck p alpha beta ;;
      let depth := if inCheck then depth + 1 else depth in
      if depth <=? 0 then
        v <- call (qrec node alpha beta ss) ;; return_ v
      else
        set_frame (ss + 1) (with_excludedMove NO_MOVE) ;;
        modify (fun s : St =>
          if isPv node && (p >? seldepth s) then set_seldepth p s else s) ;;
        s <- gets (fun s : St => s) ;;
        let '(ttHit, ttMove, tte) := probeTT (TTable s) (hashKey (board s)) in
        let ttScore :=
          if ttHit then scoreFromTT (tte_score (tte_at (TTable s) tte)) p
          else VALUE_NONE in
        '(alpha, beta) <-
          absearch_ttcut node excludedMove ttHit tte ttScore depth ss
            alpha beta ;;
        '(alpha, best, maxValue) <-
          absearch_tb node depth p alpha beta best maxValue ;;
        '(depth, staticEval, improving) <-
          absearch_early qrec arec node inCheck color excludedMove ttHit tte
            depth alpha beta ss ;;
        let e := {| ae_depth := depth; ae_beta := beta;
                    ae_maxValue := maxValue; ae_inCheck := inCheck;
                    ae_improving := improving;
                    ae_excludedMove := excludedMove; ae_ttHit := ttHit;
                    ae_ttMove := ttMove; ae_tte := tte;
                    ae_ttScore := ttScore |} in
        l <- absearch_moves arec n node e ss
               (mp_absearch ss (isRoot node) ttMove
                  (if ttHit then TT_MOVE else GENERATE))
               {| a_alpha := alpha; a_best := best; a_bestMove := NO_MOVE;
                  a_score := VALUE_NONE; a_quiets := replicate 64 0;
                  a_quietCount := 0; a_madeMoves := 0 |} ;;
        absearch_finish node e ss l.

Fixpoint absearch (fuel : nat) (node : Node) (depth : Z)
    (alpha beta : Score) (ss : Z) : Fn (S:=St) :=
  match fuel with
  | O => fun _ => None
  | Datatypes.S fuel' =>
    fn (absearch_body (qsearch fuel') (absearch fuel') fuel'
          node depth alpha beta ss)
  end.

(** *** [uciOutput] and [Search::getPV] *)

Definition getPV (s : St) : string :=
  fold_left
    (fun acc i => (acc ++ " " ++ uciMove (zget2 (pvTable s) 0 i))%string)
    (zrange 0 (zget (pvLength s) 0)) EmptyString.

Definition uciOutput (score depth seldepth nodes tbHits time : Z)
    (pv : string) (hashfull : Z) : string :=
  ("info depth " ++ to_string depth
   ++ " seldepth " ++ to_string (wrap8 seldepth)
   ++ " score " ++ outputScore score
   ++ " tbhits " ++ to_string tbHits
   ++ " nodes " ++ to_string nodes
   ++ " nps " ++ to_string (to_int32 ((nodes ÷ ((time + 1) mod 2^64)) * 1000))
   ++ " hashfull " ++ to_string hashfull
   ++ " time " ++ to_string time
   ++ " pv" ++ pv)%string.

(** *** [Search::aspirationSearch] *)

(** The aspiration window between two searches of the root. *)
Record Window := {
  w_alpha : Score;
  w_beta : Score;
  w_delta : Z
}.

(** Bounds beyond 3500 centipawns are opened completely. *)
Definition window_slack (w : Window) : Window :=
  {| w_alpha := if w_alpha w <? -3500 then - VALUE_INFINITE else w_alpha w;
     w_beta := if w_beta w >? 3500 then VALUE_INFINITE else w_beta w;
     w_delta := w_delta w |}.

(** The window after a search that returned [result] on the (slackened)
    window [w]; [None] when the result lies inside. *)
Definition window_next (w : Window) (result : Score) : option Window :=
  if result <=? w_alpha w then
    Some {| w_alpha := Z.max (w_alpha w - w_delta w) (- VALUE_INFINITE);
            w_beta := (w_alpha w + w_beta w) ÷ 2;
            w_delta := w_delta w + w_delta w ÷ 2 |}
  else if result >=? w_beta w then
    Some {| w_alpha := w_alpha w;
            w_beta := Z.min (w_beta w + w_delta w) VALUE_INFINITE;
            w_delta := w_delta w + w_delta w ÷ 2 |}
  else None.

(** The [while (true)] loop; [root] is [absearch<Root>] and [n] bounds
    the number of iterations. *)
Fixpoint aspiration_loop (root : Z -> Score -> Score -> Z -> Fn (S:=St))
    (n : nat) (depth : Z) (ss : Z) (w : Window) : M (S:=St) Score :=
  match n with
  | O => out_of_fuel
  | Datatypes.S n' =>
    let w := window_slack w in
    result <- call (root depth (w_alpha w) (w_beta w) ss) ;;
    st <- load_stopped ;;
    if st : bool then return_ 0
    else
      nd <- gets (fun s : St => nodes s) ;;
      if (id cfg =? 0) && negb (limit_nodes (limit cfg) =? 0)
         && (nd >=? limit_nodes (limit cfg))
      then return_ 0
      else
        match window_next w result with
        | Some w' => aspiration_loop root n' depth ss w'
        | None => ret result
        end
  end.

Definition aspiration_window (depth : Z) (prevEval : Score) : Window :=
  let delta := 30 in
  if depth >=? 9 then
    {| w_alpha := prevEval - delta; w_beta := prevEval + delta;
       w_delta := delta |}
  else
    {| w_alpha := - VALUE_INFINITE; w_beta := VALUE_INFINITE;
       w_delta := delta |}.

Definition aspirationSearch_with
    (root : Z -> Score -> Score -> Z -> Fn (S:=St)) (n : nat)
    (depth : Z) (prevEval : Score) (ss : Z) : Fn (S:=St) :=
  fn (result <- aspiration_loop root n depth ss
                  (aspiration_window depth prevEval) ;;
      when ((id cfg =? 0) && normalSearch cfg)
        (ms <- getTime ;;
         s <- gets (fun s : St => s) ;;
         print (uciOutput result depth (seldepth s) (Threads_getNodes s)
                  (Threads_getTbHits s) (to_int32 ms) (getPV s)
                  (hashfull (TTable s)))) ;;
      ret result).

Definition aspirationSearch (fuel : nat) (depth : Z) (prevEval : Score)
    (ss : Z) : Fn (S:=St) :=
  aspirationSearch_with (absearch fuel Root) fuel depth prevEval ss.

(** *** The start of [Search::iterativeDeepening]

    [stack] has [MAX_PLY + 4] frames and [ss = stack + 2]; the loop
    writes the frames [ss - 2] to [ss + MAX_PLY + 1].  The rest of the
    function manages the clock in floating point and is not part of the
    model. *)
Definition stack_base : Z := 2.

(** One round of the initialising loop: the four assignments to the
    frame [ss + i]. *)
Definition init_frame (i : Z) (s : St) : St :=
  let ss := stack_base in
  let w (f : Stack -> Stack) (acc : St) : St :=
    set_stack (zset (stack acc) (ss + i) (f (frame acc (ss + i)))) acc in
  w (with_excludedMove NO_MOVE)
    (w (with_eval 0) (w (with_currentmove NO_MOVE) (w (with_ply i) s))).

Definition init_stack (s : St) : St :=
  fold_left (fun (acc : St) (i : Z) => init_frame i acc)
    (zrange (-2) (MAX_PLY + 2)) s.

Definition iterativeDeepening_init (s : St) : St :=
  init_stack (set_spentEffort (map (map (fun _ => 0)) (spentEffort s)) s).

End Model.

(** ** A small world to run the model on

    A board is the number of half-moves played; every position offers the
    capture e4xe5 and the quiet move e4-e2, and is drawn after two
    half-moves.  The table never hits and no tablebase is installed. *)
Section Demo.
#[local] Existing Instance engine_consts.

Definition demo_extern : Extern := {|
  Board := Z;
  TranspositionTable := unit;
  MovePick := list Move;
  sideToMove := fun b => b mod 2;
  opp := fun c => 1 - c;
  KingSQ := fun _ _ => 4;
  isSquareAttacked := fun _ _ _ => false;
  isRepetition := fun _ _ => false;
  isDrawn := fun b _ => if b >=? 2 then Result_DRAWN else Result_NONE;
  hashKey := fun b => 1000 + b;
  pieceAtB := fun _ sq => if sq =? 36 then 0 else 12;
  nonPawnMat := fun _ _ => true;
  see := fun _ _ _ => true;
  makeMove := fun _ b _ => b + 1;
  unmakeMove := fun _ b _ => b - 1;
  makeNullMove := fun b => b + 1;
  unmakeNullMove := fun b => b - 1;
  from := fun m => Z.land m 63;
  to := fun m => Z.land (Z.shiftr m 6) 63;
  promoted := fun _ => false;
  type_of_piece := fun p => if p =? 12 then 6 else p mod 6;
  piece_values_EG := fun pt => if pt =? 0 then 100 else 300;
  uciMove := to_string;
  nnue_scaled := fun b => 25 * (b + 1);
  probeTT := fun _ _ => (false, 0, 0);
  tte_at := fun _ _ =>
    {| tte_score := 0; tte_depth := 0; tte_flag := NONEBOUND |};
  storeEntry := fun t _ _ _ _ _ => t;
  hashfull := fun _ => 0;
  TB_LARGEST := 0;
  piece_count := fun _ => 32;
  tb_probe_wdl := fun _ => TB_FAILED;
  reductions := fun _ _ => 1;
  mp_qsearch := fun _ _ _ => [2332];
  mp_absearch := fun _ _ _ _ => [2332; 796];
  nextMove := fun mp _ =>
    match mp with
    | [] => (0, [])
    | m :: rest => (m, rest)
    end;
  external_stop := fun _ => false;
  clock := fun n => n;
  Threads_getNodes := fun s => nodes s;
  Threads_getTbHits := fun s => tbhits s
|}.

Definition demo_limits : Limits :=
  {| limit_time := {| optimum := 0; maximum := 0 |};
     limit_nodes := 0; limit_depth := 120 |}.

(** A helper thread of a normal search, and the main thread. *)
Definition demo_helper : Config :=
  {| id := 1; normalSearch := true; useTB := false; limit := demo_limits |}.

Definition demo_main : Config :=
  {| id := 0; normalSearch := true; useTB := false; limit := demo_limits |}.

(** The main thread in data generation. *)
Definition demo_datagen : Config :=
  {| id := 0; normalSearch := false; useTB := false; limit := demo_limits |}.

Definition demo_blank : Search Z unit :=
  {| board := 0; nodes := 0; tbhits := 0; seldepth := 0; checkTime := 0;
     pvTable := replicate 8 (replicate 8 0);
     pvLength := replicate 8 0;
     killerMoves := replicate 2 (replicate 8 0);
     history := replicate (Z.to_nat 8192) 0;
     spentEffort := replicate 64 (replicate 64 0);
     stack := replicate (Z.to_nat (MAX_PLY + 4))
                {| ply := 7; currentmove := 7; eval := 7; excludedMove := 7 |};
     TTable := tt; stopped := false; tt_log := []; loads := 0;
     clock_reads := 0; output := [] |}.

(** The search object as [iterativeDeepening] hands it to the first
    search. *)
Definition demo_start : Search Z unit :=
  iterativeDeepening_init (H0 := demo_extern) demo_blank.

End Demo.

(** ** Predicates used in the statements *)

(** The frame that the initialising loop leaves at [ss + i]. *)
Definition fresh_frame `{Consts} (i : Z) : Stack :=
  {| ply := i; currentmove := NO_MOVE; eval := 0; excludedMove := NO_MOVE |}.


(** Every entry of the butterfly table is within [16384 + 2000]. *)
Definition history_bounded (h : list Z) : Prop :=
  Forall (fun x => Z.abs x <= 16384 + 2000) h.

(** [wp m Q s]: when [m] runs to its end from [s], the outcome satisfies
    [Q]. *)
Definition wp {S A} (m : M (S:=S) A) (Q : Ctl A -> S -> Prop) (s : S) : Prop :=
  match m s with
  | None => True
  | Some (c, s') => Q c s'
  end.

(** [s'] has the log of stores and the butterfly table of [s]. *)
Definition same_tables {Board TranspositionTable}
    (s s' : Search Board TranspositionTable) : Prop :=
  tt_log s' = tt_log s /\ history s' = history s.

(** The stores issued since the log was [L] all satisfy [E]. *)
Definition Since {Board TranspositionTable} (E : TTStore -> Prop)
    (L : list TTStore) (s : Search Board TranspositionTable) : Prop :=
  exists evs, tt_log s = evs ++ L /\ Forall E evs.

(** A store made by [qsearch]: depth 0 and a one-sided bound. *)
Definition qsearch_entry_shape (e : TTStore) : Prop :=
  st_depth e = 0 /\ (st_flag e = LOWERBOUND \/ st_flag e = UPPERBOUND).

(** A store that respects the stop flag of a normal search. *)
Definition store_respects_stop (cfg : Config) (e : TTStore) : Prop :=
  normalSearch cfg = true -> st_stopped e = false.

(** The window update in the words of the specification: on a fail-low
    "beta = (alpha+beta)/2; alpha = alpha - delta; delta += delta/2", on a
    fail-high "beta += delta; delta += delta/2". *)
Definition window_next_spec (w : Window) (result : Score) : option Window :=
  if result <=? w_alpha w then
    Some {| w_alpha := w_alpha w - w_delta w;
            w_beta := (w_alpha w + w_beta w) ÷ 2;
            w_delta := w_delta w + w_delta w ÷ 2 |}
  else if result >=? w_beta w then
    Some {| w_alpha := w_alpha w;
            w_beta := w_beta w + w_delta w;
            w_delta := w_delta w + w_delta w ÷ 2 |}
  else None.

(** The two tests after the root search in [aspirationSearch]: the stop
    flag as the next load sees it, and the node limit of the main
    thread. *)
Definition search_aborted `{Extern} (cfg : Config)
    (s : Search Board TranspositionTable) : bool :=
  (stopped s || external_stop (loads s))
  || ((id cfg =? 0) && negb (limit_nodes (limit cfg) =? 0)
      && (nodes s >=? limit_nodes (limit cfg))).

(** Termination measure of the aspiration loop started on [w0]: once
    [delta] has reached [asp_threshold w0] a failing side is opened
    completely. *)
Definition asp_threshold (w0 : Window) : Z :=
  Z.max (Z.max (w_alpha w0) (-3500) + 3500)
        (3500 - Z.min (w_beta w0) (-3500)) + 1.

Definition asp_measure (w0 w : Window) : Z :=
  4 * Z.max 0 (asp_threshold w0 - w_delta w)
  + 2 * b2z (-3500 <=? w_alpha w) + b2z (w_beta w <=? 3500).

Definition asp_inv (w0 w : Window) : Prop :=
  w_alpha w <= Z.max (w_alpha w0) (-3500)
  /\ Z.min (w_beta w0) (-3500) <= w_beta w
  /\ 30 <= w_delta w.

(** ** A second small world: a lost tablebase position without moves

    As [demo_extern], but the position is never drawn, the move pickers
    yield nothing, and a tablebase reports every position as lost. *)
Definition demo_tb_extern : Extern := {|
  Board := Z;
  TranspositionTable := unit;
  MovePick := list Move;
  sideToMove := fun b => b mod 2;
  opp := fun c => 1 - c;
  KingSQ := fun _ _ => 4;
  isSquareAttacked := fun _ _ _ => false;
  isRepetition := fun _ _ => false;
  isDrawn := fun _ _ => Result_NONE;
  hashKey := fun b => 1000 + b;
  pieceAtB := fun _ sq => if sq =? 36 then 0 else 12;
  nonPawnMat := fun _ _ => true;
  see := fun _ _ _ => true;
  makeMove := fun _ b _ => b + 1;
  unmakeMove := fun _ b _ => b - 1;
  makeNullMove := fun b => b + 1;
  unmakeNullMove := fun b => b - 1;
  from := fun m => Z.land m 63;
  to := fun m => Z.land (Z.shiftr m 6) 63;
  promoted := fun _ => false;
  type_of_piece := fun p => if p =? 12 then 6 else p mod 6;
  piece_values_EG := fun pt => if pt =? 0 then 100 else 300;
  uciMove := to_string;
  nnue_scaled := fun b => 25 * (b + 1);
  probeTT := fun _ _ => (false, 0, 0);
  tte_at := fun _ _ =>
    {| tte_score := 0; tte_depth := 0; tte_flag := NONEBOUND |};
  storeEntry := fun t _ _ _ _ _ => t;
  hashfull := fun _ => 0;
  TB_LARGEST := 5;
  piece_count := fun _ => 3;
  tb_probe_wdl := fun _ => TB_LOSS;
  reductions := fun _ _ => 1;
  mp_qsearch := fun _ _ _ => [];
  mp_absearch := fun _ _ _ _ => [];
  nextMove := fun mp _ =>
    match mp with
    | [] => (0, [])
    | m :: rest => (m, rest)
    end;
  external_stop := fun _ => false;
  clock := fun n => n;
  Threads_getNodes := fun s => nodes s;
  Threads_getTbHits := fun s => tbhits s
|}.

(** The main thread of a normal search with tablebases. *)
Definition demo_main_tb : Config :=
  {| id := 0; normalSearch := true; useTB := true; limit := demo_limits |}.

(** A root search that fails low until [alpha] is open, then fails high
    until [beta] is open. *)
Definition demo_root (depth : Z) (alpha beta : Score) (ss : Z)
    : Fn (S:=Search Z unit) :=
  fun s =>
    Some (if alpha >? -32001 then Z.min alpha 32000
          else if beta <? 32001 then Z.max beta (-32000)
          else 0, s).

(** How far [delta] can have grown, in sixteenths of the threshold, when
    [m] sides of the window are still closed (twice for alpha, once for
    beta). *)
Definition asp_growth (m : Z) : Z :=
  if m =? 3 then 24 else if m =? 2 then 36 else if m =? 1 then 54 else 81.

Definition asp_closed (w : Window) : Z :=
  2 * b2z (-3500 <=? w_alpha w) + b2z (w_beta w <=? 3500).

(** The windows that the aspiration loop started on [w0] can hold at the
    head of an iteration. *)
Inductive asp_reach `{Consts} (w0 : Window) : Window -> Prop :=
| asp_reach_start : asp_reach w0 w0
| asp_reach_next (w w' : Window) (r : Score) :
    asp_reach w0 w ->
    - VALUE_INFINITE < r < VALUE_INFINITE ->
    window_next (window_slack w) r = Some w' ->
    asp_reach w0 w'.

Definition fits_int32 (x : Z) : Prop := - 2^31 <= x < 2^31.

(** What the loop keeps true of its window: the bounds stay near the
    score range and [delta] stays within a fixed multiple of the
    threshold. *)
Definition asp_range `{Consts} (w0 w : Window) : Prop :=
  asp_inv w0 w
  /\ - VALUE_INFINITE - 30 <= w_alpha w <= VALUE_INFINITE + 30
  /\ - VALUE_INFINITE - 30 <= w_beta w <= VALUE_INFINITE + 30
  /\ (w_delta w < asp_threshold w0
      \/ 16 * w_delta w <= asp_growth (asp_closed w) * asp_threshold w0).

(** ** Helpers of [helper.cpp]

    Texts are strings, bitboards are integers from 0 to [2^64 - 1]. *)

(** The delimiter of [splitInput]. *)
Definition space : Ascii.ascii := Ascii.ascii_of_nat 32.

(** [std::getline(stream, segment, ' ')] on a stream with characters left:
    the characters up to the next space, and what follows that space. *)
Fixpoint getline_from (stream : string) : string * string :=
  match stream with
  | EmptyString => (EmptyString, EmptyString)
  | String c rest =>
    if Ascii.eqb c space then (EmptyString, rest)
    else let '(segment, rest') := getline_from rest in
         (String c segment, rest')
  end.

(** [std::getline] fails, and ends the loop, when nothing is left to
    read. *)
Definition getline (stream : string) : option (string * string) :=
  match stream with
  | EmptyString => None
  | _ => Some (getline_from stream)
  end.

(** The [while] loop of [splitInput]; [n] bounds the number of rounds. *)
Fixpoint splitInput_loop (n : nat) (fen_stream : string)
    (seglist : list string) : option (list string) :=
  match n with
  | O => None
  | Datatypes.S n' =>
    match getline fen_stream with
    | None => Some seglist
    | Some (segment, fen_stream) =>
      splitInput_loop n' fen_stream (seglist ++ [segment])
    end
  end.

Definition splitInput (fen : string) : option (list string) :=
  splitInput_loop (Datatypes.S (String.length fen)) fen [].

(** [square_file] and [square_rank] come from a header that is not among
    the sources and are parameters here. *)
Section Distance.
Variables square_file square_rank : Square -> Z.

Definition square_distance (a b : Square) : Z :=
  wrap8 (Z.max (Z.abs (square_file a - square_file b))
               (Z.abs (square_rank a - square_rank b))).

Definition manhatten_distance (sq1 sq2 : Square) : Z :=
  wrap8 (Z.abs (square_file sq1 - square_file sq2)
         + Z.abs (square_rank sq1 - square_rank sq2)).

End Distance.

(** The compiler built-ins on a 64-bit value, as the variants of [lsb],
    [msb] and [popcount] for GCC and Clang use them: the number of zero
    bits below the lowest set bit, the number of zero bits above the
    highest set bit, and the number of set bits.  The first two are
    undefined on 0, where the model yields 0 and 64. *)
Fixpoint ctz_pos (p : positive) : Z :=
  match p with
  | xO q => 1 + ctz_pos q
  | _ => 0
  end.

Definition builtin_ctzll (b : Z) : Z :=
  match b with
  | Zpos p => ctz_pos p
  | _ => 0
  end.

Definition builtin_clzll (b : Z) : Z :=
  match b with
  | Zpos p => 64 - Z.pos (Pos.size p)
  | _ => 64
  end.

Fixpoint popcount_pos (p : positive) : Z :=
  match p with
  | xH => 1
  | xO q => popcount_pos q
  | xI q => 1 + popcount_pos q
  end.

Definition builtin_popcountll (b : Z) : Z :=
  match b with
  | Zpos p => popcount_pos p
  | _ => 0
  end.

(** Conversion to [int8_t]. *)
Definition to_int8 (x : Z) : Z := (x + 128) mod 256 - 128.

(** [U64] arithmetic. *)
Definition wrap64 (x : Z) : Z := x mod 2^64.

(** [NO_SQ] comes from a header that is not among the sources and is a
    parameter here.  A [Square] returned by [poplsb] is the [int8_t] it
    was stored in; the two agree on the squares of the board. *)
Section Bitboards.
Variable NO_SQ : Square.

Definition lsb (b : Z) : Square :=
  if b =? 0 then NO_SQ else builtin_ctzll b.

Definition msb (b : Z) : Square :=
  if b =? 0 then NO_SQ else Z.lxor 63 (builtin_clzll b).

Definition popcount (mask : Z) : Z := wrap8 (builtin_popcountll mask).

(** [poplsb(mask)]: the result and the new value of [mask]. *)
Definition poplsb (mask : Z) : Square * Z :=
  let s := to_int8 (lsb mask) in
  (s, Z.land mask (wrap64 (mask - 1))).

End Bitboards.

Definition get_square_color (square : Square) : bool :=
  if Z.rem (Z.rem square 8) 2 =? Z.rem (square ÷ 8) 2 then false else true.

Definition sameColor (sq1 sq2 : Z) : bool :=
  Z.land (9 * Z.lxor sq1 sq2) 8 =? 0.

Definition makePiece `{Consts} (type : PieceType) (c : Color) : Piece :=
  if type =? NONETYPE then None_piece else type + 6 * c.

(** The text with its final character removed when that is a space. *)
Fixpoint drop_final_space (s : string) : string :=
  match s with
  | EmptyString => EmptyString
  | String c rest =>
    match rest with
    | EmptyString => if Ascii.eqb c space then EmptyString else s
    | _ => String c (drop_final_space rest)
    end
  end.

(** No character of the text is a space. *)
Fixpoint no_space (s : string) : bool :=
  match s with
  | EmptyString => true
  | String c rest => negb (Ascii.eqb c space) && no_space rest
  end.

(** Every entry of the butterfly table is within [16384]. *)
Definition history_tight (h : list Z) : Prop :=
  Forall (fun x => Z.abs x <= 16384) h.

(** ** What a search leaves unchanged *)

(** Unmaking a move undoes making it, for moves and for the null move. *)
Definition inverse_moves `{Extern} : Prop :=
  (forall b m, unmakeMove false (makeMove true b m) m = b)
  /\ (forall b, unmakeNullMove (makeNullMove b) = b).

(** The stack [st'] has the frames of [st] below [ss], and in every frame
    the ply of [st]. *)
Definition stack_kept (ss : Z) (st st' : list Stack) : Prop :=
  length st' = length st
  /\ (forall i, ply (zget st' i) = ply (zget st i))
  /\ (forall i, i < ss -> zget st' i = zget st i).

(** The board is restored when moves can be unmade, the node counter has
    not gone down, a stop flag that was set is still set, and a thread
    other than the main one has left [checkTime] and the clock alone. *)
Definition core_kept `{Extern} (cfg : Config)
    (s s' : Search Board TranspositionTable) : Prop :=
  (inverse_moves -> board s' = board s)
  /\ nodes s <= nodes s'
  /\ (stopped s = true -> stopped s' = true)
  /\ (id cfg <> 0 ->
      checkTime s' = checkTime s /\ clock_reads s' = clock_reads s).

(** The heuristic tables, the principal variation, the stack, the
    tablebase counter and the output are the same in [s'] as in [s]. *)
Definition tables_kept {Board TranspositionTable}
    (s s' : Search Board TranspositionTable) : Prop :=
  history s' = history s
  /\ killerMoves s' = killerMoves s
  /\ pvTable s' = pvTable s
  /\ pvLength s' = pvLength s
  /\ seldepth s' = seldepth s
  /\ spentEffort s' = spentEffort s
  /\ stack s' = stack s
  /\ tbhits s' = tbhits s
  /\ output s' = output s.

(** What a search on the frame [ss] keeps. *)
Definition search_kept `{Extern} (cfg : Config) (ss : Z)
    (s s' : Search Board TranspositionTable) : Prop :=
  core_kept cfg s s'
  /\ tbhits s <= tbhits s'
  /\ stack_kept ss (stack s) (stack s')
  /\ (id cfg <> 0 ->
      output s' = output s /\ spentEffort s' = spentEffort s).

(** The search object of [demo_start] whose line of ply 1 has length 2
    and holds the capture. *)
Definition demo_pv : Search Z unit :=
  set_pvLength (zset (pvLength demo_start) 1 2)
    (set_pvTable (zset2 (pvTable demo_start) 1 1 2332) demo_start).

(** ** The bounds of the search stack *)

(** Every frame of the array of [MAX_PLY + 4] frames holds its ply, as
    after the initialising loop of [iterativeDeepening]. *)
Definition plied `{Consts} (st : list Stack) : Prop :=
  forall i, 0 <= i <= MAX_PLY + 3 -> ply (zget st i) = i - stack_base.

(** The stack [st'] has in every frame the ply of [st], and the frames of
    [st] above the index [MAX_PLY + 2]. *)
Definition stack_below `{Consts} (st st' : list Stack) : Prop :=
  (forall i, ply (zget st' i) = ply (zget st i))
  /\ (forall i, MAX_PLY + 2 < i -> zget st' i = zget st i).

(** [plied] as a test that can be run. *)
Definition plied_check `{Consts} (st : list Stack) : bool :=
  forallb (fun i => ply (zget st i) =? i - stack_base)
    (zrange 0 (MAX_PLY + 4)).

(** ** The runs of the aspiration loop *)

Section AspirationRuns.
Context `{Consts} `{Extern}.
Variable cfg : Config.
Variable root : Z -> Score -> Score -> Z -> Fn (S:=Search Board TranspositionTable).
Variables (depth ss : Z).

#[local] Abbreviation St := (Search Board TranspositionTable).

(** The search object after the load of the stop flag that follows a
    search of the root. *)
Definition stop_loaded (s : St) : St :=
  set_loads (loads s + 1)
    (set_stopped (stopped s || external_stop (loads s)) s).

(** The search object after the main thread has read the clock and
    printed the info line of a finished aspiration search. *)
Definition asp_report (result : Score) (s : St) : St :=
  let s1 := set_clock_reads (clock_reads s + 1) s in
  set_output
    (uciOutput result depth (seldepth s1) (Threads_getNodes s1)
       (Threads_getTbHits s1) (to_int32 (clock (clock_reads s))) (getPV s1)
       (hashfull (TTable s1)) :: output s1) s1.

(** [asp_run w s rs done v s']: started on the window [w] in [s], the
    loop searches the root once per element of [rs], which lists the
    results in order; every result but the last fails low or high and
    moves the window by [window_next]; the last one either lies strictly
    inside its window ([done = true], [v] is that result) or belongs to an
    aborted search ([done = false], [v = 0]). *)
Inductive asp_run : Window -> St -> list Score -> bool -> Score -> St -> Prop :=
| asp_run_abort (w : Window) (s s1 : St) (r : Score) :
    root depth (w_alpha (window_slack w)) (w_beta (window_slack w)) ss s
    = Some (r, s1) ->
    search_aborted cfg s1 = true ->
    asp_run w s [r] false 0 (stop_loaded s1)
| asp_run_inside (w : Window) (s s1 : St) (r : Score) :
    root depth (w_alpha (window_slack w)) (w_beta (window_slack w)) ss s
    = Some (r, s1) ->
    search_aborted cfg s1 = false ->
    w_alpha (window_slack w) < r < w_beta (window_slack w) ->
    asp_run w s [r] true r (stop_loaded s1)
| asp_run_retry (w w' : Window) (s s1 s' : St) (r v : Score)
    (rs : list Score) (done : bool) :
    root depth (w_alpha (window_slack w)) (w_beta (window_slack w)) ss s
    = Some (r, s1) ->
    search_aborted cfg s1 = false ->
    window_next (window_slack w) r = Some w' ->
    asp_run w' (stop_loaded s1) rs done v s' ->
    asp_run w s (r :: rs) done v s'.

(** [asp_stuck w s]: started on [w] in [s], the loop reaches a search of
    the root that yields no result, or one that was not aborted and
    failed low or high with a value outside the infinite bounds. *)
Inductive asp_stuck : Window -> St -> Prop :=
| asp_stuck_root (w : Window) (s : St) :
    root depth (w_alpha (window_slack w)) (w_beta (window_slack w)) ss s
    = None ->
    asp_stuck w s
| asp_stuck_range (w w' : Window) (s s1 : St) (r : Score) :
    root depth (w_alpha (window_slack w)) (w_beta (window_slack w)) ss s
    = Some (r, s1) ->
    search_aborted cfg s1 = false ->
    window_next (window_slack w) r = Some w' ->
    ~ (- VALUE_INFINITE < r < VALUE_INFINITE) ->
    asp_stuck w s
| asp_stuck_retry (w w' : Window) (s s1 : St) (r : Score) :
    root depth (w_alpha (window_slack w)) (w_beta (window_slack w)) ss s
    = Some (r, s1) ->
    search_aborted cfg s1 = false ->
    window_next (window_slack w) r = Some w' ->
    asp_stuck w' (stop_loaded s1) ->
    asp_stuck w s.

(** The results that moved the window: all but the last. *)
Definition asp_retried (rs : list Score) : list Score := removelast rs.

End AspirationRuns.

(** ** More small worlds

    As [demo_extern], with a choice of whether the side to move is in
    check, of what the tablebase reports for the [pieces] men on the
    board, and of the moves the two pickers yield. *)
Section DemoWorlds.
#[local] Existing Instance engine_consts.

Definition demo_world (check : bool) (wdl : WDL) (pieces : Z)
    (captures moves : list Move) : Extern := {|
  Board := Z;
  TranspositionTable := unit;
  MovePick := list Move;
  sideToMove := fun b => b mod 2;
  opp := fun c => 1 - c;
  KingSQ := fun _ _ => 4;
  isSquareAttacked := fun _ _ _ => check;
  isRepetition := fun _ _ => false;
  isDrawn := fun b _ => if b >=? 2 then Result_DRAWN else Result_NONE;
  hashKey := fun b => 1000 + b;
  pieceAtB := fun _ sq => if sq =? 36 then 0 else 12;
  nonPawnMat := fun _ _ => true;
  see := fun _ _ _ => true;
  makeMove := fun _ b _ => b + 1;
  unmakeMove := fun _ b _ => b - 1;
  makeNullMove := fun b => b + 1;
  unmakeNullMove := fun b => b - 1;
  from := fun m => Z.land m 63;
  to := fun m => Z.land (Z.shiftr m 6) 63;
  promoted := fun _ => false;
  type_of_piece := fun p => if p =? 12 then 6 else p mod 6;
  piece_values_EG := fun pt => if pt =? 0 then 100 else 300;
  uciMove := to_string;
  nnue_scaled := fun b => 25 * (b + 1);
  probeTT := fun _ _ => (false, 0, 0);
  tte_at := fun _ _ =>
    {| tte_score := 0; tte_depth := 0; tte_flag := NONEBOUND |};
  storeEntry := fun t _ _ _ _ _ => t;
  hashfull := fun _ => 0;
  TB_LARGEST := 5;
  piece_count := fun _ => pieces;
  tb_probe_wdl := fun _ => wdl;
  reductions := fun _ _ => 1;
  mp_qsearch := fun _ _ _ => captures;
  mp_absearch := fun _ _ _ _ => moves;
  nextMove := fun mp _ =>
    match mp with
    | [] => (0, [])
    | m :: rest => (m, rest)
    end;
  external_stop := fun _ => false;
  clock := fun n => n;
  Threads_getNodes := fun s => nodes s;
  Threads_getTbHits := fun s => tbhits s
|}.

(** The picker yields the quiet move e4-e2 before the capture e4xe5; no
    tablebase covers the 32 men. *)
Definition demo_quiet_extern : Extern :=
  demo_world false TB_FAILED 32 [2332] [796; 2332].

(** A checkmate with three men on the board: the side to move is in
    check, no move is legal and the tablebase reports a loss. *)
Definition demo_mated_extern : Extern := demo_world true TB_LOSS 3 [] [].

(** A stalemate: not in check, no legal move, no tablebase. *)
Definition demo_stalemate_extern : Extern :=
  demo_world false TB_FAILED 32 [] [].

(** The quiet move e4-e2 is the only legal move. *)
Definition demo_single_extern : Extern :=
  demo_world false TB_FAILED 32 [] [796].

(** [demo_start] in the verification search of a singular extension: the
    frame of the node excludes the move e4-e2. *)
Definition demo_excluded : Search Z unit :=
  set_stack
    (zset (stack demo_start) 2
       (with_excludedMove 796 (zget (stack demo_start) 2)))
    demo_start.

(** The search object after a first search of [demo_start] at depth 3 on
    the window (-100, 0), in the world where the quiet move comes first:
    the quiet move has failed high and holds a bonus in the butterfly
    table. *)
Definition demo_warm : Search Z unit :=
  match absearch (H0 := demo_quiet_extern) demo_main 8 Root 3 (-100) 0 2
          demo_start with
  | Some (_, s) => s
  | None => demo_start
  end.

End DemoWorlds.

(** ** The moves of a picker *)

Section Picked.
Context `{Consts} `{Extern}.

(** The moves that a picker yields in the search object [s] before it
    yields [NO_MOVE], the first [n] at most. *)
Fixpoint picked (n : nat) (mp : MovePick)
    (s : Search Board TranspositionTable) : list Move :=
  match n with
  | O => []
  | Datatypes.S n' =>
    let '(move, mp') := nextMove mp s in
    if move =? NO_MOVE then [] else move :: picked n' mp' s
  end.

End Picked.

(** ** [absearch] up to its move loop *)

Section Upto.
Context `{Consts} `{Extern}.
Variable cfg : Config.

#[local] Abbreviation St := (Search Board TranspositionTable).

(** [Search::absearch] from its first line to the head of the move loop,
    as in [absearch_body]; [k] receives the locals that the loop reads,
    the move picker and the locals that the loop updates. *)
Definition absearch_upto {A}
    (qrec : Node -> Score -> Score -> Z -> Fn (S:=St))
    (arec : Node -> Z -> Score -> Score -> Z -> Fn (S:=St))
    (node : Node) (depth : Z) (alpha beta : Score) (ss : Z)
    (k : AEntry -> MovePick -> ALoop -> M (S:=St) A) : M (S:=St) A :=
  reached <- limitReached cfg ;;
  if reached : bool then return_ 0
  else
    s <- gets (fun s : St => s) ;;
    let color := sideToMove (board s) in
    let best := - VALUE_INFINITE in
    let maxValue := VALUE_MATE in
    let excludedMove := excludedMove (frame s ss) in
    let inCheck := isSquareAttacked (board s) (opp color) (KingSQ (board s) color) in
    let p := ply (frame s ss) in
    if p >=? MAX_PLY then
      return_ (if (p >=? MAX_PLY) && negb inCheck then evaluation (board s)
               else 0)
    else
      modify (fun s : St => set_pvLength (zset (pvLength s) p p) s) ;;
      '(alpha, beta) <- absearch_draws node inCheck p alpha beta ;;
      let depth := if inCheck then depth + 1 else depth in
      if depth <=? 0 then
        v <- call (qrec node alpha beta ss) ;; return_ v
      else
        set_frame (ss + 1) (with_excludedMove NO_MOVE) ;;
        modify (fun s : St =>
          if isPv node && (p >? seldepth s) then set_seldepth p s else s) ;;
        s <- gets (fun s : St => s) ;;
        let '(ttHit, ttMove, tte) := probeTT (TTable s) (hashKey (board s)) in
        let ttScore :=
          if ttHit then scoreFromTT (tte_score (tte_at (TTable s) tte)) p
          else VALUE_NONE in
        '(alpha, beta) <-
          absearch_ttcut node excludedMove ttHit tte ttScore depth ss
            alpha beta ;;
        '(alpha, best, maxValue) <-
          absearch_tb cfg node depth p alpha beta best maxValue ;;
        '(depth, staticEval, improving) <-
          absearch_early qrec arec node inCheck color excludedMove ttHit tte
            depth alpha beta ss ;;
        k {| ae_depth := depth; ae_beta := beta;
             ae_maxValue := maxValue; ae_inCheck := inCheck;
             ae_improving := improving;
             ae_excludedMove := excludedMove; ae_ttHit := ttHit;
             ae_ttMove := ttMove; ae_tte := tte;
             ae_ttScore := ttScore |}
          (mp_absearch ss (isRoot node) ttMove
             (if ttHit then TT_MOVE else GENERATE))
          {| a_alpha := alpha; a_best := best; a_bestMove := NO_MOVE;
             a_score := VALUE_NONE; a_quiets := replicate 64 0;
             a_quietCount := 0; a_madeMoves := 0 |}.

(** The locals with which the move loop starts, when the node gets
    there. *)
Definition absearch_loop_entry
    (qrec : Node -> Score -> Score -> Z -> Fn (S:=St))
    (arec : Node -> Z -> Score -> Score -> Z -> Fn (S:=St))
    (node : Node) (depth : Z) (alpha beta : Score) (ss : Z)
    : M (S:=St) (AEntry * MovePick * ALoop) :=
  absearch_upto qrec arec node depth alpha beta ss
    (fun e mp l => ret (e, mp, l)).

(** [agree m m' k]: whenever [m] completes with [x] in a search object,
    [m'] goes on from there as [k x]. *)
Definition agree {X A} (m : M (S:=St) X) (m' : M (S:=St) A)
    (k : X -> M (S:=St) A) : Prop :=
  forall s x s1, m s = Some (Val x, s1) -> m' s = k x s1.

End Upto.

(** * Properties *)

(** ** Score algebra *)

Section ScoreFacts.
Context `{Consts}.

Lemma mated_below_mate : VALUE_MATED_IN_PLY < 0 < VALUE_MATE_IN_PLY.
Proof.
  pose proof mate_layout as [_ Hm]. pose proof tb_layout as [_ Ht]. lia.
Qed.

(** Loading what was stored gives the score back, at every ply. *)
Lemma scoreFromTT_scoreToTT (s : Score) (ply : Z) :
  0 <= ply -> scoreFromTT (scoreToTT s ply) ply = s.
Proof.
  intros Hp. pose proof mated_below_mate. unfold scoreFromTT, scoreToTT.
  repeat (case_match; try lia).
Qed.

(** A store at a positive ply never writes [VALUE_MATE_IN_PLY]: the
    scores from there up to [VALUE_MATE_IN_PLY + ply - 1] are skipped. *)
Lemma scoreToTT_gap (s : Score) (ply : Z) :
  0 < ply -> scoreToTT s ply <> VALUE_MATE_IN_PLY.
Proof.
  intros Hp. pose proof mated_below_mate. unfold scoreToTT.
  repeat (case_match; try lia).
Qed.

(** Every score a store writes lies outside the two gaps next to the
    mate thresholds. *)
Lemma scoreToTT_range (s : Score) (ply : Z) :
  0 <= ply ->
  let x := scoreToTT s ply in
  VALUE_MATE_IN_PLY + ply <= x \/ x <= VALUE_MATED_IN_PLY - ply
  \/ VALUE_MATED_IN_PLY < x < VALUE_MATE_IN_PLY.
Proof.
  intros Hp. pose proof mated_below_mate. unfold scoreToTT.
  repeat (case_match; try lia).
Qed.

(** C1, as amended: for [ply] in [[0, MAX_PLY)] the round trip
    [scoreToTT (scoreFromTT x ply) ply = x] holds for every score [x]
    outside the two gaps next to the mate thresholds, that is for
    [x >= VALUE_MATE_IN_PLY + ply], [x <= VALUE_MATED_IN_PLY - ply] and
    the scores strictly between the thresholds. *)
Theorem scoreToTT_scoreFromTT (x : Score) (ply : Z) :
  0 <= ply < MAX_PLY ->
  VALUE_MATE_IN_PLY + ply <= x \/ x <= VALUE_MATED_IN_PLY - ply
  \/ VALUE_MATED_IN_PLY < x < VALUE_MATE_IN_PLY ->
  scoreToTT (scoreFromTT x ply) ply = x.
Proof.
  intros Hp Hx. pose proof mated_below_mate. unfold scoreFromTT, scoreToTT.
  repeat (case_match; try lia).
Qed.

(** C10: a score of magnitude at most 4 is printed as "cp 0". *)
Theorem outputScore_small (score : Z) :
  Z.abs score <= 4 -> outputScore score = "cp 0"%string.
Proof.
  intros Hs. pose proof mated_below_mate. unfold outputScore.
  destruct (Z.leb_spec (Z.abs score) 4); [|lia].
  destruct (Z.geb_spec 0 VALUE_MATE_IN_PLY); [lia|].
  destruct (Z.leb_spec 0 VALUE_MATED_IN_PLY); [lia|].
  reflexivity.
Qed.

End ScoreFacts.

Section ScoreWitnesses.
#[local] Existing Instance engine_consts.

Lemma scoreToTT_scoreFromTT_witness :
  scoreToTT (scoreFromTT 31990 7) 7 = 31990.
Proof. apply (scoreToTT_scoreFromTT (H := engine_consts)); simpl; lia. Defined.

(** C1 as stated fails: at ply 1 the score [VALUE_MATE_IN_PLY] comes back
    as [VALUE_MATE_IN_PLY - 1]. *)
Lemma scoreToTT_scoreFromTT_counterexample :
  0 <= 1 < MAX_PLY
  /\ scoreToTT (scoreFromTT VALUE_MATE_IN_PLY 1) 1 <> VALUE_MATE_IN_PLY.
Proof. split; [simpl; lia | vm_compute; discriminate]. Qed.

Lemma outputScore_small_witness : outputScore (-3) = "cp 0"%string.
Proof. apply (outputScore_small (H := engine_consts)). simpl. lia. Defined.

End ScoreWitnesses.

(** ** History heuristics *)

Lemma quot_16384_bounds (x : Z) :
  (0 <= x -> 16384 * (x ÷ 16384) <= x < 16384 * (x ÷ 16384) + 16384)
  /\ (x <= 0 -> 16384 * (x ÷ 16384) - 16384 < x <= 16384 * (x ÷ 16384)).
Proof.
  split; intros Hx.
  - rewrite Z.quot_div_nonneg by lia.
    pose proof (Z.div_mod x 16384 ltac:(lia)).
    pose proof (Z.mod_pos_bound x 16384 ltac:(lia)). lia.
  - replace x with (- (- x)) by lia. rewrite Z.quot_opp_l by lia.
    rewrite Z.quot_div_nonneg by lia.
    pose proof (Z.div_mod (- x) 16384 ltac:(lia)).
    pose proof (Z.mod_pos_bound (- x) 16384 ltac:(lia)). lia.
Qed.

(** One application of the gravity formula keeps an entry in range. *)
Lemma hhBonus_bound (h b : Z) :
  Z.abs h <= 16384 + 2000 -> Z.abs b <= 2000 ->
  Z.abs (h + (b - (h * Z.abs b) ÷ 16384)) <= 16384 + 2000.
Proof.
  intros Hh Hb.
  destruct (quot_16384_bounds (h * Z.abs b)) as [Hpos Hneg].
  set (q := (h * Z.abs b) ÷ 16384) in *.
  destruct (Z.le_gt_cases 0 h) as [Hh0|Hh0].
  - assert (H0 : 0 <= h * Z.abs b) by nia. specialize (Hpos H0). nia.
  - assert (H0 : h * Z.abs b <= 0) by nia. specialize (Hneg H0). nia.
Qed.

Lemma bonus_range (depth : Z) : 0 <= depth -> 0 <= bonus depth <= 2000.
Proof. unfold bonus. lia. Qed.

Section HistoryFacts.
Context `{Consts} `{Extern}.

#[local] Abbreviation St := (Search Board TranspositionTable).

Lemma zset_Forall {A} (P : A -> Prop) (l : list A) (i : Z) (x : A) :
  Forall P l -> (Z.to_nat i < length l)%nat -> (0 <= i -> P x) ->
  Forall P (zset l i x).
Proof.
  intros Hl Hi Hx. unfold zset. destruct (Z.ltb_spec i 0); [done|].
  apply Forall_insert; auto.
Qed.

Lemma zset_Forall_ge {A} (P : A -> Prop) (l : list A) (i : Z) (x : A) :
  Forall P l -> (length l <= Z.to_nat i)%nat -> Forall P (zset l i x).
Proof.
  intros Hl Hi. unfold zset. destruct (Z.ltb_spec i 0); [done|].
  by rewrite list_insert_ge.
Qed.

Lemma updateHistoryBonus_bounded (move : Move) (b : Z) (s : St) :
  Z.abs b <= 2000 ->
  history_bounded (history s) ->
  history_bounded (history (updateHistoryBonus move b s)).
Proof.
  intros Hb Hs. unfold updateHistoryBonus, getHistory, history_bounded. simpl.
  set (i := history_index _ _ _).
  destruct (Nat.lt_ge_cases (Z.to_nat i) (length (history s))) as [Hi|Hi].
  - apply zset_Forall; [done..|]. intros Hi0.
    apply hhBonus_bound; [|done].
    unfold zget. destruct (Z.ltb_spec i 0); [lia|].
    unfold history_bounded in Hs. rewrite Forall_lookup in Hs.
    destruct (lookup_lt_is_Some_2 _ _ Hi) as [x Hx].
    rewrite (list_lookup_total_correct _ _ _ Hx). eauto.
  - by apply zset_Forall_ge.
Qed.

Lemma updateHistory_bounded (bestmove : Move) (b depth : Z)
    (quiets : list Move) (quietCount : Z) (s : St) :
  Z.abs b <= 2000 ->
  history_bounded (history s) ->
  history_bounded (history (updateHistory bestmove b depth quiets quietCount s)).
Proof.
  intros Hb Hs. unfold updateHistory.
  set (s1 := if depth >? 1 then _ else _).
  assert (Hs1 : history_bounded (history s1)).
  { subst s1. case_match; [by apply updateHistoryBonus_bounded|done]. }
  clearbody s1. clear Hs. revert s1 Hs1.
  induction (zrange 0 quietCount) as [|i rest IH]; intros s1 Hs1; simpl; [done|].
  apply IH. case_match; [done|].
  apply updateHistoryBonus_bounded; [lia|done].
Qed.

(** C9: a call of [updateAllHistories] at a depth that is not negative
    keeps every entry of the butterfly table within [16384 + 2000]. *)
Theorem updateAllHistories_bounded (bestMove : Move) (best beta : Score)
    (depth : Z) (quiets : list Move) (quietCount : Z) (ss : Z) (s : St) :
  0 <= depth ->
  history_bounded (history s) ->
  history_bounded
    (history (updateAllHistories bestMove best beta depth quiets quietCount
                ss s)).
Proof.
  intros Hd Hs. unfold updateAllHistories.
  case_match; [done|]. case_match; [|done].
  apply updateHistory_bounded; [|done].
  pose proof (bonus_range depth Hd). lia.
Qed.

Lemma updateHistory_log (bestmove : Move) (b depth : Z)
    (quiets : list Move) (quietCount : Z) (s : St) :
  tt_log (updateHistory bestmove b depth quiets quietCount s) = tt_log s.
Proof.
  unfold updateHistory.
  set (s1 := if depth >? 1 then _ else _).
  assert (Hs1 : tt_log s1 = tt_log s) by (subst s1; by case_match).
  clearbody s1. rewrite <- Hs1. clear Hs1. revert s1.
  induction (zrange 0 quietCount) as [|i rest IH]; intros s1; simpl; [done|].
  rewrite IH. by case_match.
Qed.

Lemma updateAllHistories_log (bestMove : Move) (best beta : Score)
    (depth : Z) (quiets : list Move) (quietCount : Z) (ss : Z) (s : St) :
  tt_log (updateAllHistories bestMove best beta depth quiets quietCount ss s)
  = tt_log s.
Proof.
  unfold updateAllHistories. case_match; [done|]. case_match; [|done].
  by rewrite updateHistory_log.
Qed.

End HistoryFacts.

(** ** Limits *)

Section LimitFacts.
Context `{Consts} `{Extern}.

#[local] Abbreviation St := (Search Board TranspositionTable).

(** C8: a worker other than the main one stops exactly when the search
    is a normal one and the stop flag is seen set; it leaves [checkTime]
    alone and reads neither the node counter nor the clock.  The main
    worker, when not stopped that way, first compares the node counter,
    then decrements [checkTime]; when the counter is used up it is reset
    to 2047 and the clock is compared with [limit.time.maximum]. *)
Theorem limitReached_workers (cfg : Config) (s : St) :
  let seen := stopped s || external_stop (loads s) in
  (id cfg <> 0 ->
   exists s',
     limitReached cfg s = Some (Val (normalSearch cfg && seen), s')
     /\ checkTime s' = checkTime s
     /\ clock_reads s' = clock_reads s
     /\ nodes s' = nodes s
     /\ stopped s' = (if normalSearch cfg then seen else stopped s))
  /\ (id cfg = 0 -> normalSearch cfg && seen = false ->
      exists r s',
        limitReached cfg s = Some (Val r, s')
        /\ if negb (limit_nodes (limit cfg) =? 0)
              && (nodes s >=? limit_nodes (limit cfg))
           then r = true /\ checkTime s' = checkTime s
                /\ clock_reads s' = clock_reads s
           else if checkTime s - 1 >? 0
           then r = false /\ checkTime s' = checkTime s - 1
                /\ clock_reads s' = clock_reads s
           else checkTime s' = 2047
                /\ r = negb (maximum (limit_time (limit cfg)) =? 0)
                       && (clock (clock_reads s)
                           >=? maximum (limit_time (limit cfg)))
                /\ (r = true -> stopped s' = true)
                /\ clock_reads s'
                   = if maximum (limit_time (limit cfg)) =? 0
                     then clock_reads s else clock_reads s + 1).
Proof.
  intros seen.
  assert (Hid0 : id cfg = 0 -> (id cfg =? 0) = true) by lia.
  assert (Hid1 : id cfg <> 0 -> (id cfg =? 0) = false) by lia.
  split; intros Hid; [specialize (Hid1 Hid)|specialize (Hid0 Hid); intros Hseen];
    unfold limitReached, bind, load_stopped, getTime, gets, modify, ret;
    simpl; subst seen.
  - rewrite Hid1.
    destruct (normalSearch cfg); simpl;
      [destruct (stopped s || external_stop (loads s)); simpl|];
      eexists; (split; [reflexivity|]); simpl; auto.
  - rewrite Hid0.
    destruct (normalSearch cfg); simpl in *; [rewrite Hseen|]; simpl;
      (destruct (negb (limit_nodes (limit cfg) =? 0)
                 && (nodes s >=? limit_nodes (limit cfg))); simpl;
       [|destruct (checkTime s - 1 >? 0); simpl;
         [|destruct (maximum (limit_time (limit cfg)) =? 0); simpl;
           [|destruct (clock (clock_reads s)
                       >=? maximum (limit_time (limit cfg))); simpl]]]);
      do 2 eexists; (split; [reflexivity|]); simpl;
      repeat split; auto; discriminate.
Qed.

End LimitFacts.

(** ** Reasoning about function bodies *)

Section WpRules.
Context {S : Type}.

Lemma wp_bind {A B} (m : M (S:=S) A) (k : A -> M B) Q s :
  wp m (fun c s' =>
          match c with
          | Ret v => Q (Ret v) s'
          | Val a => wp (k a) Q s'
          end) s ->
  wp (bind m k) Q s.
Proof.
  unfold wp, bind. destruct (m s) as [[[v|a] s']|]; auto.
Qed.

Lemma wp_mono {A} (m : M (S:=S) A) (Q Q' : Ctl A -> S -> Prop) s :
  (forall c s', Q c s' -> Q' c s') -> wp m Q s -> wp m Q' s.
Proof.
  unfold wp. intros HQ. destruct (m s) as [[c s']|]; auto.
Qed.

Lemma wp_call (f : Fn (S:=S)) (R : Score -> S -> Prop) Q s :
  (forall v s', f s = Some (v, s') -> R v s') ->
  (forall v s', R v s' -> Q (Val v) s') ->
  wp (call f) Q s.
Proof.
  unfold wp, call. intros Hf HQ. destruct (f s) as [[v s']|]; auto.
Qed.

Lemma wp_fn (body : M (S:=S) Score) (R : Score -> S -> Prop) s v s' :
  wp body (fun c s' =>
             match c with Ret v => R v s' | Val v => R v s' end) s ->
  fn body s = Some (v, s') -> R v s'.
Proof.
  unfold wp, fn. destruct (body s) as [[[w|w] t]|]; intros Hw Heq;
    inversion Heq; subst; auto.
Qed.

End WpRules.

Section SinceFacts.
Context {Board TranspositionTable : Type}.
Variables (E : TTStore -> Prop) (L : list TTStore).

#[local] Abbreviation St := (Search Board TranspositionTable).

Lemma Since_refl (s : St) : Since E (tt_log s) s.
Proof. exists []. auto. Qed.

Lemma Since_same (s s' : St) :
  tt_log s' = tt_log s -> Since E L s -> Since E L s'.
Proof. intros Heq [evs [Hl HE]]. exists evs. by rewrite Heq. Qed.

Lemma Since_cons (s s' : St) (e : TTStore) :
  tt_log s' = e :: tt_log s -> E e -> Since E L s -> Since E L s'.
Proof.
  intros Heq He [evs [Hl HE]]. exists (e :: evs).
  rewrite Heq, Hl. split; [done|]. by constructor.
Qed.

End SinceFacts.

Section WpPrimitives.
Context {S : Type}.

Lemma wp_ret {A} (a : A) (Q : Ctl A -> S -> Prop) s :
  Q (Val a) s -> wp (ret a) Q s.
Proof. done. Qed.

Lemma wp_return {A} (v : Score) (Q : Ctl A -> S -> Prop) s :
  Q (Ret v) s -> wp (return_ v) Q s.
Proof. done. Qed.

Lemma wp_gets {A} (f : S -> A) (Q : Ctl A -> S -> Prop) s :
  Q (Val (f s)) s -> wp (gets f) Q s.
Proof. done. Qed.

Lemma wp_modify (f : S -> S) (Q : Ctl unit -> S -> Prop) s :
  Q (Val tt) (f s) -> wp (modify f) Q s.
Proof. done. Qed.

Lemma wp_out_of_fuel {A} (Q : Ctl A -> S -> Prop) s : wp out_of_fuel Q s.
Proof. done. Qed.

End WpPrimitives.

(** One step of symbolic execution of a function body. *)
Ltac wp_step :=
  lazymatch goal with
  | |- wp (bind _ _) _ _ => apply wp_bind
  | |- wp (ret _) _ _ => apply wp_ret
  | |- wp (return_ _) _ _ => apply wp_return
  | |- wp (gets _) _ _ => apply wp_gets
  | |- wp (modify _) _ _ => apply wp_modify
  | |- wp out_of_fuel _ _ => apply wp_out_of_fuel
  | |- wp (when ?c _) _ _ => unfold when
  | |- wp (set_frame _ _) _ _ => unfold set_frame
  | |- wp (print _) _ _ => unfold print
  | |- wp (if ?c then _ else _) _ _ => destruct c eqn:?
  | |- wp (match ?x with _ => _ end) _ _ => destruct x eqn:?
  | |- wp (let '(_, _) := ?x in _) _ _ => destruct x eqn:?
  end; cbv beta iota.

Section PrimitiveFrame.
Context `{Consts} `{Extern}.
Variable cfg : Config.

#[local] Abbreviation St := (Search Board TranspositionTable).

Lemma load_stopped_frame (s : St) :
  wp load_stopped
     (fun c s' => same_tables s s'
                  /\ exists b, c = Val b /\ stopped s' = b) s.
Proof. unfold wp, load_stopped, same_tables. simpl. eauto. Qed.

Lemma getTime_frame (s : St) :
  wp getTime
     (fun c s' => same_tables s s' /\ stopped s' = stopped s
                  /\ exists ms, c = Val ms) s.
Proof. unfold wp, getTime, same_tables. simpl. eauto. Qed.

(** A limit check that lets a normal search go on leaves the stop flag
    clear. *)
Lemma limitReached_frame (s : St) :
  wp (limitReached cfg)
     (fun c s' =>
        same_tables s s'
        /\ exists b, c = Val b
           /\ (b = false -> normalSearch cfg = true -> stopped s' = false)) s.
Proof.
  unfold limitReached, wp, bind, load_stopped, getTime, gets, modify, ret,
    same_tables.
  simpl.
  destruct (normalSearch cfg); simpl;
    [destruct (stopped s || external_stop (loads s)) eqn:Hseen; simpl|];
    try (destruct (negb (id cfg =? 0)); simpl;
         [|destruct (negb (limit_nodes (limit cfg) =? 0)
                     && (nodes s >=? limit_nodes (limit cfg))); simpl;
           [|destruct (checkTime s - 1 >? 0); simpl;
             [|destruct (negb (maximum (limit_time (limit cfg)) =? 0)); simpl;
               [destruct (clock (clock_reads s)
                          >=? maximum (limit_time (limit cfg))); simpl|]]]]);
    (split; [split; reflexivity|]); eexists; (split; [reflexivity|]);
    simpl; intros; congruence.
Qed.

End PrimitiveFrame.

(** *** Invariants of [qsearch]

    A property of the search object that only depends on the log of
    stores and on the butterfly table, and that survives the store at the
    end of [qsearch], holds after every run of [qsearch]. *)
Section QsearchInv.
Context `{Consts} `{Extern}.
Variable cfg : Config.

#[local] Abbreviation St := (Search Board TranspositionTable).

Variable Inv : St -> Prop.
Hypothesis Inv_same : forall s s', same_tables s s' -> Inv s -> Inv s'.
Hypothesis Inv_qstore :
  forall (s : St) score b key move,
    (normalSearch cfg = true -> stopped s = false) ->
    b = LOWERBOUND \/ b = UPPERBOUND ->
    Inv s ->
    Inv (logged_store 0 score b key move s).

Lemma qsearch_store_inv beta ss l (s : St) :
  Inv s ->
  wp (qsearch_store cfg beta ss l)
     (fun c s' => Inv s' /\ c = Val (q_bestValue l)) s.
Proof.
  intros HI. unfold qsearch_store. wp_step.
  assert (Hflag : forall v : Score,
            (if v >=? beta then LOWERBOUND else UPPERBOUND) = LOWERBOUND
            \/ (if v >=? beta then LOWERBOUND else UPPERBOUND) = UPPERBOUND)
    by (intros v; case_match; auto).
  destruct (normalSearch cfg) eqn:Hn; simpl.
  - wp_step. eapply wp_mono; [|apply load_stopped_frame].
    intros c s1 [Hsame [b [-> Hb]]].
    assert (H1 : Inv s1) by (by apply (Inv_same s)).
    wp_step. wp_step. wp_step.
    destruct b; simpl.
    + repeat wp_step. done.
    + unfold TTable_storeEntry. repeat wp_step. split; [|done].
      apply Inv_qstore; [done|apply Hflag|done].
  - unfold TTable_storeEntry. repeat wp_step. simpl. split; [|done].
    apply Inv_qstore; [congruence|apply Hflag|done].
Qed.

Section Moves.
Variable rec : Score -> Score -> Z -> Fn (S:=St).
Hypothesis rec_inv :
  forall a b ss s v s', Inv s -> rec a b ss s = Some (v, s') -> Inv s'.

Lemma qsearch_moves_inv n inCheck color beta ss :
  forall mp l (s : St),
    Inv s ->
    wp (qsearch_moves rec n inCheck color beta ss mp l) (fun _ s' => Inv s') s.
Proof.
  induction n as [|n IH]; intros mp l s HI; simpl; [done|].
  repeat wp_step; auto.
  eapply wp_call; [intros v s'; apply rec_inv; by apply (Inv_same s)|].
  simpl. intros v s' Hs'.
  repeat wp_step; try apply IH; by apply (Inv_same s').
Qed.

Lemma qsearch_body_inv n node alpha beta ss (s : St) :
  Inv s ->
  wp (qsearch_body cfg rec n node alpha beta ss) (fun _ s' => Inv s') s.
Proof.
  intros HI. unfold qsearch_body. wp_step.
  eapply wp_mono; [|apply (limitReached_frame cfg)].
  intros c s1 [Hsame [b [-> Hb]]].
  assert (H1 : Inv s1) by (by apply (Inv_same s)).
  repeat wp_step; auto.
  eapply wp_mono; [|by apply qsearch_moves_inv].
  intros c s2 Hs2. destruct c as [v|l]; [done|].
  eapply wp_mono; [|by apply qsearch_store_inv].
  by intros c s3 [Hs3 _].
Qed.

End Moves.

Lemma qsearch_inv fuel :
  forall node alpha beta ss (s : St) v s',
    Inv s ->
    qsearch cfg fuel node alpha beta ss s = Some (v, s') ->
    Inv s'.
Proof.
  induction fuel as [|fuel IH]; intros node alpha beta ss s v s' HI Hq;
    simpl in Hq; [done|].
  eapply (wp_fn _ (fun _ s' => Inv s')); [|exact Hq].
  eapply wp_mono; [|apply qsearch_body_inv; [|exact HI]].
  - by intros [w|w] t.
  - intros. eapply IH; eauto.
Qed.

End QsearchInv.

(** *** Invariants of [absearch]

    The same for [absearch], for properties that survive every store made
    while the stop flag of a normal search is clear and every update of
    the histories at a depth that is not negative. *)
Section AbsearchInv.
Context `{Consts} `{Extern}.
Variable cfg : Config.

#[local] Abbreviation St := (Search Board TranspositionTable).

Variable Inv : St -> Prop.
Hypothesis Inv_same : forall s s', same_tables s s' -> Inv s -> Inv s'.
Hypothesis Inv_store :
  forall (s : St) depth score b key move,
    (normalSearch cfg = true -> stopped s = false) ->
    Inv s ->
    Inv (logged_store depth score b key move s).
Hypothesis Inv_hist :
  forall (s : St) bestMove best beta depth quiets quietCount ss,
    0 <= depth ->
    Inv s ->
    Inv (updateAllHistories bestMove best beta depth quiets quietCount ss s).

Section Body.
Variable qrec : Node -> Score -> Score -> Z -> Fn (S:=St).
Variable arec : Node -> Z -> Score -> Score -> Z -> Fn (S:=St).
Hypothesis qrec_inv :
  forall node a b ss s v s',
    Inv s -> qrec node a b ss s = Some (v, s') -> Inv s'.
Hypothesis arec_inv :
  forall node d a b ss s v s',
    Inv s -> arec node d a b ss s = Some (v, s') -> Inv s'.

Lemma absearch_draws_frame node inCheck p alpha beta (s : St) :
  wp (absearch_draws node inCheck p alpha beta) (fun _ s' => s' = s) s.
Proof. unfold absearch_draws. repeat wp_step; reflexivity. Qed.

Lemma absearch_ttcut_frame node ex ttHit tte ttScore depth ss alpha beta
    (s : St) :
  wp (absearch_ttcut node ex ttHit tte ttScore depth ss alpha beta)
     (fun _ s' => s' = s) s.
Proof. unfold absearch_ttcut. repeat wp_step; reflexivity. Qed.

Lemma absearch_tb_inv node depth p alpha beta best maxValue (s : St) :
  Inv s -> (normalSearch cfg = true -> stopped s = false) ->
  wp (absearch_tb cfg node depth p alpha beta best maxValue)
     (fun _ s' => Inv s') s.
Proof.
  intros HI Hq. unfold absearch_tb, TTable_storeEntry.
  repeat wp_step; try (by apply (Inv_same s)).
  all: apply Inv_store; [exact Hq|by apply (Inv_same s)].
Qed.

Lemma absearch_early_inv node inCheck color ex ttHit tte depth alpha beta ss
    (s : St) :
  Inv s ->
  wp (absearch_early qrec arec node inCheck color ex ttHit tte depth alpha
        beta ss)
     (fun _ s' => Inv s') s.
Proof.
  intros HI. unfold absearch_early.
  repeat wp_step; try (by apply (Inv_same s)).
  - eapply wp_call; [intros v s'; apply qrec_inv; by apply (Inv_same s)|].
    simpl. intros v s' Hs'. by wp_step.
  - eapply wp_call; [intros v s'; apply qrec_inv; by apply (Inv_same s)|].
    simpl. intros v s' Hs'. by wp_step.
  - eapply wp_call; [intros v s'; apply arec_inv; by apply (Inv_same s)|].
    simpl. intros v s' Hs'.
    repeat wp_step; by apply (Inv_same s').
Qed.

(** The depth that reaches the move loop is positive. *)
Lemma absearch_early_depth node inCheck color ex ttHit tte depth alpha beta
    ss (s : St) :
  0 < depth ->
  wp (absearch_early qrec arec node inCheck color ex ttHit tte depth alpha
        beta ss)
     (fun c _ => forall d staticEval improving,
                   c = Val (d, staticEval, improving) -> 0 < d) s.
Proof.
  intros Hd. unfold absearch_early.
  repeat first
    [ wp_step
    | eapply wp_call; [intros ? ? _; exact I|]; simpl; intros ? ? _ ];
    try done;
    intros d se imp Heq; inversion Heq; subst; try lia;
    destruct ttHit; simpl in *; repeat case_match; lia.
Qed.

Lemma absearch_singular_inv node e move ss (s : St) :
  Inv s ->
  wp (absearch_singular arec node e move ss) (fun _ s' => Inv s') s.
Proof.
  intros HI. unfold absearch_singular.
  repeat wp_step; try (by apply (Inv_same s)).
  eapply wp_call; [intros v s'; apply arec_inv; by apply (Inv_same s)|].
  simpl. intros v s' Hs'.
  repeat wp_step; by apply (Inv_same s').
Qed.

Lemma absearch_child_inv node e l madeMoves newDepth ss (s : St) :
  Inv s ->
  wp (absearch_child cfg arec node e l madeMoves newDepth ss)
     (fun _ s' => Inv s') s.
Proof.
  intros HI. unfold absearch_child.
  assert (Hcall : forall (s : St) nd d a b (Q : Ctl Score -> St -> Prop),
            Inv s ->
            (forall v s', Inv s' -> Q (Val v) s') ->
            wp (call (arec nd d a b (ss + 1))) Q s).
  { intros s0 nd d a b Q H0' HQ.
    eapply wp_call; [intros v s'; by apply arec_inv|]. simpl. exact HQ. }
  repeat first
    [ wp_step
    | apply Hcall; [assumption|intros ? ? ?] ]; assumption.
Qed.

Lemma absearch_currmove_inv node e move madeMoves (s : St) :
  Inv s ->
  wp (absearch_currmove cfg node e move madeMoves) (fun _ s' => Inv s') s.
Proof.
  intros HI. unfold absearch_currmove. wp_step; [|by wp_step].
  wp_step. eapply wp_mono; [|apply load_stopped_frame].
  intros c s1 [Hsame [b [-> Hb]]].
  assert (H1 : Inv s1) by (by apply (Inv_same s)).
  destruct b; simpl; [by wp_step|].
  wp_step. eapply wp_mono; [|apply getTime_frame].
  intros c s2 [Hsame2 [_ [ms ->]]].
  assert (H2 : Inv s2) by (by apply (Inv_same s1)).
  repeat wp_step; [|done]. by apply (Inv_same s2).
Qed.

Lemma absearch_finish_inv node e ss l (s : St) :
  Inv s ->
  wp (absearch_finish cfg node e ss l) (fun _ s' => Inv s') s.
Proof.
  intros HI. unfold absearch_finish. wp_step. wp_step. wp_step.
  destruct (negb (ae_excludedMove e =? 0)); simpl.
  { repeat wp_step. done. }
  destruct (normalSearch cfg) eqn:Hn; simpl.
  - wp_step. eapply wp_mono; [|apply load_stopped_frame].
    intros c s1 [Hsame [b [-> Hb]]].
    assert (H1 : Inv s1) by (by apply (Inv_same s)).
    wp_step. wp_step.
    destruct b; simpl.
    + repeat wp_step. done.
    + unfold TTable_storeEntry. repeat wp_step. by apply Inv_store.
  - unfold TTable_storeEntry. repeat wp_step. simpl.
    apply Inv_store; [congruence|done].
Qed.

Lemma absearch_moves_inv n node e ss :
  0 <= ae_depth e ->
  forall mp l (s : St),
    Inv s ->
    wp (absearch_moves cfg arec n node e ss mp l) (fun _ s' => Inv s') s.
Proof.
  intros Hd.
  induction n as [|n IH]; intros mp l s HI; simpl; [done|].
  repeat wp_step; try assumption; try (by apply IH).
  eapply wp_mono; [|by apply absearch_singular_inv].
  intros [v|ext] s1 H1; [done|].
  repeat wp_step.
  eapply wp_mono; [|by apply absearch_currmove_inv].
  intros [v|[]] s2 H2; [done|].
  repeat wp_step.
  eapply wp_mono;
    [|apply absearch_child_inv; by apply (Inv_same s2)].
  intros [v|score] s3 H3; [done|].
  repeat wp_step; try apply IH; try (apply Inv_hist; [exact Hd|]);
    by apply (Inv_same s3).
Qed.

Lemma wp_conj {A} (m : M (S:=St) A) (Q1 Q2 : Ctl A -> St -> Prop) s :
  wp m Q1 s -> wp m Q2 s -> wp m (fun c s' => Q1 c s' /\ Q2 c s') s.
Proof. unfold wp. destruct (m s) as [[c s']|]; auto. Qed.

Lemma absearch_body_inv n node depth alpha beta ss (s : St) :
  Inv s ->
  wp (absearch_body cfg qrec arec n node depth alpha beta ss)
     (fun _ s' => Inv s') s.
Proof.
  intros HI. unfold absearch_body. wp_step.
  eapply wp_mono; [|apply (limitReached_frame cfg)].
  intros c s1 [Hsame [b [-> Hb]]].
  assert (H1 : Inv s1) by (by apply (Inv_same s)).
  destruct b; [by wp_step|]. specialize (Hb eq_refl).
  wp_step. wp_step. wp_step; [by wp_step|].
  wp_step. wp_step. wp_step.
  eapply wp_mono; [|apply absearch_draws_frame].
  intros [v|[alpha1 beta1]] s2 ->; [by apply (Inv_same s1)|].
  wp_step.
  { wp_step.
    eapply wp_call; [intros v s'; apply qrec_inv; by apply (Inv_same s1)|].
    simpl. intros v s3 H3. by wp_step. }
  wp_step. wp_step. wp_step. wp_step. wp_step. wp_step. wp_step. wp_step.
  wp_step. wp_step.
  eapply wp_mono; [|apply absearch_ttcut_frame].
  set (s2 := (if isPv node && _ then _ else _) : St).
  assert (H2 : Inv s2 /\ stopped s2 = stopped s1).
  { subst s2. case_match; split; try reflexivity; by apply (Inv_same s1). }
  clearbody s2. destruct H2 as [H2 Hst2].
  intros [v|[alpha2 beta2]] s3 ->; [done|].
  wp_step.
  eapply wp_mono; [|apply absearch_tb_inv; [exact H2|by rewrite Hst2]].
  intros [v|[[alpha3 best3] maxValue3]] s4 H4; [done|].
  wp_step.
  eapply wp_mono;
    [|apply wp_conj;
      [by apply absearch_early_inv
      |apply (absearch_early_depth node _ _ _ _ _
                (if isSquareAttacked (board s1) (opp (sideToMove (board s1)))
                      (KingSQ (board s1) (sideToMove (board s1)))
                 then depth + 1 else depth)); lia]].
  intros [v|[[depth4 staticEval4] improving4]] s5 [H5 Hd5]; [done|].
  specialize (Hd5 _ _ _ eq_refl).
  wp_step.
  eapply wp_mono; [|apply absearch_moves_inv; [simpl; lia|done]].
  intros [v|l] s6 H6; [done|].
  eapply wp_mono; [|by apply absearch_finish_inv].
  by intros c s7 H7.
Qed.

End Body.

Lemma absearch_inv fuel :
  forall node depth alpha beta ss (s : St) v s',
    Inv s ->
    absearch cfg fuel node depth alpha beta ss s = Some (v, s') ->
    Inv s'.
Proof.
  induction fuel as [|fuel IH]; intros node depth alpha beta ss s v s' HI Ha;
    simpl in Ha; [done|].
  eapply (wp_fn _ (fun _ s' => Inv s')); [|exact Ha].
  eapply wp_mono; [|apply absearch_body_inv; [| |exact HI]].
  - by intros [w|w] t.
  - intros nd a b ss0 s0 v0 s0' HI0 Hq.
    eapply (qsearch_inv cfg Inv); [exact Inv_same| |exact HI0|exact Hq].
    intros. by apply Inv_store.
  - intros. eapply IH; eauto.
Qed.

End AbsearchInv.

(** *** The two invariants *)

Section SearchLog.
Context `{Consts} `{Extern}.
Variables (cfg : Config) (E : TTStore -> Prop) (L : list TTStore).

#[local] Abbreviation St := (Search Board TranspositionTable).

Lemma Since_same_tables (s s' : St) :
  same_tables s s' -> Since E L s -> Since E L s'.
Proof. intros [Hlog _]. by apply Since_same. Qed.

Lemma Since_hist (s : St) bestMove best beta depth quiets quietCount ss :
  Since E L s ->
  Since E L
    (updateAllHistories bestMove best beta depth quiets quietCount ss s).
Proof. apply Since_same. apply updateAllHistories_log. Qed.

(** Every store that [qsearch] makes is accepted by [E], when [E] accepts
    depth-0 stores with a one-sided bound made while the stop flag of a
    normal search is clear. *)
Lemma qsearch_log fuel node alpha beta ss (s : St) v s' :
  (forall (s : St) score b key move,
     (normalSearch cfg = true -> stopped s = false) ->
     b = LOWERBOUND \/ b = UPPERBOUND ->
     E {| st_depth := 0; st_score := score; st_flag := b; st_key := key;
          st_move := move; st_stopped := stopped s |}) ->
  Since E L s ->
  qsearch cfg fuel node alpha beta ss s = Some (v, s') ->
  Since E L s'.
Proof.
  intros HE. apply (qsearch_inv cfg (Since E L)).
  - apply Since_same_tables.
  - intros s0 score b key move Hq Hb H0'.
    eapply Since_cons; [reflexivity| |exact H0']. by apply HE.
Qed.

(** Every store that [absearch] makes is accepted by [E], when [E]
    accepts the stores made while the stop flag of a normal search is
    clear. *)
Lemma absearch_log fuel node depth alpha beta ss (s : St) v s' :
  (forall (s : St) depth score b key move,
     (normalSearch cfg = true -> stopped s = false) ->
     E {| st_depth := depth; st_score := score; st_flag := b; st_key := key;
          st_move := move; st_stopped := stopped s |}) ->
  Since E L s ->
  absearch cfg fuel node depth alpha beta ss s = Some (v, s') ->
  Since E L s'.
Proof.
  intros HE. apply (absearch_inv cfg (Since E L)).
  - apply Since_same_tables.
  - intros s0 d score b key move Hq H0'.
    eapply Since_cons; [reflexivity| |exact H0']. by apply HE.
  - intros. by apply Since_hist.
Qed.

End SearchLog.

Section SearchHistory.
Context `{Consts} `{Extern}.
Variable cfg : Config.

#[local] Abbreviation St := (Search Board TranspositionTable).

(** A whole search keeps the butterfly table within its bound: each of
    its calls of [updateAllHistories] has a positive depth. *)
Lemma absearch_history_bounded fuel node depth alpha beta ss (s : St) v s' :
  history_bounded (history s) ->
  absearch cfg fuel node depth alpha beta ss s = Some (v, s') ->
  history_bounded (history s').
Proof.
  apply (absearch_inv cfg (fun s : St => history_bounded (history s))).
  - intros s0 s1 [_ Hh] H0'. by rewrite Hh.
  - intros s0 d score b key move _ H0'. exact H0'.
  - intros. by apply updateAllHistories_bounded.
Qed.

End SearchHistory.

(** ** Stores to the transposition table *)

Section StoreFacts.
Context `{Consts} `{Extern}.
Variable cfg : Config.

#[local] Abbreviation St := (Search Board TranspositionTable).

(** The end of [qsearch] always completes; it stores exactly when the
    search is data generation or the stop flag is seen clear. *)
Lemma qsearch_store_spec beta ss l (s : St) :
  exists s',
    qsearch_store cfg beta ss l s = Some (Val (q_bestValue l), s')
    /\ stack s' = stack s /\ board s' = board s
    /\ stopped s' = (if normalSearch cfg
                     then stopped s || external_stop (loads s)
                     else stopped s)
    /\ tt_log s'
       = if negb (normalSearch cfg) || negb (stopped s')
         then {| st_depth := 0;
                 st_score := scoreToTT (q_bestValue l) (ply (frame s ss));
                 st_flag := if q_bestValue l >=? beta then LOWERBOUND
                            else UPPERBOUND;
                 st_key := hashKey (board s);
                 st_move := q_bestMove l;
                 st_stopped := stopped s' |} :: tt_log s
         else tt_log s.
Proof.
  unfold qsearch_store, bind, load_stopped, gets, when, TTable_storeEntry,
    modify, ret.
  destruct (normalSearch cfg); simpl;
    [destruct (stopped s || external_stop (loads s)); simpl|];
    eexists; (split; [reflexivity|]); simpl; auto.
Qed.

(** The end of [absearch] always completes with [absearch_value]; it
    stores exactly when no move is excluded and the search is data
    generation or the stop flag is seen clear. *)
Lemma absearch_finish_spec node e ss l (s : St) :
  let p := ply (frame s ss) in
  let best := absearch_value node e p l in
  exists s',
    absearch_finish cfg node e ss l s = Some (Val best, s')
    /\ stopped s' = (if (ae_excludedMove e =? 0) && normalSearch cfg
                     then stopped s || external_stop (loads s)
                     else stopped s)
    /\ tt_log s'
       = if (ae_excludedMove e =? 0)
            && (negb (normalSearch cfg) || negb (stopped s'))
         then {| st_depth := ae_depth e;
                 st_score := scoreToTT best p;
                 st_flag :=
                   if best >=? ae_beta e then LOWERBOUND
                   else if isPv node && negb (a_bestMove l =? NO_MOVE)
                        then EXACTBOUND else UPPERBOUND;
                 st_key := hashKey (board s);
                 st_move := a_bestMove l;
                 st_stopped := stopped s' |} :: tt_log s
         else tt_log s.
Proof.
  intros p best.
  unfold absearch_finish, bind, load_stopped, gets, when, TTable_storeEntry,
    modify, ret. fold p. fold best.
  destruct (ae_excludedMove e =? 0); simpl;
    [destruct (normalSearch cfg); simpl;
     [destruct (stopped s || external_stop (loads s)); simpl|]|];
    eexists; (split; [reflexivity|]); simpl; auto.
Qed.

(** The move loop of [qsearch] never leaves the function by itself. *)
Lemma qsearch_moves_val rec n inCheck color beta ss :
  forall mp l (s : St),
    wp (qsearch_moves rec n inCheck color beta ss mp l)
       (fun c _ => exists l', c = Val l') s.
Proof.
  induction n as [|n IH]; intros mp l s; simpl; [done|].
  repeat wp_step; eauto.
  eapply wp_call; [intros v s' _; exact I|]. simpl. intros v s' _.
  repeat wp_step; eauto.
Qed.

End StoreFacts.

Section StoreClaims.
Context `{Consts} `{Extern}.
Variable cfg : Config.

#[local] Abbreviation St := (Search Board TranspositionTable).

(** C2: every entry stored while a call of [qsearch] runs (by the call
    itself or by the calls below it) has depth 0 and bound LOWER or UPPER,
    never EXACT.  When the call gets past the limit check and the early
    returns and its store is not held back by the stop flag, the newest
    entry is its own: depth 0, the returned value rebased to the ply, and
    LOWER if the returned value is at least beta, UPPER otherwise. *)
Theorem qsearch_stores fuel node alpha beta ss (s : St) r s' :
  qsearch cfg fuel node alpha beta ss s = Some (r, s') ->
  Since qsearch_entry_shape (tt_log s) s'
  /\ forall s1 e,
       limitReached cfg s = Some (Val false, s1) ->
       qsearch_entry node alpha beta ss s1 = inr e ->
       negb (normalSearch cfg) || negb (stopped s') = true ->
       exists move rest,
         tt_log s'
         = {| st_depth := 0;
              st_score := scoreToTT r (ply (frame s' ss));
              st_flag := if r >=? beta then LOWERBOUND else UPPERBOUND;
              st_key := hashKey (board s');
              st_move := move;
              st_stopped := stopped s' |} :: rest.
Proof.
  intros Hq. split.
  - eapply (qsearch_log cfg qsearch_entry_shape); [|apply Since_refl|exact Hq].
    intros. split; auto.
  - intros s1 e Hlr He Hguard. destruct fuel as [|fuel]; [done|].
    simpl in Hq. unfold fn, qsearch_body in Hq.
    unfold bind at 1 in Hq. rewrite Hlr in Hq.
    unfold bind at 1, gets at 1 in Hq. rewrite He in Hq.
    unfold bind at 1 in Hq.
    pose proof (qsearch_moves_val (qsearch cfg fuel node) fuel (qe_inCheck e)
                  (qe_color e) beta ss (qe_mp e) (qe_loop e) s1) as Hval.
    unfold wp in Hval.
    destruct (qsearch_moves _ _ _ _ _ _ _ _ s1) as [[c s2]|]; [|done].
    destruct Hval as [l' ->].
    destruct (qsearch_store_spec cfg beta ss l' s2)
      as [s3 (Hst & Hstack & Hboard & _ & Hlog)].
    rewrite Hst in Hq. inversion Hq; subst r s3.
    rewrite Hguard in Hlog. rewrite Hlog.
    unfold frame. rewrite Hstack, Hboard. eauto.
Qed.

(** C3: in every run of [qsearch] and of [absearch], each store to the
    transposition table is made while the stop flag of a normal search,
    as the worker last loaded it, is clear.  At the end of either
    function a normal search that sees the flag set skips the store; data
    generation stores whatever the flag is, [absearch] only when no move
    is excluded. *)
Theorem stores_respect_stop_flag fuel :
  (forall node alpha beta ss (s : St) r s',
     qsearch cfg fuel node alpha beta ss s = Some (r, s') ->
     Since (store_respects_stop cfg) (tt_log s) s')
  /\ (forall node depth alpha beta ss (s : St) r s',
        absearch cfg fuel node depth alpha beta ss s = Some (r, s') ->
        Since (store_respects_stop cfg) (tt_log s) s')
  /\ (forall beta ss l (s : St),
        exists v s',
          qsearch_store cfg beta ss l s = Some (Val v, s')
          /\ (normalSearch cfg = true ->
              stopped s || external_stop (loads s) = true ->
              tt_log s' = tt_log s)
          /\ (normalSearch cfg = false ->
              exists ev, tt_log s' = ev :: tt_log s))
  /\ (forall node e ss l (s : St),
        exists v s',
          absearch_finish cfg node e ss l s = Some (Val v, s')
          /\ (normalSearch cfg = true ->
              stopped s || external_stop (loads s) = true ->
              tt_log s' = tt_log s)
          /\ (normalSearch cfg = false ->
              if ae_excludedMove e =? 0
              then exists ev, tt_log s' = ev :: tt_log s
              else tt_log s' = tt_log s)).
Proof.
  assert (HE : forall (s : St) depth score b key move,
            (normalSearch cfg = true -> stopped s = false) ->
            store_respects_stop cfg
              {| st_depth := depth; st_score := score; st_flag := b;
                 st_key := key; st_move := move; st_stopped := stopped s |})
    by (intros; assumption).
  repeat split.
  - intros. eapply (qsearch_log cfg (store_respects_stop cfg));
      [intros; by apply HE|apply Since_refl|eauto].
  - intros. eapply (absearch_log cfg (store_respects_stop cfg));
      [exact HE|apply Since_refl|eauto].
  - intros beta ss l s.
    destruct (qsearch_store_spec cfg beta ss l s)
      as [s' (Hst & _ & _ & Hstop & Hlog)].
    exists (q_bestValue l), s'. split; [done|]. split.
    + intros Hn Hseen. rewrite Hlog, Hstop, Hn, Hseen. reflexivity.
    + intros Hn. rewrite Hlog, Hn. simpl. eauto.
  - intros node e ss l s.
    destruct (absearch_finish_spec cfg node e ss l s)
      as [s' (Hst & Hstop & Hlog)].
    eexists _, s'. split; [exact Hst|]. split.
    + intros Hn Hseen. rewrite Hlog, Hstop, Hn.
      destruct (ae_excludedMove e =? 0); simpl; [|done].
      by rewrite Hseen.
    + intros Hn. rewrite Hlog, Hn.
      destruct (ae_excludedMove e =? 0); simpl; eauto.
Qed.

(** C5, as amended: in the move loop of [qsearch] a move is skipped by
    delta pruning (the loop goes on with the next move on the same search
    object and the same locals) when [bestValue] is above
    [VALUE_TB_LOSS_IN_MAX_PLY], the destination square holds a piece, the
    side to move is not in check, the move is no promotion, the side has
    non-pawn material, and
    [bestValue + 400 + piece_values[EG][captured] < alpha]. *)
Theorem qsearch_delta_prune rec n inCheck color beta ss mp l (s : St)
    move mp' :
  nextMove mp s = (move, mp') ->
  move <> NO_MOVE ->
  let captured := type_of_piece (pieceAtB (board s) (to move)) in
  q_bestValue l > VALUE_TB_LOSS_IN_MAX_PLY ->
  captured <> NONETYPE ->
  inCheck = false ->
  promoted move = false ->
  nonPawnMat (board s) color = true ->
  q_bestValue l + 400 + piece_values_EG captured < q_alpha l ->
  qsearch_prune (q_bestValue l) (q_alpha l) captured inCheck
    (promoted move) (nonPawnMat (board s) color) (see (board s) move 0)
  = DeltaPruned
  /\ qsearch_moves rec (Datatypes.S n) inCheck color beta ss mp l s
     = qsearch_moves rec n inCheck color beta ss mp' l s.
Proof.
  intros Hnext Hmove captured Hbest Hcap Hchk Hpromo Hmat Hdelta.
  assert (Hp : qsearch_prune (q_bestValue l) (q_alpha l) captured inCheck
                 (promoted move) (nonPawnMat (board s) color)
                 (see (board s) move 0) = DeltaPruned).
  { unfold qsearch_prune. rewrite Hchk, Hpromo, Hmat.
    destruct (Z.gtb_spec (q_bestValue l) VALUE_TB_LOSS_IN_MAX_PLY); [|lia].
    destruct (Z.eqb_spec captured NONETYPE); [done|].
    destruct (Z.ltb_spec (q_bestValue l + 400 + piece_values_EG captured)
                (q_alpha l)); [|lia].
    reflexivity. }
  split; [exact Hp|].
  simpl. unfold bind at 1, gets at 1. rewrite Hnext.
  destruct (Z.eqb_spec move NO_MOVE); [done|].
  fold captured. rewrite Hp. reflexivity.
Qed.

End StoreClaims.

(** ** Aspiration windows *)

Section AspirationFacts.
Context `{Consts} `{Extern}.
Variable cfg : Config.

#[local] Abbreviation St := (Search Board TranspositionTable).

Lemma infinite_above_3500 : 3500 < VALUE_INFINITE.
Proof.
  pose proof mate_layout as [Hm _]. pose proof tb_layout as [_ Ht].
  pose proof inf_layout. pose proof max_ply_layout. lia.
Qed.

(** Clamping at the infinite bounds is invisible after slackening: the
    next search sees the window of the specification. *)
Lemma window_next_refines (w : Window) (r : Score) :
  option_map window_slack (window_next w r)
  = option_map window_slack (window_next_spec w r).
Proof.
  pose proof infinite_above_3500.
  unfold window_next, window_next_spec.
  destruct (r <=? w_alpha w); [|destruct (r >=? w_beta w)]; simpl;
    [| |done]; unfold window_slack; simpl; f_equal; f_equal;
    repeat case_match; lia.
Qed.

(** A failed search strictly decreases the measure. *)
Lemma window_next_measure (w0 w w' : Window) (r : Score) :
  asp_inv w0 w ->
  - VALUE_INFINITE < r < VALUE_INFINITE ->
  window_next (window_slack w) r = Some w' ->
  asp_inv w0 w' /\ asp_measure w0 w' < asp_measure w0 w.
Proof.
  pose proof infinite_above_3500 as Hinf.
  intros (Ha & Hb & Hd) Hr Hnext.
  unfold window_next, window_slack in Hnext. simpl in Hnext.
  unfold asp_inv, asp_measure, asp_threshold, b2z in *.
  destruct w as [a b d]. destruct w0 as [a0 b0 d0]. simpl in *.
  assert (Hq : d + 15 <= d + d ÷ 2)
    by (Z.to_euclidean_division_equations; lia).
  repeat match type of Hnext with
         | context [if ?c then _ else _] => destruct c eqn:?
         end;
    inversion Hnext; subst w'; clear Hnext; simpl;
    repeat match goal with
           | |- context [(?x + ?y) ÷ 2] =>
             let Hm := fresh "Hm" in
             assert (Hm : Z.min x y <= (x + y) ÷ 2)
               by (Z.to_euclidean_division_equations; lia);
             generalize dependent ((x + y) ÷ 2); intros
           end;
    generalize dependent (d ÷ 2); intros;
    repeat case_match; lia.
Qed.

Lemma asp_measure_nonneg (w0 w : Window) : 0 <= asp_measure w0 w.
Proof. unfold asp_measure, b2z. repeat case_match; lia. Qed.

Lemma window_next_inside (w : Window) (r : Score) :
  window_next w r = None <-> w_alpha w < r < w_beta w.
Proof.
  unfold window_next.
  destruct (Z.leb_spec r (w_alpha w)); [split; [done|lia]|].
  destruct (Z.geb_spec r (w_beta w)); [split; [done|lia]|].
  split; [lia|done].
Qed.

Section Loop.
Variable root : Z -> Score -> Score -> Z -> Fn (S:=St).
Variables (depth ss : Z).

(** One iteration of the loop, by the outcome of its search. *)
Lemma aspiration_loop_step (n : nat) (w : Window) (s : St) :
  aspiration_loop cfg root (Datatypes.S n) depth ss w s
  = match root depth (w_alpha (window_slack w)) (w_beta (window_slack w))
            ss s with
    | None => None
    | Some (r, s1) =>
      if search_aborted cfg s1 then Some (Ret 0, stop_loaded s1)
      else match window_next (window_slack w) r with
           | Some w' =>
             aspiration_loop cfg root n depth ss w' (stop_loaded s1)
           | None => Some (Val r, stop_loaded s1)
           end
    end.
Proof.
  cbn [aspiration_loop]. cbv zeta. unfold bind at 1, call.
  destruct (root depth _ _ ss s) as [[r s1]|]; [|done].
  unfold bind at 1, load_stopped, search_aborted, stop_loaded.
  destruct (stopped s1 || external_stop (loads s1)) eqn:Hseen;
    [reflexivity|].
  unfold bind at 1, gets. simpl.
  destruct ((id cfg =? 0) && negb (limit_nodes (limit cfg) =? 0)
            && (nodes s1 >=? limit_nodes (limit cfg))) eqn:Hnodes;
    [reflexivity|].
  destruct (window_next (window_slack w) r); reflexivity.
Qed.

(** Whatever the loop returns is the outcome of a run. *)
Lemma aspiration_loop_run :
  forall n w (s : St) c s',
    aspiration_loop cfg root n depth ss w s = Some (c, s') ->
    exists rs,
      (length rs <= n)%nat
      /\ match c with
         | Val v => asp_run cfg root depth ss w s rs true v s'
         | Ret v => v = 0 /\ asp_run cfg root depth ss w s rs false 0 s'
         end.
Proof.
  induction n as [|n IH]; intros w s c s' Hrun; [done|].
  rewrite aspiration_loop_step in Hrun.
  destruct (root depth _ _ ss s) as [[r s1]|] eqn:Hroot; [|done].
  destruct (search_aborted cfg s1) eqn:Habort.
  { inversion Hrun; subst. exists [r]. split; [simpl; lia|].
    split; [done|]. by apply asp_run_abort. }
  destruct (window_next (window_slack w) r) as [w'|] eqn:Hnext.
  - destruct (IH _ _ _ _ Hrun) as (rs & Hlen & Hrs).
    exists (r :: rs). split; [simpl; lia|].
    destruct c; [destruct Hrs; split; [done|]|];
      eapply asp_run_retry; eauto.
  - inversion Hrun; subst. exists [r]. split; [simpl; lia|].
    apply asp_run_inside; [done..|]. by apply window_next_inside.
Qed.

(** With more fuel than the measure of its window, the loop is only left
    without a result by a search of the root. *)
Lemma aspiration_loop_stuck (w0 : Window) :
  forall n w (s : St),
    asp_inv w0 w ->
    asp_measure w0 w < Z.of_nat n ->
    aspiration_loop cfg root n depth ss w s = None ->
    asp_stuck cfg root depth ss w s.
Proof.
  induction n as [|n IH]; intros w s Hinv Hlt Hrun.
  { pose proof (asp_measure_nonneg w0 w). lia. }
  rewrite aspiration_loop_step in Hrun.
  destruct (root depth _ _ ss s) as [[r s1]|] eqn:Hroot;
    [|by apply asp_stuck_root].
  destruct (search_aborted cfg s1) eqn:Habort; [done|].
  destruct (window_next (window_slack w) r) as [w'|] eqn:Hnext; [|done].
  destruct (decide (- VALUE_INFINITE < r < VALUE_INFINITE)) as [Hr|Hr];
    [|by eapply asp_stuck_range].
  destruct (window_next_measure w0 w w' r Hinv Hr Hnext) as [Hinv' Hlt'].
  eapply asp_stuck_retry; eauto. apply IH; [done|lia|done].
Qed.

(** A run whose failed searches returned values between the infinite
    bounds is no longer than the measure allows. *)
Lemma asp_run_length (w0 : Window) :
  forall w (s : St) rs done v s',
    asp_run cfg root depth ss w s rs done v s' ->
    asp_inv w0 w ->
    Forall (fun r => - VALUE_INFINITE < r < VALUE_INFINITE)
      (asp_retried rs) ->
    Z.of_nat (length rs) <= asp_measure w0 w + 1.
Proof.
  intros w s rs done v s' Hrun.
  induction Hrun as [w s s1 r Hroot Habort|w s s1 r Hroot Habort Hin
                    |w w' s s1 s' r v rs done Hroot Habort Hnext Hrun IH];
    intros Hinv Hall.
  - pose proof (asp_measure_nonneg w0 w). simpl. lia.
  - pose proof (asp_measure_nonneg w0 w). simpl. lia.
  - assert (Hne : rs <> []) by (inversion Hrun; done).
    unfold asp_retried in *.
    destruct rs as [|r' rs]; [done|].
    change (removelast (r :: r' :: rs)) with (r :: removelast (r' :: rs))
      in Hall.
    apply Forall_cons in Hall as [Hr Hall].
    destruct (window_next_measure w0 w w' r Hinv Hr Hnext) as [Hinv' Hlt'].
    specialize (IH Hinv' Hall). simpl length in *. lia.
Qed.

End Loop.

Lemma aspiration_window_inv (depth : Z) (prevEval : Score) :
  asp_inv (aspiration_window depth prevEval) (aspiration_window depth prevEval).
Proof. unfold asp_inv, aspiration_window. case_match; simpl; lia. Qed.

(** C7: the aspiration loop comes to an end for every depth and previous
    evaluation.  With more fuel than the measure of the first window,
    [aspirationSearch] is left without a result only by a search of the
    root that yields none, or that fails low or high with a value outside
    the infinite bounds without being aborted ([asp_stuck]).  Otherwise it
    returns the outcome of a run of the loop ([asp_run]): the windows
    searched are those of the rule "bounds beyond 3500 become infinite;
    fail-low: beta = (alpha+beta)/2, alpha = alpha - delta, delta +=
    delta/2; fail-high: beta += delta, delta += delta/2"; the run ends
    with the first result strictly inside its window, which is the value
    returned, after which the main thread of a normal search prints its
    line, or with an aborted search, for which 0 is returned; and a run
    whose failed searches returned values strictly between the infinite
    bounds makes at most [asp_measure + 1] searches. *)
Theorem aspiration_terminates (root : Z -> Score -> Score -> Z -> Fn (S:=St))
    (n : nat) (depth : Z) (prevEval : Score) (ss : Z) (s : St) :
  let w0 := aspiration_window depth prevEval in
  asp_measure w0 w0 < Z.of_nat n ->
  (forall w r,
     option_map window_slack (window_next w r)
     = option_map window_slack (window_next_spec w r))
  /\ (forall w r,
        window_next w r = None <-> w_alpha w < r < w_beta w)
  /\ match aspirationSearch_with cfg root n depth prevEval ss s with
     | Some (v, s') =>
       exists rs done s1,
         asp_run cfg root depth ss w0 s rs done v s1
         /\ s' = (if done && ((id cfg =? 0) && normalSearch cfg)
                  then asp_report depth v s1 else s1)
     | None => asp_stuck cfg root depth ss w0 s
     end
  /\ (forall rs done v s1,
        asp_run cfg root depth ss w0 s rs done v s1 ->
        Forall (fun r => - VALUE_INFINITE < r < VALUE_INFINITE)
          (asp_retried rs) ->
        Z.of_nat (length rs) <= asp_measure w0 w0 + 1).
Proof.
  intros w0 Hn. split; [apply window_next_refines|].
  split; [apply window_next_inside|].
  pose proof (aspiration_window_inv depth prevEval) as Hinv. fold w0 in Hinv.
  split; [|intros rs done v s1 Hrun; by eapply asp_run_length].
  unfold aspirationSearch_with, fn. fold w0. unfold bind at 1.
  destruct (aspiration_loop cfg root n depth ss w0 s) as [[c s1]|] eqn:Hloop;
    [|by eapply aspiration_loop_stuck].
  destruct (aspiration_loop_run root depth ss n w0 s c s1 Hloop)
    as (rs & _ & Hrs).
  destruct c as [v|v].
  { destruct Hrs as [-> Hrs]. by exists rs, false, s1. }
  unfold bind, when, getTime, gets, print, modify, ret.
  destruct ((id cfg =? 0) && normalSearch cfg); simpl;
    exists rs, true, s1; (split; [done|]); simpl; reflexivity.
Qed.

End AspirationFacts.

(** *** The loop in 32-bit arithmetic *)

Section AspirationRange.
Context `{Consts}.

Lemma window_next_range (w0 w w' : Window) (r : Score) :
  asp_range w0 w ->
  - VALUE_INFINITE < r < VALUE_INFINITE ->
  window_next (window_slack w) r = Some w' ->
  asp_range w0 w'.
Proof.
  pose proof infinite_above_3500 as Hinf.
  intros ((Ha & Hb & Hd) & Hlo & Hhi & Hg) Hr Hnext.
  unfold window_next, window_slack in Hnext. simpl in Hnext.
  unfold asp_range, asp_inv, asp_growth, asp_closed, asp_threshold, b2z in *.
  destruct w as [a b d]. destruct w0 as [a0 b0 d0]. simpl in *.
  assert (Hq : d + 15 <= d + d ÷ 2 /\ 2 * (d ÷ 2) <= d)
    by (Z.to_euclidean_division_equations; lia).
  repeat match type of Hnext with
         | context [if ?c then _ else _] => destruct c eqn:?
         end;
    inversion Hnext; subst w'; clear Hnext; simpl;
    repeat match goal with
           | |- context [(?x + ?y) ÷ 2] =>
             let Hm := fresh "Hm" in
             assert (Hm : Z.min x y <= (x + y) ÷ 2 <= Z.max x y)
               by (Z.to_euclidean_division_equations; lia);
             generalize dependent ((x + y) ÷ 2); intros
           end;
    generalize dependent (d ÷ 2); intros;
    repeat case_match; lia.
Qed.

Lemma asp_reach_range (w0 w : Window) :
  asp_range w0 w0 -> asp_reach w0 w -> asp_range w0 w.
Proof.
  intros H0' Hreach. induction Hreach; [done|].
  eapply window_next_range; eauto.
Qed.

(** X23: with a previous evaluation in the score range and infinite
    bounds below [2^24], every integer that an iteration of the
    aspiration loop computes fits 32 bits. *)
Lemma aspiration_fits_int32 (depth : Z) (prevEval : Score) (w : Window) :
  VALUE_INFINITE <= 2^24 ->
  - VALUE_INFINITE <= prevEval <= VALUE_INFINITE ->
  asp_reach (aspiration_window depth prevEval) w ->
  let ws := window_slack w in
  fits_int32 (w_alpha ws - w_delta ws)
  /\ fits_int32 (w_alpha ws + w_beta ws)
  /\ fits_int32 (w_beta ws + w_delta ws)
  /\ fits_int32 (w_delta ws + w_delta ws ÷ 2).
Proof.
  pose proof infinite_above_3500 as Hinf.
  intros Hbig Hprev Hreach.
  set (w0 := aspiration_window depth prevEval) in *.
  assert (H0' : asp_range w0 w0).
  { subst w0. unfold asp_range, asp_inv, asp_threshold, aspiration_window.
    case_match; simpl; lia. }
  destruct (asp_reach_range w0 w H0' Hreach)
    as ((Ha & Hb & Hd) & Hlo & Hhi & Hg).
  assert (HK : asp_threshold w0 <= VALUE_INFINITE + 3501).
  { subst w0. unfold asp_threshold, aspiration_window.
    case_match; simpl; lia. }
  assert (Hdelta : 16 * w_delta w <= 81 * (VALUE_INFINITE + 3501)).
  { destruct Hg as [Hg|Hg]; [lia|].
    unfold asp_growth in Hg. repeat case_match; nia. }
  assert (Hq : 0 <= w_delta w ÷ 2 <= w_delta w)
    by (Z.to_euclidean_division_equations; lia).
  unfold fits_int32, window_slack. simpl.
  change (2^24) with 16777216 in Hbig.
  change (2^31) with 2147483648.
  repeat case_match; lia.
Qed.

End AspirationRange.

(** ** The search stack *)

Section ArrayFacts.
Context {A : Type} `{Inhabited A}.

Lemma zget_zset_eq (l : list A) (i : Z) (x : A) :
  0 <= i -> (Z.to_nat i < length l)%nat -> zget (zset l i x) i = x.
Proof.
  intros Hi Hlen. unfold zget, zset.
  destruct (Z.ltb_spec i 0); [lia|].
  apply list_lookup_total_correct. by apply list_lookup_insert_eq.
Qed.

Lemma zget_zset_ne (l : list A) (i j : Z) (x : A) :
  i <> j -> zget (zset l i x) j = zget l j.
Proof.
  intros Hij. unfold zget, zset.
  destruct (Z.ltb_spec j 0); [done|].
  destruct (Z.ltb_spec i 0); [done|].
  rewrite !list_lookup_total_alt.
  rewrite list_lookup_insert_ne by lia. done.
Qed.

Lemma length_zset (l : list A) (i : Z) (x : A) :
  length (zset l i x) = length l.
Proof. unfold zset. case_match; [done|]. apply length_insert. Qed.

End ArrayFacts.

Lemma elem_of_zrange (lo hi i : Z) : i ∈ zrange lo hi <-> lo <= i < hi.
Proof.
  unfold zrange. rewrite list_elem_of_fmap. split.
  - intros (k & -> & Hk). apply elem_of_seq in Hk. lia.
  - intros Hi. exists (Z.to_nat (i - lo)). split; [lia|].
    apply elem_of_seq. lia.
Qed.

Section StackFacts.
Context `{Consts} `{Extern}.

#[local] Abbreviation St := (Search Board TranspositionTable).

Lemma init_frame_length (i : Z) (s : St) :
  length (stack (init_frame i s)) = length (stack s).
Proof. unfold init_frame. simpl. by rewrite !length_zset. Qed.

Lemma init_frame_same (i : Z) (s : St) :
  0 <= stack_base + i ->
  (Z.to_nat (stack_base + i) < length (stack s))%nat ->
  frame (init_frame i s) (stack_base + i) = fresh_frame i.
Proof.
  intros Hi Hlen. unfold init_frame, frame. simpl.
  rewrite !zget_zset_eq; rewrite ?length_zset; try done.
Qed.

Lemma init_frame_other (i j : Z) (s : St) :
  j <> stack_base + i -> frame (init_frame i s) j = frame s j.
Proof.
  intros Hj. unfold init_frame, frame. simpl.
  by rewrite !zget_zset_ne.
Qed.

Lemma init_frames (idx : list Z) :
  forall (s : St) (j : Z),
    (forall i, i ∈ idx ->
       0 <= stack_base + i
       /\ (Z.to_nat (stack_base + i) < length (stack s))%nat) ->
    frame (fold_left (fun acc i => init_frame i acc) idx s) j
    = if bool_decide (j - stack_base ∈ idx)
      then fresh_frame (j - stack_base)
      else frame s j.
Proof.
  induction idx as [|i idx IH]; intros s j Hidx; cbn [fold_left].
  { case_bool_decide as Hin; [|done]. by apply not_elem_of_nil in Hin. }
  rewrite IH.
  2:{ intros k Hk. rewrite init_frame_length. apply Hidx. by right. }
  repeat case_bool_decide; try done.
  - exfalso. apply H2. by right.
  - apply elem_of_cons in H2 as [Heq|Hin]; [|done].
    rewrite Heq. replace j with (stack_base + i) by lia.
    apply init_frame_same; apply Hidx; by left.
  - apply init_frame_other. intros ->. apply H2.
    apply elem_of_cons. left. lia.
Qed.

(** After the loop every frame from [ss - 2] to [ss + MAX_PLY + 1] holds
    its ply, no move, and the evaluation 0. *)
Lemma init_stack_frame (s : St) (i : Z) :
  length (stack s) = Z.to_nat (MAX_PLY + 4) ->
  -2 <= i <= MAX_PLY + 1 ->
  frame (init_stack s) (stack_base + i) = fresh_frame i.
Proof.
  intros Hlen Hi. pose proof max_ply_layout. unfold init_stack.
  rewrite init_frames.
  - replace (stack_base + i - stack_base) with i by lia.
    rewrite bool_decide_eq_true_2; [done|]. apply elem_of_zrange. lia.
  - intros k Hk. apply elem_of_zrange in Hk. unfold stack_base. lia.
Qed.

(** What [absearch] hands to its move loop as [improving]: false in
    check, otherwise the comparison of the static evaluation with the
    evaluation stored two frames up. *)
Lemma absearch_early_improving qrec arec node inCheck color ex ttHit tte
    depth alpha beta ss (s : St) :
  wp (absearch_early qrec arec node inCheck color ex ttHit tte depth alpha
        beta ss)
     (fun c _ =>
        forall d staticEval improving,
          c = Val (d, staticEval, improving) ->
          improving
          = if inCheck then false
            else improving_of staticEval (eval (frame s (ss - 2)))) s.
Proof.
  unfold absearch_early.
  assert (Hprev : forall f,
            eval (frame (set_stack (zset (stack s) ss f) s) (ss - 2))
            = eval (frame s (ss - 2))).
  { intros f. unfold frame. simpl. rewrite zget_zset_ne by lia. done. }
  repeat first
    [ wp_step
    | eapply wp_call; [intros ? ? _; exact I|]; simpl; intros ? ? _ ];
    try done;
    intros d se imp Heq; inversion Heq; subst; by rewrite ?Hprev.
Qed.

(** C4, as amended: the loop at the start of iterative deepening sets
    every frame, the two before ply 0 included, to its ply, no current
    move, no excluded move and the evaluation 0.  In [absearch],
    [improving] is false in check and otherwise is
    [staticEval > eval[ply-2]] when [eval[ply-2] != VALUE_NONE], else
    false.  On the fresh stack the evaluation two frames above ply 0 and
    ply 1 is 0, not [VALUE_NONE], so there [improving] is
    [staticEval > 0]. *)
Theorem improving_after_init (s : St) :
  length (stack s) = Z.to_nat (MAX_PLY + 4) ->
  let s0 := iterativeDeepening_init s in
  (forall i, -2 <= i <= MAX_PLY + 1 ->
     frame s0 (stack_base + i)
     = {| ply := i; currentmove := NO_MOVE; eval := 0;
          excludedMove := NO_MOVE |})
  /\ (forall qrec arec node inCheck color ex ttHit tte depth alpha beta ss
        (st : St),
        wp (absearch_early qrec arec node inCheck color ex ttHit tte depth
              alpha beta ss)
           (fun c _ =>
              forall d staticEval improving,
                c = Val (d, staticEval, improving) ->
                improving
                = if inCheck then false
                  else if negb (eval (frame st (ss - 2)) =? VALUE_NONE)
                       then staticEval >? eval (frame st (ss - 2))
                       else false) st)
  /\ (forall staticEval p,
        p = 0 \/ p = 1 ->
        improving_of staticEval (eval (frame s0 (stack_base + p - 2)))
        = (staticEval >? 0)).
Proof.
  intros Hlen s0.
  assert (Hframes : forall i, -2 <= i <= MAX_PLY + 1 ->
            frame s0 (stack_base + i) = fresh_frame i).
  { intros i Hi. subst s0. unfold iterativeDeepening_init.
    by apply init_stack_frame. }
  split; [exact Hframes|]. split.
  - intros. apply absearch_early_improving.
  - intros staticEval p Hp. pose proof max_ply_layout.
    replace (stack_base + p - 2) with (stack_base + (p - 2)) by lia.
    rewrite Hframes by lia. simpl. unfold improving_of.
    pose proof inf_layout. pose proof mate_layout as [Hm _].
    pose proof tb_layout as [_ Ht].
    destruct (Z.eqb_spec 0 VALUE_NONE); [lia|done].
Qed.

End StackFacts.

(** ** The statements on closed inputs *)

Section Closed.
#[local] Existing Instance engine_consts.

Lemma updateAllHistories_bounded_witness :
  history_bounded
    (history (updateAllHistories (H0 := demo_extern) 796 50 40 3 [796] 1 2
                demo_start)).
Proof.
  apply (updateAllHistories_bounded (H0 := demo_extern)); [lia|].
  apply (bool_decide_unpack _). vm_compute. exact I.
Defined.

Lemma qsearch_stores_witness :
  exists r s',
    qsearch (H0 := demo_extern) demo_helper 5 NonPV (-100) 100 2 demo_start
    = Some (r, s')
    /\ Since qsearch_entry_shape (tt_log demo_start) s'.
Proof.
  destruct (qsearch (H0 := demo_extern) demo_helper 5 NonPV (-100) 100 2
              demo_start) as [[r s']|] eqn:Hq.
  - exists r, s'. split; [reflexivity|].
    exact (proj1 (qsearch_stores (H0 := demo_extern) demo_helper 5 NonPV
                    (-100) 100 2 demo_start r s' Hq)).
  - vm_compute in Hq. discriminate.
Defined.

(** Were a tablebase to report a loss at a stalemate, a node of the
    principal variation at ply 1 that is not in check and has no move to
    try would return the tablebase bound [VALUE_MATED_IN_PLY + ply + 1],
    not 0. *)
Remark stalemate_tablebase_loss :
  option_map fst
    (absearch (H0 := demo_tb_extern) demo_main_tb 3 PV 2 (-32001) 32001 3
       demo_start)
  = Some (-31878)
  /\ inCheck_of (H0 := demo_tb_extern) (board demo_start) = false
  /\ excludedMove (frame (H0 := demo_tb_extern) demo_start 3) = 0
  /\ fst (nextMove (Extern := demo_tb_extern)
            (mp_absearch (Extern := demo_tb_extern) 3 false 0 GENERATE)
            demo_start) = NO_MOVE.
Proof. vm_compute. repeat split. Qed.

Lemma qsearch_delta_prune_witness :
  qsearch_prune (H0 := demo_extern) 0 1000 0 false false true true
  = DeltaPruned
  /\ qsearch_moves (H0 := demo_extern)
       (qsearch (H0 := demo_extern) demo_helper 3 NonPV) 2 false 0 2000 2
       [2332] {| q_alpha := 1000; q_bestValue := 0; q_bestMove := 0 |}
       demo_start
     = qsearch_moves (H0 := demo_extern)
         (qsearch (H0 := demo_extern) demo_helper 3 NonPV) 1 false 0 2000 2
         [] {| q_alpha := 1000; q_bestValue := 0; q_bestMove := 0 |}
         demo_start.
Proof.
  apply (qsearch_delta_prune (H0 := demo_extern)
           (qsearch (H0 := demo_extern) demo_helper 3 NonPV) 1 false 0 2000 2
           [2332] {| q_alpha := 1000; q_bestValue := 0; q_bestMove := 0 |}
           demo_start 2332 []);
    vm_compute; (reflexivity || discriminate).
Defined.

(** C5 as stated fails twice.  With [bestValue] at or below
    [VALUE_TB_LOSS_IN_MAX_PLY] the four conditions of the claim hold and
    the capture is searched: the loop counts a node.  And a capture onto
    an empty square (en passant) is not delta-pruned either. *)
Lemma qsearch_delta_prune_counterexample :
  (-31800 + 400 + piece_values_EG (Extern := demo_extern) 0 < 0
   /\ qsearch_prune (H0 := demo_extern) (-31800) 0 0 false false true true
      = Searched
   /\ option_map (fun r => nodes (snd r))
        (qsearch_moves (H0 := demo_extern)
           (qsearch (H0 := demo_extern) demo_helper 3 NonPV) 2 false 0 100 2
           [2332] {| q_alpha := 0; q_bestValue := -31800; q_bestMove := 0 |}
           demo_start)
      = Some (nodes demo_start + 1))
  /\ (0 + 400 + piece_values_EG (Extern := demo_extern) NONETYPE < 1000
      /\ qsearch_prune (H0 := demo_extern) 0 1000 NONETYPE false false true
           true
         = Searched).
Proof. vm_compute. repeat split. Qed.

Lemma improving_after_init_witness :
  improving_of 25
    (eval (frame (H0 := demo_extern)
             (iterativeDeepening_init (H0 := demo_extern) demo_blank)
             (stack_base + 1 - 2)))
  = (25 >? 0).
Proof.
  apply (improving_after_init (H0 := demo_extern) demo_blank);
    [reflexivity|right; reflexivity].
Defined.

(** C4 as stated fails: at the root (ply 0) of the fresh stack, out of
    check and with static evaluation 25, [improving] is true. *)
Lemma improving_after_init_counterexample :
  ply (frame (H0 := demo_extern) demo_start 2) = 0
  /\ eval (frame (H0 := demo_extern) demo_start (2 - 2)) <> VALUE_NONE
  /\ option_map fst
       (absearch_early (H0 := demo_extern)
          (qsearch (H0 := demo_extern) demo_main 0)
          (absearch (H0 := demo_extern) demo_main 0)
          Root false 0 0 false 0 1 (-32001) 32001 2 demo_start)
     = Some (Val (1, 25, true)).
Proof. vm_compute. repeat split. discriminate. Qed.

Lemma stores_respect_stop_flag_witness :
  exists r s',
    absearch (H0 := demo_extern) demo_main 6 Root 3 (-32001) 32001 2
      demo_start = Some (r, s')
    /\ Since (store_respects_stop demo_main) (tt_log demo_start) s'
    /\ length (tt_log s') = 3%nat.
Proof.
  destruct (absearch (H0 := demo_extern) demo_main 6 Root 3 (-32001) 32001 2
              demo_start) as [[r s']|] eqn:Hq.
  - exists r, s'. split; [reflexivity|]. split.
    + exact (proj1 (proj2 (stores_respect_stop_flag (H0 := demo_extern)
                             demo_main 6))
               Root 3 (-32001) 32001 2 demo_start r s' Hq).
    + vm_compute in Hq. injection Hq as _ <-. reflexivity.
  - vm_compute in Hq. discriminate.
Defined.

Lemma limitReached_workers_witness :
  exists s',
    limitReached (H0 := demo_extern) demo_helper demo_start
    = Some (Val false, s')
    /\ checkTime s' = checkTime demo_start
    /\ clock_reads s' = clock_reads demo_start.
Proof.
  destruct (proj1 (limitReached_workers (H0 := demo_extern) demo_helper
                     demo_start))
    as [s' (Hs' & Hct & Hclock & _)]; [discriminate|].
  exists s'. split; [|split; assumption].
  rewrite Hs'. vm_compute. reflexivity.
Defined.

Lemma aspiration_terminates_witness :
  (exists v s',
     aspirationSearch (H0 := demo_extern) demo_main (Z.to_nat 27888) 12 1000
       2 demo_start = Some (v, s')
     /\ v = 0 /\ nodes s' = 28
     /\ exists rs done s1,
          asp_run (H0 := demo_extern) demo_main
            (absearch (H0 := demo_extern) demo_main (Z.to_nat 27888) Root)
            12 2 (aspiration_window 12 1000) demo_start rs done v s1)
  /\ (exists v s',
        aspirationSearch (H0 := demo_mated_extern) demo_main
          (Z.to_nat 27888) 12 0 2 demo_start = Some (v, s')
        /\ v = -32000 /\ loads s' = 36
        /\ exists rs done s1,
             asp_run (H0 := demo_mated_extern) demo_main
               (absearch (H0 := demo_mated_extern) demo_main
                  (Z.to_nat 27888) Root)
               12 2 (aspiration_window 12 0) demo_start rs done v s1).
Proof.
  split.
  - pose proof (aspiration_terminates (H0 := demo_extern) demo_main
                  (absearch (H0 := demo_extern) demo_main (Z.to_nat 27888)
                     Root)
                  (Z.to_nat 27888) 12 1000 2 demo_start) as Hterm.
    cbv zeta in Hterm.
    destruct Hterm as (_ & _ & Hrun & _); [vm_compute; reflexivity|].
    unfold aspirationSearch.
    destruct (aspirationSearch_with (H0 := demo_extern) demo_main
                (absearch (H0 := demo_extern) demo_main (Z.to_nat 27888)
                   Root)
                (Z.to_nat 27888) 12 1000 2 demo_start)
      as [[v s']|] eqn:Hq; [|vm_compute in Hq; discriminate].
    destruct Hrun as (rs & done & s1 & Hrun & _).
    exists v, s'. split; [reflexivity|].
    assert (Hv : v = 0 /\ nodes s' = 28).
    { vm_compute in Hq. inversion Hq. split; reflexivity. }
    destruct Hv as [Hv Hn]. split; [exact Hv|]. split; [exact Hn|].
    exists rs, done, s1. exact Hrun.
  - pose proof (aspiration_terminates (H0 := demo_mated_extern) demo_main
                  (absearch (H0 := demo_mated_extern) demo_main
                     (Z.to_nat 27888) Root)
                  (Z.to_nat 27888) 12 0 2 demo_start) as Hterm.
    cbv zeta in Hterm.
    destruct Hterm as (_ & _ & Hrun & _); [vm_compute; reflexivity|].
    unfold aspirationSearch.
    destruct (aspirationSearch_with (H0 := demo_mated_extern) demo_main
                (absearch (H0 := demo_mated_extern) demo_main
                   (Z.to_nat 27888) Root)
                (Z.to_nat 27888) 12 0 2 demo_start)
      as [[v s']|] eqn:Hq; [|vm_compute in Hq; discriminate].
    destruct Hrun as (rs & done & s1 & Hrun & _).
    exists v, s'. split; [reflexivity|].
    assert (Hv : v = -32000 /\ loads s' = 36).
    { vm_compute in Hq. inversion Hq. split; reflexivity. }
    destruct Hv as [Hv Hn]. split; [exact Hv|]. split; [exact Hn|].
    exists rs, done, s1. exact Hrun.
Defined.

End Closed.

(** ** Static evaluation and score output *)

Section EvaluationFacts.
Context `{Consts} `{Extern}.

(** X1: whatever the network yields, the static evaluation lies strictly
    between the two mate thresholds. *)
Theorem evaluation_in_range (b : Board) :
  VALUE_MATED_IN_PLY < evaluation b < VALUE_MATE_IN_PLY.
Proof.
  pose proof mated_below_mate. unfold evaluation, clamp.
  repeat case_match; lia.
Qed.

End EvaluationFacts.

Lemma land_1_mod (n : Z) : Z.land n 1 = n mod 2.
Proof. change 1 with (Z.ones 1). by rewrite Z.land_ones. Qed.

Section OutputScoreFacts.
Context `{Consts}.

(** X2: a mate in [n] plies is printed as the number of own moves,
    [n / 2] rounded up. *)
Theorem outputScore_mate (n : Z) :
  0 <= n <= MAX_PLY ->
  outputScore (mate_in n) = ("mate " ++ to_string ((n + 1) / 2))%string.
Proof.
  intros Hn. pose proof mated_below_mate as Hm.
  pose proof mate_layout as [Hl1 Hl2]. pose proof tb_layout as [Ht1 Ht2].
  unfold outputScore, mate_in.
  destruct (Z.leb_spec (Z.abs (VALUE_MATE - n)) 4); [lia|].
  destruct (Z.geb_spec (VALUE_MATE - n) VALUE_MATE_IN_PLY); [|lia].
  do 2 f_equal. rewrite land_1_mod.
  replace (VALUE_MATE - (VALUE_MATE - n)) with n by lia.
  Z.to_euclidean_division_equations; lia.
Qed.

(** X3: being mated in [n] plies is printed as [n mod 2 - n / 2]: minus
    the number of own moves when [n] is even, as it is at the root. *)
Theorem outputScore_mated (n : Z) :
  0 <= n <= MAX_PLY ->
  outputScore (mated_in n)
  = ("mate " ++ to_string (n mod 2 - n / 2))%string.
Proof.
  intros Hn. pose proof mated_below_mate as Hm.
  pose proof mate_layout as [Hl1 Hl2]. pose proof tb_layout as [Ht1 Ht2].
  unfold outputScore, mated_in.
  destruct (Z.leb_spec (Z.abs (- VALUE_MATE + n)) 4); [lia|].
  destruct (Z.geb_spec (- VALUE_MATE + n) VALUE_MATE_IN_PLY); [lia|].
  destruct (Z.leb_spec (- VALUE_MATE + n) VALUE_MATED_IN_PLY); [|lia].
  do 2 f_equal. rewrite land_1_mod.
  replace (VALUE_MATE + (- VALUE_MATE + n)) with n by lia.
  Z.to_euclidean_division_equations; lia.
Qed.

End OutputScoreFacts.

(** ** Helpers of [helper.cpp] *)

Lemma getline_from_spec (stream : string) :
  let '(segment, rest) := getline_from stream in
  no_space segment = true
  /\ (String.length rest <= Nat.pred (String.length stream))%nat
  /\ drop_final_space stream
     = match rest with
       | EmptyString => segment
       | _ => (segment ++ " " ++ drop_final_space rest)%string
       end.
Proof.
  induction stream as [|c stream IH]; simpl; [done|].
  destruct (Ascii.eqb c space) eqn:Hc.
  - apply Ascii.eqb_eq in Hc. subst c. simpl.
    split; [done|]. split; [lia|].
    destruct stream; reflexivity.
  - destruct (getline_from stream) as [segment rest].
    destruct IH as (Hseg & Hlen & Hdrop). simpl. rewrite Hc. simpl.
    split; [done|]. split; [lia|].
    destruct stream as [|c' stream'].
    + simpl in *. destruct rest; [|simpl in Hlen; lia].
      simpl in Hdrop. by rewrite <- Hdrop.
    + rewrite Hdrop. by destruct rest.
Qed.

Lemma splitInput_loop_spec (n : nat) :
  forall stream seglist,
    (String.length stream < n)%nat ->
    exists segs,
      splitInput_loop n stream seglist = Some (seglist ++ segs)
      /\ Forall (fun segment => no_space segment = true) segs
      /\ String.concat " " segs = drop_final_space stream
      /\ (segs = [] -> stream = EmptyString).
Proof.
  induction n as [|n IH]; intros stream seglist Hn; [lia|].
  destruct stream as [|c stream].
  { exists []. simpl. by rewrite app_nil_r. }
  cbn [splitInput_loop getline].
  pose proof (getline_from_spec (String c stream)) as Hg.
  destruct (getline_from (String c stream)) as [segment rest].
  destruct Hg as (Hseg & Hlen & Hdrop).
  destruct (IH rest (seglist ++ [segment])) as (segs & Hrun & Hall & Hcat & Hnil).
  { simpl in *. lia. }
  exists (segment :: segs). rewrite Hrun, <- app_assoc.
  split; [done|]. split; [by constructor|]. split; [|done].
  rewrite Hdrop. destruct segs as [|seg' segs'].
  - by rewrite Hnil.
  - destruct rest; [|by rewrite <- Hcat].
    simpl in Hrun. destruct n; simpl in Hrun; [done|].
    inversion Hrun as [Heq].
    apply (f_equal length) in Heq. rewrite !length_app in Heq.
    simpl in Heq. lia.
Qed.

(** X4: [splitInput] ends on every text; no piece it returns contains a
    space, and joining the pieces with single spaces gives the text back,
    up to one space at its end. *)
Theorem splitInput_joins (fen : string) :
  exists segs,
    splitInput fen = Some segs
    /\ Forall (fun segment => no_space segment = true) segs
    /\ String.concat " " segs = drop_final_space fen.
Proof.
  destruct (splitInput_loop_spec (Datatypes.S (String.length fen)) fen [])
    as (segs & Hrun & Hall & Hcat & _); [lia|].
  exists segs. done.
Qed.
(** *** Bitboards *)

Lemma land_odd_pred (a : Z) : Z.land (2 * a + 1) (2 * a) = 2 * a.
Proof.
  apply Z.bits_inj'. intros n Hn. rewrite Z.land_spec.
  destruct (Z.eq_dec n 0) as [->|Hne].
  - by rewrite Z.testbit_odd_0, Z.testbit_even_0.
  - replace n with (Z.succ (n - 1)) by lia.
    rewrite Z.testbit_odd_succ, Z.testbit_even_succ by lia.
    apply andb_diag.
Qed.

Lemma land_even_pred (a : Z) :
  Z.land (2 * a) (2 * (a - 1) + 1) = 2 * Z.land a (a - 1).
Proof.
  apply Z.bits_inj'. intros n Hn. rewrite Z.land_spec.
  destruct (Z.eq_dec n 0) as [->|Hne].
  - by rewrite !Z.testbit_even_0.
  - replace n with (Z.succ (n - 1)) by lia.
    rewrite Z.testbit_odd_succ, !Z.testbit_even_succ by lia.
    by rewrite Z.land_spec.
Qed.

Lemma ctz_pos_nonneg (p : positive) : 0 <= ctz_pos p.
Proof. induction p; simpl; lia. Qed.

Lemma size_log2 (p : positive) : Z.pos (Pos.size p) = Z.log2 (Z.pos p) + 1.
Proof. destruct p; simpl; lia. Qed.

Lemma ctz_pos_le_log2 (p : positive) : ctz_pos p <= Z.log2 (Z.pos p).
Proof.
  induction p as [q IH|q IH|].
  - simpl. pose proof (Z.log2_nonneg (Z.pos q~1)). simpl in *. lia.
  - change (ctz_pos q~0) with (1 + ctz_pos q).
    rewrite Pos2Z.inj_xO, Z.log2_double by lia. lia.
  - done.
Qed.

Lemma land_pred_pos (p : positive) :
  Z.land (Z.pos p) (Z.pos p - 1) = Z.pos p - 2 ^ ctz_pos p.
Proof.
  induction p as [q IH|q IH|].
  - rewrite Pos2Z.inj_xI.
    replace (2 * Z.pos q + 1 - 1) with (2 * Z.pos q) by lia.
    rewrite land_odd_pred. simpl ctz_pos. lia.
  - rewrite Pos2Z.inj_xO.
    replace (2 * Z.pos q - 1) with (2 * (Z.pos q - 1) + 1) by lia.
    rewrite land_even_pred, IH.
    change (ctz_pos q~0) with (1 + ctz_pos q).
    pose proof (ctz_pos_nonneg q).
    rewrite Z.pow_add_r by lia. lia.
  - reflexivity.
Qed.

Lemma testbit_ctz_pos (p : positive) :
  Z.testbit (Z.pos p) (ctz_pos p) = true
  /\ forall i, 0 <= i < ctz_pos p -> Z.testbit (Z.pos p) i = false.
Proof.
  induction p as [q IH|q [IH1 IH2]|].
  - split; [reflexivity|]. simpl. lia.
  - change (ctz_pos q~0) with (1 + ctz_pos q).
    pose proof (ctz_pos_nonneg q) as Hc.
    rewrite Pos2Z.inj_xO. split.
    + replace (1 + ctz_pos q) with (Z.succ (ctz_pos q)) by lia.
      by rewrite Z.testbit_even_succ.
    + intros i Hi. destruct (Z.eq_dec i 0) as [->|Hne].
      * apply Z.testbit_even_0.
      * replace i with (Z.succ (i - 1)) by lia.
        rewrite Z.testbit_even_succ by lia. apply IH2. lia.
  - split; [reflexivity|]. simpl. lia.
Qed.

Lemma popcountll_double (x : Z) :
  0 <= x -> builtin_popcountll (2 * x) = builtin_popcountll x.
Proof. intros Hx. destruct x; [done|done|lia]. Qed.

Lemma pow_ctz_le (p : positive) : 2 ^ ctz_pos p <= Z.pos p.
Proof.
  pose proof (land_pred_pos p) as Hl.
  assert (0 <= Z.land (Z.pos p) (Z.pos p - 1)); [|lia].
  apply Z.land_nonneg. lia.
Qed.

Lemma popcount_clear_lowest (p : positive) :
  builtin_popcountll (Z.pos p - 2 ^ ctz_pos p) = popcount_pos p - 1.
Proof.
  induction p as [q IH|q IH|].
  - simpl. lia.
  - change (ctz_pos q~0) with (1 + ctz_pos q).
    pose proof (ctz_pos_nonneg q). pose proof (pow_ctz_le q).
    rewrite Pos2Z.inj_xO, Z.pow_add_r by lia.
    replace (2 * Z.pos q - 2 ^ 1 * 2 ^ ctz_pos q)
      with (2 * (Z.pos q - 2 ^ ctz_pos q)) by lia.
    rewrite popcountll_double by lia. by rewrite IH.
  - reflexivity.
Qed.

Lemma popcount_pos_bounds (p : positive) :
  1 <= popcount_pos p <= Z.log2 (Z.pos p) + 1.
Proof.
  induction p as [q IH|q IH|].
  - change (popcount_pos q~1) with (1 + popcount_pos q).
    rewrite Pos2Z.inj_xI, Z.log2_succ_double by lia. lia.
  - change (popcount_pos q~0) with (popcount_pos q).
    rewrite Pos2Z.inj_xO, Z.log2_double by lia. lia.
  - done.
Qed.

Lemma lxor_63 (k : Z) : 0 <= k < 64 -> Z.lxor 63 (63 - k) = k.
Proof.
  intros Hk.
  assert (Hall : forallb (fun k => Z.lxor 63 (63 - k) =? k) (zrange 0 64)
                 = true) by (vm_compute; reflexivity).
  rewrite forallb_forall in Hall. apply Z.eqb_eq, Hall.
  apply list_elem_of_In, elem_of_zrange. lia.
Qed.

Section BitboardFacts.
Variable NO_SQ : Square.

(** X5: on a bitboard with a piece, [lsb] and [msb] are squares of the
    board that carry a set bit, and every set bit lies between them. *)
Theorem lsb_msb_bits (b : Z) :
  0 < b < 2^64 ->
  0 <= lsb NO_SQ b <= msb NO_SQ b /\ msb NO_SQ b <= 63
  /\ Z.testbit b (lsb NO_SQ b) = true
  /\ Z.testbit b (msb NO_SQ b) = true
  /\ forall i, 0 <= i -> Z.testbit b i = true ->
       lsb NO_SQ b <= i <= msb NO_SQ b.
Proof.
  intros Hb. destruct b as [|p|p]; [lia| |lia].
  unfold lsb, msb. simpl (_ =? _). cbv iota.
  unfold builtin_ctzll, builtin_clzll.
  assert (Hlog : 0 <= Z.log2 (Z.pos p) < 64).
  { split; [apply Z.log2_nonneg|]. apply Z.log2_lt_pow2; lia. }
  rewrite size_log2.
  replace (64 - (Z.log2 (Z.pos p) + 1)) with (63 - Z.log2 (Z.pos p)) by lia.
  rewrite lxor_63 by lia.
  pose proof (ctz_pos_nonneg p). pose proof (ctz_pos_le_log2 p).
  destruct (testbit_ctz_pos p) as [Hset Hclear].
  split; [lia|]. split; [lia|]. split; [done|].
  split; [apply Z.bit_log2; lia|].
  intros i Hi Hbit. split.
  - destruct (Z_lt_le_dec i (ctz_pos p)) as [Hlt|]; [|done].
    rewrite Hclear in Hbit by lia. done.
  - destruct (Z_lt_le_dec (Z.log2 (Z.pos p)) i) as [Hlt|]; [|done].
    rewrite Z.bits_above_log2 in Hbit by lia. done.
Qed.

(** X6: on a bitboard with a piece, [poplsb] returns the lowest square
    and removes exactly that bit, so the population count drops by one. *)
Theorem poplsb_clears_lsb (mask : Z) :
  0 < mask < 2^64 ->
  poplsb NO_SQ mask = (lsb NO_SQ mask, mask - 2 ^ lsb NO_SQ mask)
  /\ popcount (snd (poplsb NO_SQ mask)) = popcount mask - 1.
Proof.
  intros Hb. destruct mask as [|p|p]; [lia| |lia].
  assert (Hlog : 0 <= Z.log2 (Z.pos p) < 64).
  { split; [apply Z.log2_nonneg|]. apply Z.log2_lt_pow2; lia. }
  pose proof (ctz_pos_nonneg p). pose proof (ctz_pos_le_log2 p).
  pose proof (pow_ctz_le p).
  assert (Hpop : poplsb NO_SQ (Z.pos p)
                 = (ctz_pos p, Z.pos p - 2 ^ ctz_pos p)).
  { unfold poplsb, lsb, to_int8, wrap64. simpl (_ =? _). cbv iota.
    unfold builtin_ctzll. f_equal.
    - rewrite Z.mod_small by lia. lia.
    - rewrite Z.mod_small by lia. apply land_pred_pos. }
  rewrite Hpop. split; [reflexivity|].
  unfold popcount, wrap8. simpl snd.
  rewrite popcount_clear_lowest.
  pose proof (popcount_pos_bounds p).
  unfold builtin_popcountll. rewrite !Z.mod_small by lia. done.
Qed.

End BitboardFacts.

(** *** Squares *)

Section DistanceFacts.
Variables square_file square_rank : Square -> Z.

(** X7: for squares whose file and rank are between 0 and 7, the king
    distance is at most 7, at most the Manhattan distance, and at least
    half of it. *)
Theorem square_distance_manhatten (a b : Square) :
  0 <= square_file a <= 7 -> 0 <= square_rank a <= 7 ->
  0 <= square_file b <= 7 -> 0 <= square_rank b <= 7 ->
  square_distance square_file square_rank a b <= 7
  /\ square_distance square_file square_rank a b
     <= manhatten_distance square_file square_rank a b
     <= 2 * square_distance square_file square_rank a b.
Proof.
  intros Hfa Hra Hfb Hrb. unfold square_distance, manhatten_distance, wrap8.
  rewrite !Z.mod_small by lia. lia.
Qed.

End DistanceFacts.

Lemma sameColor_table :
  forallb (fun a =>
    forallb (fun b =>
      Bool.eqb (sameColor a b)
               (Bool.eqb (get_square_color a) (get_square_color b)))
      (zrange 0 64))
    (zrange 0 64) = true.
Proof. vm_compute. reflexivity. Qed.

(** X8: on the squares of the board, [sameColor] holds exactly when
    [get_square_color] gives both squares the same colour. *)
Theorem sameColor_get_square_color (sq1 sq2 : Square) :
  0 <= sq1 < 64 -> 0 <= sq2 < 64 ->
  sameColor sq1 sq2
  = Bool.eqb (get_square_color sq1) (get_square_color sq2).
Proof.
  intros H1 H2. pose proof sameColor_table as Hall.
  rewrite forallb_forall in Hall.
  specialize (Hall sq1). rewrite forallb_forall in Hall.
  apply eqb_prop, Hall; apply list_elem_of_In, elem_of_zrange; lia.
Qed.

Section PieceFacts.
Context `{Consts}.

(** X9: a piece made of one of the six piece types and a colour carries
    both: the type is the remainder and the colour the quotient by 6. *)
Theorem makePiece_decodes (type : PieceType) (c : Color) :
  0 <= type < 6 -> type <> NONETYPE -> 0 <= c ->
  Z.rem (makePiece type c) 6 = type /\ makePiece type c ÷ 6 = c.
Proof.
  intros Ht Hn Hc. unfold makePiece.
  destruct (Z.eqb_spec type NONETYPE); [done|].
  Z.to_euclidean_division_equations; lia.
Qed.

End PieceFacts.
(** ** More on the history heuristics *)

(** The gravity formula never leaves the interval it pulls towards. *)
Lemma hhBonus_tight (h b : Z) :
  Z.abs h <= 16384 -> Z.abs b <= 2000 ->
  Z.abs (h + (b - (h * Z.abs b) ÷ 16384)) <= 16384.
Proof.
  intros Hh Hb.
  destruct (quot_16384_bounds (h * Z.abs b)) as [Hpos Hneg].
  set (q := (h * Z.abs b) ÷ 16384) in *.
  destruct (Z.le_gt_cases 0 h) as [Hh0|Hh0].
  - assert (H0 : 0 <= h * Z.abs b) by nia. specialize (Hpos H0). nia.
  - assert (H0 : h * Z.abs b <= 0) by nia. specialize (Hneg H0). nia.
Qed.

Section HistoryTight.
Context `{Consts} `{Extern}.

#[local] Abbreviation St := (Search Board TranspositionTable).

Lemma updateHistoryBonus_tight (move : Move) (b : Z) (s : St) :
  Z.abs b <= 2000 ->
  history_tight (history s) ->
  history_tight (history (updateHistoryBonus move b s)).
Proof.
  intros Hb Hs. unfold updateHistoryBonus, getHistory, history_tight. simpl.
  set (i := history_index _ _ _).
  destruct (Nat.lt_ge_cases (Z.to_nat i) (length (history s))) as [Hi|Hi].
  - apply zset_Forall; [done..|]. intros Hi0.
    apply hhBonus_tight; [|done].
    unfold zget. destruct (Z.ltb_spec i 0); [lia|].
    unfold history_tight in Hs. rewrite Forall_lookup in Hs.
    destruct (lookup_lt_is_Some_2 _ _ Hi) as [x Hx].
    rewrite (list_lookup_total_correct _ _ _ Hx). eauto.
  - by apply zset_Forall_ge.
Qed.

Lemma updateHistory_tight (bestmove : Move) (b depth : Z)
    (quiets : list Move) (quietCount : Z) (s : St) :
  Z.abs b <= 2000 ->
  history_tight (history s) ->
  history_tight (history (updateHistory bestmove b depth quiets quietCount s)).
Proof.
  intros Hb Hs. unfold updateHistory.
  set (s1 := if depth >? 1 then _ else _).
  assert (Hs1 : history_tight (history s1)).
  { subst s1. case_match; [by apply updateHistoryBonus_tight|done]. }
  clearbody s1. clear Hs. revert s1 Hs1.
  induction (zrange 0 quietCount) as [|i rest IH]; intros s1 Hs1; simpl; [done|].
  apply IH. case_match; [done|].
  apply updateHistoryBonus_tight; [lia|done].
Qed.

Lemma updateAllHistories_tight (bestMove : Move) (best beta : Score)
    (depth : Z) (quiets : list Move) (quietCount : Z) (ss : Z) (s : St) :
  0 <= depth ->
  history_tight (history s) ->
  history_tight
    (history (updateAllHistories bestMove best beta depth quiets quietCount
                ss s)).
Proof.
  intros Hd Hs. unfold updateAllHistories.
  case_match; [done|]. case_match; [|done].
  apply updateHistory_tight; [|done].
  pose proof (bonus_range depth Hd). lia.
Qed.

(** X10: a butterfly table with every entry within [16384] is still so
    after a whole search, whatever moves and scores the search meets. *)
Theorem absearch_history_tight (cfg : Config) fuel node depth alpha beta ss
    (s : St) v s' :
  history_tight (history s) ->
  absearch cfg fuel node depth alpha beta ss s = Some (v, s') ->
  history_tight (history s').
Proof.
  apply (absearch_inv cfg (fun s : St => history_tight (history s))).
  - intros s0 s1 [_ Hh] H0'. by rewrite Hh.
  - intros s0 d score b key move _ H0'. exact H0'.
  - intros. by apply updateAllHistories_tight.
Qed.

Lemma updateHistory_killerMoves (bestmove : Move) (b depth : Z)
    (quiets : list Move) (quietCount : Z) (s : St) :
  killerMoves (updateHistory bestmove b depth quiets quietCount s)
  = killerMoves s.
Proof.
  unfold updateHistory.
  set (s1 := if depth >? 1 then _ else _).
  assert (Hs1 : killerMoves s1 = killerMoves s) by (subst s1; by case_match).
  clearbody s1. rewrite <- Hs1. clear Hs1. revert s1.
  induction (zrange 0 quietCount) as [|i rest IH]; intros s1; simpl; [done|].
  rewrite IH. by case_match.
Qed.

(** X11: a quiet move that fails high becomes the first killer of its
    ply, and the former first killer becomes the second. *)
Theorem updateAllHistories_killers (bestMove : Move) (best beta : Score)
    (depth : Z) (quiets : list Move) (quietCount : Z) (ss : Z) (s : St) :
  beta <= best ->
  pieceAtB (board s) (to bestMove) = None_piece ->
  0 <= ply (frame s ss) ->
  (1 < length (killerMoves s))%nat ->
  (Z.to_nat (ply (frame s ss)) < length (zget (killerMoves s) 0))%nat ->
  (Z.to_nat (ply (frame s ss)) < length (zget (killerMoves s) 1))%nat ->
  let s' := updateAllHistories bestMove best beta depth quiets quietCount
              ss s in
  zget2 (killerMoves s') 0 (ply (frame s ss)) = bestMove
  /\ zget2 (killerMoves s') 1 (ply (frame s ss))
     = zget2 (killerMoves s) 0 (ply (frame s ss)).
Proof.
  intros Hcut Hquiet Hp Hrows Hrow0 Hrow1. cbv zeta.
  unfold updateAllHistories.
  destruct (Z.ltb_spec best beta); [lia|].
  rewrite Hquiet, Z.eqb_refl, updateHistory_killerMoves. simpl.
  unfold zget2, zset2.
  rewrite (zget_zset_ne _ 1 0) by lia.
  rewrite (zget_zset_eq _ 0) by (rewrite ?length_zset; lia).
  rewrite (zget_zset_eq _ _ bestMove) by done.
  rewrite (zget_zset_ne _ 0 1) by lia.
  rewrite (zget_zset_eq _ 1) by lia.
  by rewrite zget_zset_eq.
Qed.

End HistoryTight.

(** ** More on the limits *)

Section LimitSticky.
Context `{Consts} `{Extern}.

#[local] Abbreviation St := (Search Board TranspositionTable).

(** X12: in a normal search a limit check that reported the limit is
    followed by limit checks that report it as well. *)
Theorem limitReached_sticky (cfg : Config) (s s1 : St) :
  normalSearch cfg = true ->
  limitReached cfg s = Some (Val true, s1) ->
  exists s2, limitReached cfg s1 = Some (Val true, s2).
Proof.
  intros Hn. unfold limitReached, bind, load_stopped, getTime, gets, modify,
    ret. rewrite Hn. simpl.
  destruct (stopped s || external_stop (loads s)) eqn:Hseen; simpl.
  { intros Heq. inversion Heq; subst s1. simpl. eauto. }
  destruct (negb (id cfg =? 0)) eqn:Hid; simpl; [done|].
  destruct (negb (limit_nodes (limit cfg) =? 0)
            && (nodes s >=? limit_nodes (limit cfg))) eqn:Hnodes; simpl.
  { intros Heq. inversion Heq; subst s1. simpl.
    destruct (external_stop (loads s + 1)); simpl; [by eauto|].
    rewrite Hnodes. eauto. }
  destruct (checkTime s - 1 >? 0); simpl; [done|].
  destruct (negb (maximum (limit_time (limit cfg)) =? 0)); simpl; [|done].
  destruct (clock (clock_reads s) >=? maximum (limit_time (limit cfg)));
    simpl; [|done].
  intros Heq. inversion Heq; subst s1. simpl. eauto.
Qed.

(** X13: a normal search whose stop flag is set returns 0 from
    [qsearch] and from [absearch] at once: no node is counted, nothing is
    stored, only the load of the flag is recorded. *)
Theorem stopped_search_returns_zero (cfg : Config) fuel node depth alpha beta
    ss (s : St) :
  normalSearch cfg = true ->
  stopped s = true ->
  qsearch cfg (Datatypes.S fuel) node alpha beta ss s
  = Some (0, set_loads (loads s + 1) s)
  /\ absearch cfg (Datatypes.S fuel) node depth alpha beta ss s
     = Some (0, set_loads (loads s + 1) s).
Proof.
  intros Hn Hs. simpl.
  unfold fn, qsearch_body, absearch_body, limitReached, bind, load_stopped,
    ret, return_.
  rewrite Hn. simpl. rewrite Hs. simpl.
  destruct s; simpl in *; subst. done.
Qed.

End LimitSticky.
(** ** Values of the quiescence search *)

(** Comparisons that a case analysis left as booleans, as inequalities. *)
Ltac zbool :=
  repeat match goal with
  | H : (_ >? _) = true |- _ => rewrite Z.gtb_ltb in H; apply Z.ltb_lt in H
  | H : (_ >? _) = false |- _ => rewrite Z.gtb_ltb in H; apply Z.ltb_ge in H
  | H : (_ >=? _) = true |- _ => rewrite Z.geb_leb in H; apply Z.leb_le in H
  | H : (_ >=? _) = false |- _ => rewrite Z.geb_leb in H; apply Z.leb_gt in H
  | H : (_ <? _) = true |- _ => apply Z.ltb_lt in H
  | H : (_ <? _) = false |- _ => apply Z.ltb_ge in H
  | H : (_ <=? _) = true |- _ => apply Z.leb_le in H
  | H : (_ <=? _) = false |- _ => apply Z.leb_gt in H
  | H : (_ =? _) = true |- _ => apply Z.eqb_eq in H
  | H : (_ =? _) = false |- _ => apply Z.eqb_neq in H
  end.

Section StandPat.
Context `{Consts} `{Extern}.
Variable cfg : Config.

#[local] Abbreviation St := (Search Board TranspositionTable).

(** The move loop starts from the static evaluation, below [beta] and
    not above the raised [alpha]. *)
Lemma qsearch_entry_loop node alpha beta ss (s : St) e :
  qsearch_entry node alpha beta ss s = inr e ->
  q_bestValue (qe_loop e) = evaluation (board s)
  /\ q_bestValue (qe_loop e) <= q_alpha (qe_loop e)
  /\ alpha <= q_alpha (qe_loop e)
  /\ q_bestValue (qe_loop e) < beta.
Proof.
  unfold qsearch_entry.
  destruct (ply (frame s ss) >=? MAX_PLY); [done|].
  destruct (isRepetition _ _); [done|].
  destruct (isDrawn _ _); [|done|done].
  destruct (evaluation (board s) >=? beta) eqn:Hbeta; [done|].
  destruct (probeTT _ _) as [[ttHit ttMove] tte].
  destruct (evaluation (board s) >? alpha) eqn:Halpha;
    repeat case_match; intros Heq; inversion Heq; subst e; simpl;
    zbool; lia.
Qed.

(** The loop only raises [bestValue] and [alpha], and keeps the former
    at or below the latter. *)
Lemma qsearch_moves_bounds rec n inCheck color beta ss :
  forall mp l (s : St),
    wp (qsearch_moves rec n inCheck color beta ss mp l)
       (fun c _ =>
          forall l', c = Val l' ->
            q_bestValue l <= q_bestValue l'
            /\ q_alpha l <= q_alpha l'
            /\ (q_bestValue l <= q_alpha l ->
                q_bestValue l' <= q_alpha l')) s.
Proof.
  induction n as [|n IH]; intros mp l s; simpl; [done|].
  assert (Hrec : forall mp l0 (s0 : St),
            q_bestValue l <= q_bestValue l0 ->
            q_alpha l <= q_alpha l0 ->
            (q_bestValue l <= q_alpha l -> q_bestValue l0 <= q_alpha l0) ->
            wp (qsearch_moves rec n inCheck color beta ss mp l0)
               (fun c _ =>
                  forall l', c = Val l' ->
                    q_bestValue l <= q_bestValue l'
                    /\ q_alpha l <= q_alpha l'
                    /\ (q_bestValue l <= q_alpha l ->
                        q_bestValue l' <= q_alpha l')) s0).
  { intros mp0 l0 s0 Hb Ha Hba. eapply wp_mono; [|apply IH].
    intros c s' Hc l' ->. destruct (Hc l' eq_refl) as (Hb' & Ha' & Hba').
    split; [lia|]. split; [lia|]. auto. }
  repeat wp_step; try (apply Hrec; lia);
    try (intros l' Heq; inversion Heq; subst l'; lia).
  eapply wp_call; [intros v s' _; exact I|]. simpl. intros v s' _.
  repeat wp_step; zbool;
    try (apply Hrec; simpl; lia);
    try (intros l' Heq; inversion Heq; subst l'; simpl; lia).
Qed.

(** X14: a call of [qsearch] that reaches its move loop returns at least
    the static evaluation of its position. *)
Theorem qsearch_stand_pat fuel node alpha beta ss (s s1 : St) e r s' :
  qsearch cfg fuel node alpha beta ss s = Some (r, s') ->
  limitReached cfg s = Some (Val false, s1) ->
  qsearch_entry node alpha beta ss s1 = inr e ->
  evaluation (board s1) <= r.
Proof.
  intros Hq Hlr He. destruct fuel as [|fuel]; [done|].
  simpl in Hq. unfold fn, qsearch_body in Hq.
  unfold bind at 1 in Hq. rewrite Hlr in Hq.
  unfold bind at 1, gets at 1 in Hq. rewrite He in Hq.
  unfold bind at 1 in Hq.
  pose proof (qsearch_moves_bounds (qsearch cfg fuel node) fuel (qe_inCheck e)
                (qe_color e) beta ss (qe_mp e) (qe_loop e) s1) as Hval.
  pose proof (qsearch_moves_val (qsearch cfg fuel node) fuel (qe_inCheck e)
                (qe_color e) beta ss (qe_mp e) (qe_loop e) s1) as Hv.
  unfold wp in Hval, Hv.
  destruct (qsearch_moves _ _ _ _ _ _ _ _ s1) as [[c s2]|]; [|done].
  destruct Hv as [l' ->].
  destruct (Hval l' eq_refl) as (Hb & _).
  destruct (qsearch_store_spec cfg beta ss l' s2) as [s3 (Hst & _)].
  rewrite Hst in Hq. inversion Hq; subst r s3.
  destruct (qsearch_entry_loop node alpha beta ss s1 e He) as (Hsp & _).
  lia.
Qed.

End StandPat.
Section BestMove.
Context `{Consts} `{Extern}.

#[local] Abbreviation St := (Search Board TranspositionTable).

(** X24: the move loop of [qsearch] replaces the best move only when it
    raises [alpha], and from then on the best value is [alpha]; until
    then the best value stays at or below the [alpha] it started with. *)
Theorem qsearch_moves_best_move rec n inCheck color beta ss mp l (s : St)
    l' s' :
  q_bestValue l <= q_alpha l ->
  qsearch_moves rec n inCheck color beta ss mp l s = Some (Val l', s') ->
  (q_bestMove l' = q_bestMove l /\ q_alpha l' = q_alpha l
   /\ q_bestValue l <= q_bestValue l' <= q_alpha l)
  \/ (q_alpha l < q_alpha l' /\ q_bestValue l' = q_alpha l').
Proof.
  intros Hba Hrun.
  assert (Hwp : forall n mp l (s : St),
            q_bestValue l <= q_alpha l ->
            wp (qsearch_moves rec n inCheck color beta ss mp l)
               (fun c _ =>
                  forall l', c = Val l' ->
                    (q_bestMove l' = q_bestMove l /\ q_alpha l' = q_alpha l
                     /\ q_bestValue l <= q_bestValue l' <= q_alpha l)
                    \/ (q_alpha l < q_alpha l'
                        /\ q_bestValue l' = q_alpha l')) s).
  { clear. intros n. induction n as [|n IH]; intros mp l s Hba; simpl; [done|].
    assert (Hrec : forall mp l0 (s0 : St),
              (q_bestMove l0 = q_bestMove l /\ q_alpha l0 = q_alpha l
               /\ q_bestValue l <= q_bestValue l0 <= q_alpha l)
              \/ (q_alpha l < q_alpha l0 /\ q_bestValue l0 = q_alpha l0) ->
              wp (qsearch_moves rec n inCheck color beta ss mp l0)
                 (fun c _ =>
                    forall l', c = Val l' ->
                      (q_bestMove l' = q_bestMove l /\ q_alpha l' = q_alpha l
                       /\ q_bestValue l <= q_bestValue l' <= q_alpha l)
                      \/ (q_alpha l < q_alpha l'
                          /\ q_bestValue l' = q_alpha l')) s0).
    { intros mp0 l0 s0 H0l. eapply wp_mono; [|apply IH; lia].
      intros c s' Hc l' ->. specialize (Hc l' eq_refl). lia. }
    repeat wp_step; try (apply Hrec; lia);
      try (intros l' Heq; inversion Heq; subst l'; lia).
    eapply wp_call; [intros v s' _; exact I|]. simpl. intros v s' _.
    repeat wp_step; zbool;
      try (apply Hrec; simpl; lia);
      try (intros l' Heq; inversion Heq; subst l'; simpl; lia). }
  specialize (Hwp n mp l s Hba). unfold wp in Hwp. rewrite Hrun in Hwp. auto.
Qed.

End BestMove.
Lemma wp_true {S A} (m : M (S:=S) A) (s : S) : wp m (fun _ _ => True) s.
Proof. unfold wp. by destruct (m s) as [[c s']|]. Qed.

Section BestMoveAb.
Context `{Consts} `{Extern}.
Variable cfg : Config.

#[local] Abbreviation St := (Search Board TranspositionTable).

(** X25: the move loop of [absearch] replaces the best move only when it
    raises [alpha], and from then on the best value is [alpha]; until
    then the best value stays at or below the [alpha] it started with. *)
Theorem absearch_moves_best_move arec n node e ss mp l (s : St) l' s' :
  a_best l <= a_alpha l ->
  absearch_moves cfg arec n node e ss mp l s = Some (Val l', s') ->
  (a_bestMove l' = a_bestMove l /\ a_alpha l' = a_alpha l
   /\ a_best l <= a_best l' <= a_alpha l)
  \/ (a_alpha l < a_alpha l' /\ a_best l' = a_alpha l').
Proof.
  intros Hba Hrun.
  assert (Hwp : forall n mp l (s : St),
            a_best l <= a_alpha l ->
            wp (absearch_moves cfg arec n node e ss mp l)
               (fun c _ =>
                  forall l', c = Val l' ->
                    (a_bestMove l' = a_bestMove l /\ a_alpha l' = a_alpha l
                     /\ a_best l <= a_best l' <= a_alpha l)
                    \/ (a_alpha l < a_alpha l' /\ a_best l' = a_alpha l')) s).
  { clear. intros n. induction n as [|n IH]; intros mp l s Hba; simpl; [done|].
    assert (Hrec : forall mp l0 (s0 : St),
              (a_bestMove l0 = a_bestMove l /\ a_alpha l0 = a_alpha l
               /\ a_best l <= a_best l0 <= a_alpha l)
              \/ (a_alpha l < a_alpha l0 /\ a_best l0 = a_alpha l0) ->
              wp (absearch_moves cfg arec n node e ss mp l0)
                 (fun c _ =>
                    forall l', c = Val l' ->
                      (a_bestMove l' = a_bestMove l /\ a_alpha l' = a_alpha l
                       /\ a_best l <= a_best l' <= a_alpha l)
                      \/ (a_alpha l < a_alpha l' /\ a_best l' = a_alpha l'))
                 s0).
    { intros mp0 l0 s0 H0l. eapply wp_mono; [|apply IH; lia].
      intros c s' Hc l' ->. specialize (Hc l' eq_refl). lia. }
    repeat wp_step; try (apply Hrec; simpl; lia);
      try (intros l' Heq; inversion Heq; subst l'; lia).
    eapply wp_mono; [|apply wp_true]. intros [v|ext] s1 _; [done|].
    repeat wp_step.
    eapply wp_mono; [|apply wp_true]. intros [v|[]] s2 _; [done|].
    repeat wp_step.
    eapply wp_mono; [|apply wp_true]. intros [v|score] s3 _; [done|].
    repeat wp_step; zbool;
      try (apply Hrec; repeat case_match; simpl; lia);
      try (intros l' Heq; inversion Heq; subst l'; simpl; lia). }
  specialize (Hwp n mp l s Hba). unfold wp in Hwp. rewrite Hrun in Hwp. auto.
Qed.

End BestMoveAb.
(** ** Edges of the aspiration search *)

Section AspirationEdges.
Context `{Consts} `{Extern}.
Variable cfg : Config.

#[local] Abbreviation St := (Search Board TranspositionTable).

(** X15: when the stop flag or the node limit of the main thread is met
    after the first search of the root, the aspiration search returns 0
    and prints nothing. *)
Theorem aspirationSearch_aborted
    (root : Z -> Score -> Score -> Z -> Fn (S:=St)) (n : nat)
    (depth : Z) (prevEval : Score) (ss : Z) (s s1 : St) (r : Score) :
  root depth (w_alpha (window_slack (aspiration_window depth prevEval)))
    (w_beta (window_slack (aspiration_window depth prevEval))) ss s
  = Some (r, s1) ->
  search_aborted cfg s1 = true ->
  exists s2,
    aspirationSearch_with cfg root (Datatypes.S n) depth prevEval ss s
    = Some (0, s2)
    /\ output s2 = output s1
    /\ clock_reads s2 = clock_reads s1
    /\ nodes s2 = nodes s1.
Proof.
  intros Hroot Habort. unfold aspirationSearch_with, fn.
  unfold bind at 1. cbn [aspiration_loop]. cbv zeta.
  unfold bind at 1, call. rewrite Hroot.
  unfold bind at 1, load_stopped. unfold search_aborted in Habort.
  destruct (stopped s1 || external_stop (loads s1)) eqn:Hseen.
  { unfold return_. eexists. split; [reflexivity|]. done. }
  simpl in Habort. unfold bind at 1, gets. simpl.
  rewrite Habort. unfold return_. eexists. split; [reflexivity|]. done.
Qed.

(** X16: below depth 9 the root is searched on the full window; a result
    strictly inside it ends the aspiration search after that one search,
    and the main thread of a normal search prints one line. *)
Theorem aspirationSearch_full_window
    (root : Z -> Score -> Score -> Z -> Fn (S:=St)) (n : nat)
    (depth : Z) (prevEval : Score) (ss : Z) (s s1 : St) (r : Score) :
  depth < 9 ->
  root depth (- VALUE_INFINITE) VALUE_INFINITE ss s = Some (r, s1) ->
  search_aborted cfg s1 = false ->
  - VALUE_INFINITE < r < VALUE_INFINITE ->
  exists s2,
    aspirationSearch_with cfg root (Datatypes.S n) depth prevEval ss s
    = Some (r, s2)
    /\ if (id cfg =? 0) && normalSearch cfg
       then exists line, output s2 = line :: output s1
       else output s2 = output s1.
Proof.
  intros Hd Hroot Habort Hr. pose proof infinite_above_3500 as Hinf.
  unfold aspirationSearch_with, fn, aspiration_window.
  destruct (Z.geb_spec depth 9); [lia|].
  unfold bind at 1. cbn [aspiration_loop]. cbv zeta.
  unfold window_slack. simpl.
  destruct (Z.ltb_spec (- VALUE_INFINITE) (-3500)); [|lia].
  destruct (Z.gtb_spec VALUE_INFINITE 3500); [|lia].
  unfold bind at 1, call. rewrite Hroot.
  unfold bind at 1, load_stopped. unfold search_aborted in Habort.
  apply orb_false_elim in Habort as [Hseen Hnodes]. rewrite Hseen.
  unfold bind at 1, gets. simpl. rewrite Hnodes.
  unfold window_next. simpl.
  destruct (Z.leb_spec r (- VALUE_INFINITE)); [lia|].
  destruct (Z.geb_spec r VALUE_INFINITE); [lia|].
  unfold bind, when, getTime, gets, print, modify, ret.
  destruct ((id cfg =? 0) && normalSearch cfg); simpl;
    eexists; (split; [reflexivity|]); simpl; eauto.
Qed.

End AspirationEdges.

(** ** The principal variation *)

Lemma pv_copy (p : Z) (js : list Z) :
  forall t : list (list Move),
    0 <= p -> (Z.to_nat p < length t)%nat ->
    Forall (fun j => 0 <= j /\ (Z.to_nat j < length (zget t p))%nat) js ->
    let t' := fold_left
                (fun t j => zset2 t p j (zget2 t (p + 1) j)) js t in
    length t' = length t
    /\ length (zget t' p) = length (zget t p)
    /\ (forall i, i <> p -> zget t' i = zget t i)
    /\ (forall j, zget2 t' p j
                  = if bool_decide (j ∈ js) then zget2 t (p + 1) j
                    else zget2 t p j).
Proof.
  induction js as [|j js IH]; intros t Hp Hlen Hjs; cbn [fold_left].
  { cbv zeta. repeat split; done. }
  apply Forall_cons in Hjs as [[Hj0 Hj] Hjs].
  set (t1 := zset2 t p j (zget2 t (p + 1) j)).
  assert (Hrow : zget t1 p = zset (zget t p) j (zget2 t (p + 1) j)).
  { subst t1. unfold zset2. by rewrite zget_zset_eq. }
  assert (Hother : forall i, i <> p -> zget t1 i = zget t i).
  { intros i Hi. subst t1. unfold zset2. by rewrite zget_zset_ne. }
  assert (Hlen1 : length t1 = length t).
  { subst t1. unfold zset2. by rewrite length_zset. }
  destruct (IH t1) as (Hl & Hlr & Ho & Hc); [done|lia| |].
  { rewrite Hrow, length_zset. exact Hjs. }
  cbv zeta. split; [lia|]. split; [by rewrite Hlr, Hrow, length_zset|].
  split; [intros i Hi; by rewrite Ho, Hother|].
  intros j'. rewrite Hc. unfold zget2 at 1 2. rewrite Hother by lia.
  rewrite Hrow. fold (zget2 t (p + 1) j').
  destruct (decide (j' = j)) as [->|Hne].
  - rewrite zget_zset_eq by done.
    rewrite (bool_decide_eq_true_2 (j ∈ j :: js)) by (by left).
    by case_bool_decide.
  - rewrite zget_zset_ne by done. fold (zget2 t p j').
    destruct (decide (j' ∈ js)) as [Hin|Hnin].
    + rewrite (bool_decide_eq_true_2 (j' ∈ js)) by done.
      by rewrite (bool_decide_eq_true_2 (j' ∈ j :: js)) by (by right).
    + rewrite (bool_decide_eq_false_2 (j' ∈ js)) by done.
      by rewrite (bool_decide_eq_false_2 (j' ∈ j :: js))
        by (intros [?|?]%elem_of_cons; done).
Qed.

Section PvFacts.
Context `{Consts} `{Extern}.

#[local] Abbreviation St := (Search Board TranspositionTable).

(** X17: after [update_pv] the line of ply [p] is the move followed by
    the line of ply [p + 1], with the length of that line; the lines of
    the other plies are as before. *)
Theorem update_pv_line (p : Z) (move : Move) (s : St) :
  0 <= p ->
  (Z.to_nat (p + 1) < length (pvTable s))%nat ->
  (Z.to_nat p < length (pvLength s))%nat ->
  (Z.to_nat (Z.max (p + 1) (zget (pvLength s) (p + 1)))
   <= length (zget (pvTable s) p))%nat ->
  let s' := update_pv p move s in
  zget (pvLength s') p = zget (pvLength s) (p + 1)
  /\ zget2 (pvTable s') p p = move
  /\ (forall j, p + 1 <= j < zget (pvLength s) (p + 1) ->
        zget2 (pvTable s') p j = zget2 (pvTable s) (p + 1) j)
  /\ (forall i, i <> p -> zget (pvTable s') i = zget (pvTable s) i).
Proof.
  intros Hp Hrows Hlen Hrow. cbv zeta. unfold update_pv. simpl.
  set (n := zget (pvLength s) (p + 1)) in *.
  set (t1 := zset2 (pvTable s) p p move).
  assert (Hrow1 : zget t1 p = zset (zget (pvTable s) p) p move).
  { subst t1. unfold zset2. rewrite zget_zset_eq; [done|lia|lia]. }
  assert (Hother1 : forall i, i <> p -> zget t1 i = zget (pvTable s) i).
  { intros i Hi. subst t1. unfold zset2. by rewrite zget_zset_ne. }
  destruct (pv_copy p (zrange (p + 1) n) t1) as (Hl & Hlr & Ho & Hc).
  { done. }
  { subst t1. unfold zset2. rewrite length_zset. lia. }
  { apply Forall_forall. intros j Hj. apply elem_of_zrange in Hj.
    rewrite Hrow1, length_zset. lia. }
  split; [by rewrite zget_zset_eq|]. split; [|split].
  - rewrite Hc. rewrite bool_decide_eq_false_2.
    + unfold zget2. rewrite Hrow1. apply zget_zset_eq; lia.
    + rewrite elem_of_zrange. lia.
  - intros j Hj. rewrite Hc. rewrite bool_decide_eq_true_2.
    + unfold zget2. by rewrite Hother1 by lia.
    + apply elem_of_zrange. lia.
  - intros i Hi. by rewrite Ho, Hother1.
Qed.

Lemma string_app_assoc (a b c : string) :
  ((a ++ b) ++ c = a ++ (b ++ c))%string.
Proof. induction a as [|ch a IH]; simpl; [done|by f_equal]. Qed.

Lemma string_app_nil_r (a : string) : (a ++ "" = a)%string.
Proof. induction a as [|ch a IH]; simpl; [done|by f_equal]. Qed.

Lemma fold_append_prefix {A} (f : A -> string) (l : list A) (a b : string) :
  fold_left (fun acc i => (acc ++ f i)%string) l (a ++ b)%string
  = (a ++ fold_left (fun acc i => (acc ++ f i)%string) l b)%string.
Proof.
  revert b. induction l as [|i l IH]; intros b; simpl; [done|].
  by rewrite string_app_assoc, IH.
Qed.

Lemma fold_append_ext {A} (f g : A -> string) (l : list A) (a : string) :
  (forall i, i ∈ l -> f i = g i) ->
  fold_left (fun acc i => (acc ++ f i)%string) l a
  = fold_left (fun acc i => (acc ++ g i)%string) l a.
Proof.
  revert a. induction l as [|i l IH]; intros a Hfg; simpl; [done|].
  rewrite (Hfg i) by (by left). apply IH. intros j Hj. apply Hfg. by right.
Qed.

Lemma zrange_cons (lo hi : Z) :
  lo < hi -> zrange lo hi = lo :: zrange (lo + 1) hi.
Proof.
  intros Hlt. unfold zrange.
  replace (Z.to_nat (hi - lo))
    with (Datatypes.S (Z.to_nat (hi - (lo + 1)))) by lia.
  simpl. f_equal; [lia|].
  rewrite <- seq_shift, map_map. apply map_ext. intros k. lia.
Qed.

(** The line of the root after [update_pv]. *)
Lemma update_pv_root (move : Move) (s : St) :
  (1 < length (pvTable s))%nat ->
  (0 < length (pvLength s))%nat ->
  (Z.to_nat (zget (pvLength s) 1) <= length (zget (pvTable s) 0))%nat ->
  1 <= zget (pvLength s) 1 ->
  zget (pvLength (update_pv 0 move s)) 0 = zget (pvLength s) 1
  /\ zget2 (pvTable (update_pv 0 move s)) 0 0 = move
  /\ (forall j, 1 <= j < zget (pvLength s) 1 ->
        zget2 (pvTable (update_pv 0 move s)) 0 j = zget2 (pvTable s) 1 j).
Proof.
  intros Hrows Hlen Hrow Hn. unfold update_pv. simpl.
  change (0 + 1) with 1.
  set (n := zget (pvLength s) 1) in *.
  set (t1 := zset2 (pvTable s) 0 0 move).
  assert (Hrow1 : zget t1 0 = zset (zget (pvTable s) 0) 0 move).
  { subst t1. unfold zset2. rewrite zget_zset_eq; [done|lia|simpl; lia]. }
  assert (Hother1 : zget t1 1 = zget (pvTable s) 1).
  { subst t1. unfold zset2. by rewrite zget_zset_ne. }
  destruct (pv_copy 0 (zrange 1 n) t1) as (_ & _ & _ & Hc).
  { done. }
  { subst t1. unfold zset2. rewrite length_zset. simpl. lia. }
  { apply Forall_forall. intros j Hj. apply elem_of_zrange in Hj.
    rewrite Hrow1, length_zset. lia. }
  change (0 + 1) with 1 in Hc.
  split; [rewrite zget_zset_eq; [done|lia|simpl; lia]|]. split.
  - rewrite Hc, bool_decide_eq_false_2 by (rewrite elem_of_zrange; lia).
    unfold zget2. rewrite Hrow1. apply zget_zset_eq; [lia|simpl; lia].
  - intros j Hj.
    rewrite Hc, bool_decide_eq_true_2 by (apply elem_of_zrange; lia).
    unfold zget2. by rewrite Hother1.
Qed.

(** X26: after the PV update at the root, the line that [getPV] prints
    is the new best move followed by the line of ply 1 from its second
    entry on. *)
Theorem getPV_update_pv (move : Move) (s : St) :
  (1 < length (pvTable s))%nat ->
  (0 < length (pvLength s))%nat ->
  (Z.to_nat (zget (pvLength s) 1) <= length (zget (pvTable s) 0))%nat ->
  1 <= zget (pvLength s) 1 ->
  getPV (update_pv 0 move s)
  = (" " ++ uciMove move
     ++ fold_left
          (fun acc i => acc ++ " " ++ uciMove (zget2 (pvTable s) 1 i))
          (zrange 1 (zget (pvLength s) 1)) "")%string.
Proof.
  intros Hrows Hlen Hrow Hn.
  destruct (update_pv_root move s) as (Hl & H00 & Hcopy); [done..|].
  unfold getPV. rewrite Hl.
  rewrite zrange_cons by lia. cbn [fold_left]. rewrite H00.
  change (0 + 1) with 1.
  rewrite (fold_append_ext _
             (fun i => (" " ++ uciMove (zget2 (pvTable s) 1 i))%string)).
  - change ("" ++ " " ++ uciMove move)%string
      with (" " ++ uciMove move)%string.
    rewrite <- (string_app_nil_r (" " ++ uciMove move)) at 1.
    rewrite fold_append_prefix. by rewrite string_app_assoc.
  - intros i Hi. apply elem_of_zrange in Hi. by rewrite Hcopy by lia.
Qed.

End PvFacts.
(** ** What a search leaves unchanged *)

Section StackKept.

Lemma stack_kept_refl ss st : stack_kept ss st st.
Proof. done. Qed.

Lemma stack_kept_trans ss st1 st2 st3 :
  stack_kept ss st1 st2 -> stack_kept ss st2 st3 -> stack_kept ss st1 st3.
Proof.
  intros (Hl1 & Hp1 & Hf1) (Hl2 & Hp2 & Hf2). split; [congruence|].
  split; intros i; [by rewrite Hp2|]. intros Hi. by rewrite Hf2, Hf1.
Qed.

Lemma stack_kept_mono ss ss' st st' :
  ss <= ss' -> stack_kept ss' st st' -> stack_kept ss st st'.
Proof.
  intros Hss (Hl & Hp & Hf). split; [done|]. split; [done|].
  intros i Hi. apply Hf. lia.
Qed.

Lemma zget_zset_cases {A} `{Inhabited A} (l : list A) (j : Z) (x : A) :
  zget (zset l j x) j = x \/ zset l j x = l.
Proof.
  destruct (Z.ltb_spec j 0) as [Hneg|Hpos].
  { right. unfold zset. destruct (Z.ltb_spec j 0); [done|lia]. }
  destruct (Nat.lt_ge_cases (Z.to_nat j) (length l)) as [Hin|Hout].
  - left. by apply zget_zset_eq.
  - right. unfold zset. destruct (Z.ltb_spec j 0); [done|].
    by apply list_insert_ge.
Qed.

Lemma stack_kept_zset ss st j (f : Stack -> Stack) :
  ss <= j -> (forall x, ply (f x) = ply x) ->
  stack_kept ss st (zset st j (f (zget st j))).
Proof.
  intros Hj Hf. split; [apply length_zset|]. split.
  - intros i. destruct (Z.eq_dec i j) as [->|Hne].
    + destruct (zget_zset_cases st j (f (zget st j))) as [->| ->]; auto.
    + by rewrite zget_zset_ne.
  - intros i Hi. apply zget_zset_ne. lia.
Qed.

End StackKept.

Section SearchKept.
Context `{Consts} `{Extern}.
Variable cfg : Config.

#[local] Abbreviation St := (Search Board TranspositionTable).

Lemma core_kept_refl (s : St) : core_kept cfg s s.
Proof. unfold core_kept. auto with zarith. Qed.

Lemma core_kept_trans (s1 s2 s3 : St) :
  core_kept cfg s1 s2 -> core_kept cfg s2 s3 -> core_kept cfg s1 s3.
Proof.
  intros (Hb1 & Hn1 & Hs1 & Hh1) (Hb2 & Hn2 & Hs2 & Hh2).
  split; [intros Hi; by rewrite Hb2, Hb1|]. split; [lia|].
  split; [auto|]. intros Hid.
  destruct (Hh1 Hid), (Hh2 Hid). split; congruence.
Qed.

Lemma tables_kept_refl (s : St) : tables_kept s s.
Proof. unfold tables_kept. auto 10. Qed.

Lemma tables_kept_trans (s1 s2 s3 : St) :
  tables_kept s1 s2 -> tables_kept s2 s3 -> tables_kept s1 s3.
Proof.
  unfold tables_kept. intros H1 H2. decompose [and] H1. decompose [and] H2.
  repeat split; congruence.
Qed.

Lemma search_kept_refl ss (s : St) : search_kept cfg ss s s.
Proof.
  split; [apply core_kept_refl|]. split; [lia|].
  split; [apply stack_kept_refl|]. done.
Qed.

Lemma search_kept_trans ss (s1 s2 s3 : St) :
  search_kept cfg ss s1 s2 -> search_kept cfg ss s2 s3 ->
  search_kept cfg ss s1 s3.
Proof.
  intros (Hc1 & Ht1 & Hs1 & Hh1) (Hc2 & Ht2 & Hs2 & Hh2).
  split; [by eapply core_kept_trans|]. split; [lia|].
  split; [by eapply stack_kept_trans|]. intros Hid.
  destruct (Hh1 Hid), (Hh2 Hid). split; congruence.
Qed.

Lemma search_kept_mono ss ss' (s s' : St) :
  ss <= ss' -> search_kept cfg ss' s s' -> search_kept cfg ss s s'.
Proof.
  intros Hss (Hc & Ht & Hs & Hh). split; [done|]. split; [done|].
  split; [by eapply stack_kept_mono|done].
Qed.

Lemma tables_search_kept ss (s s' : St) :
  core_kept cfg s s' -> tables_kept s s' -> search_kept cfg ss s s'.
Proof.
  unfold tables_kept. intros Hc Ht. decompose [and] Ht.
  split; [done|]. split; [lia|]. split; [|done].
  replace (stack s') with (stack s). apply stack_kept_refl.
Qed.

(** The limit check touches the stop flag, [checkTime] and the clock
    only, the latter two on the main thread only. *)
Lemma limitReached_kept (s : St) :
  wp (limitReached cfg)
     (fun c s' => core_kept cfg s s' /\ tables_kept s s'
                  /\ board s' = board s /\ nodes s' = nodes s
                  /\ exists b, c = Val b) s.
Proof.
  unfold limitReached, wp, bind, load_stopped, getTime, gets, modify, ret,
    core_kept, tables_kept.
  simpl.
  destruct (Z.eqb_spec (id cfg) 0) as [Hid|Hid]; simpl;
  destruct (normalSearch cfg); simpl;
    [destruct (stopped s || external_stop (loads s)) eqn:Hseen; simpl| |
     destruct (stopped s || external_stop (loads s)) eqn:Hseen; simpl|];
    try (destruct (negb (limit_nodes (limit cfg) =? 0)
                   && (nodes s >=? limit_nodes (limit cfg))); simpl;
         [|destruct (checkTime s - 1 >? 0); simpl;
           [|destruct (negb (maximum (limit_time (limit cfg)) =? 0)); simpl;
             [destruct (clock (clock_reads s)
                        >=? maximum (limit_time (limit cfg))); simpl|]]]);
    repeat split; eauto; try lia; try done;
    intros Hs; rewrite Hs in Hseen; done.
Qed.

(** *** [qsearch] *)

Lemma qsearch_store_kept beta ss l (s : St) :
  wp (qsearch_store cfg beta ss l)
     (fun _ s' => core_kept cfg s s' /\ tables_kept s s') s.
Proof.
  unfold qsearch_store, wp, bind, load_stopped, gets, when,
    TTable_storeEntry, modify, ret, core_kept, tables_kept.
  destruct (normalSearch cfg); simpl;
    [destruct (stopped s || external_stop (loads s)) eqn:Hseen; simpl|];
    repeat split; eauto; try lia;
    intros Hs; rewrite Hs in Hseen; done.
Qed.

Lemma qsearch_make_unmake (s s' : St) (move : Move) :
  core_kept cfg
    (set_board (makeMove true (board s) move) (set_nodes (nodes s + 1) s)) s'
  /\ tables_kept
       (set_board (makeMove true (board s) move) (set_nodes (nodes s + 1) s))
       s' ->
  core_kept cfg s (set_board (unmakeMove false (board s') move) s')
  /\ tables_kept s (set_board (unmakeMove false (board s') move) s').
Proof.
  unfold core_kept, tables_kept. simpl.
  intros ((Hb & Hn & Hs & Hh) & Ht). split; [|done].
  split; [intros Hi; rewrite (Hb Hi); apply Hi|].
  split; [lia|done].
Qed.

Section QMoves.
Variable rec : Score -> Score -> Z -> Fn (S:=St).
Hypothesis rec_kept :
  forall a b ss s v s',
    rec a b ss s = Some (v, s') -> core_kept cfg s s' /\ tables_kept s s'.

Lemma qsearch_moves_kept n inCheck color beta ss :
  forall mp l (s : St),
    wp (qsearch_moves rec n inCheck color beta ss mp l)
       (fun _ s' => core_kept cfg s s' /\ tables_kept s s') s.
Proof.
  induction n as [|n IH]; intros mp l s; simpl; [done|].
  assert (Hrefl : core_kept cfg s s /\ tables_kept s s)
    by (split; [apply core_kept_refl|apply tables_kept_refl]).
  repeat wp_step; try done; try apply IH.
  eapply wp_call; [intros v s'; apply rec_kept|].
  simpl. intros v s' Hs'. apply qsearch_make_unmake in Hs'.
  destruct Hs' as [Hc Ht].
  repeat wp_step; try done;
    (eapply wp_mono; [|apply IH]; intros c s'' [Hc' Ht'];
     split; [by eapply core_kept_trans|by eapply tables_kept_trans]).
Qed.

Lemma qsearch_body_kept n node alpha beta ss (s : St) :
  wp (qsearch_body cfg rec n node alpha beta ss)
     (fun _ s' => core_kept cfg s s' /\ tables_kept s s') s.
Proof.
  unfold qsearch_body. wp_step.
  eapply wp_mono; [|apply limitReached_kept].
  intros c s1 (Hc1 & Ht1 & _ & _ & b & ->).
  repeat wp_step; try done.
  eapply wp_mono; [|apply qsearch_moves_kept].
  intros c s2 [Hc2 Ht2].
  assert (Hc12 : core_kept cfg s s2) by (by eapply core_kept_trans).
  assert (Ht12 : tables_kept s s2) by (by eapply tables_kept_trans).
  destruct c as [v|l]; [done|].
  eapply wp_mono; [|apply qsearch_store_kept].
  intros c s3 [Hc3 Ht3].
  split; [by eapply core_kept_trans|by eapply tables_kept_trans].
Qed.

End QMoves.

Lemma qsearch_kept fuel :
  forall node alpha beta ss (s : St) v s',
    qsearch cfg fuel node alpha beta ss s = Some (v, s') ->
    core_kept cfg s s' /\ tables_kept s s'.
Proof.
  induction fuel as [|fuel IH]; intros node alpha beta ss s v s' Hq;
    simpl in Hq; [done|].
  eapply (wp_fn _ (fun _ s' => core_kept cfg s s' /\ tables_kept s s'));
    [|exact Hq].
  eapply wp_mono; [|apply qsearch_body_kept].
  - by intros [w|w] t.
  - intros. eapply IH; eauto.
Qed.

End SearchKept.
(** *** [absearch] *)

Section HistoryFields.
Context `{Consts} `{Extern}.

#[local] Abbreviation St := (Search Board TranspositionTable).

Lemma set_history_same (s : St) : set_history (history s) s = s.
Proof. by destruct s. Qed.

Lemma updateHistory_fields (bestmove : Move) (b depth : Z)
    (quiets : list Move) (quietCount : Z) (s : St) :
  exists h, updateHistory bestmove b depth quiets quietCount s
            = set_history h s.
Proof.
  unfold updateHistory.
  set (s1 := if depth >? 1 then _ else _).
  assert (Hs1 : exists h, s1 = set_history h s).
  { subst s1. case_match; [by eexists|].
    exists (history s). by rewrite set_history_same. }
  clearbody s1. destruct Hs1 as [h ->]. revert h.
  induction (zrange 0 quietCount) as [|i rest IH]; intros h; simpl;
    [by eexists|].
  case_match; [apply IH|]. unfold updateHistoryBonus. simpl. apply IH.
Qed.

(** [updateAllHistories] writes the butterfly table and the killers
    only. *)
Lemma updateAllHistories_fields (bestMove : Move) (best beta : Score)
    (depth : Z) (quiets : list Move) (quietCount : Z) (ss : Z) (s : St) :
  exists h k,
    updateAllHistories bestMove best beta depth quiets quietCount ss s
    = set_history h (set_killerMoves k s).
Proof.
  assert (Hsame : exists h k, s = set_history h (set_killerMoves k s)).
  { exists (history s), (killerMoves s). by destruct s. }
  unfold updateAllHistories. case_match; [done|]. case_match; [|done].
  match goal with
  | |- context [updateHistory ?a ?b ?c ?d ?e ?t] =>
    destruct (updateHistory_fields a b c d e t) as [h ->]
  end.
  by eexists _, _.
Qed.

End HistoryFields.

(** The facts that the relations stand for, as hypotheses. *)
Ltac kept_open :=
  repeat match goal with
  | H : search_kept _ _ _ _ |- _ =>
    unfold search_kept in H; try unfold frame in H; simpl in H;
    destruct H as (? & ? & ? & ?)
  | H : core_kept _ _ _ |- _ =>
    unfold core_kept in H; simpl in H; destruct H as (? & ? & ? & ?)
  | H : tables_kept _ _ |- _ =>
    unfold tables_kept in H; simpl in H; decompose [and] H; clear H
  end.

(** [stack_kept] along a chain of states and frame updates. *)
Ltac stack_solve :=
  first
    [ apply stack_kept_refl
    | match goal with
      | |- stack_kept ?ss ?A (zset ?B ?j (?g ?v (zget ?B ?j))) =>
        apply (stack_kept_trans ss A B);
          [stack_solve
          |apply (stack_kept_zset ss B j (g v)); [lia|intros; reflexivity]]
      | Heq : stack ?t = _ |- stack_kept _ _ (stack ?t) =>
        rewrite Heq; stack_solve
      | Hk : stack_kept ?k ?B (stack ?t) |- stack_kept ?ss ?A (stack ?t) =>
        apply (stack_kept_trans ss A B);
          [stack_solve
          |apply (stack_kept_mono ss k); [lia|exact Hk]]
      end ].

Ltac board_solve :=
  let Hinv := fresh "Hinv" in
  intros Hinv;
  repeat match goal with
  | H : inverse_moves -> _ |- _ => specialize (H Hinv)
  end;
  destruct Hinv as [? ?];
  repeat match goal with
  | H : board _ = _ |- _ => rewrite H
  end;
  auto; congruence.

Ltac helper_solve :=
  let Hid := fresh "Hid" in
  intros Hid;
  repeat match goal with
  | H : id _ <> 0 -> _ |- _ => specialize (H Hid); destruct H
  end;
  zbool; try contradiction; repeat split; congruence.

Ltac kept_auto :=
  kept_open;
  repeat match goal with
  | |- context [updateAllHistories ?a ?b ?c ?d ?e ?f ?g ?t] =>
    destruct (updateAllHistories_fields a b c d e f g t) as (? & ? & ->)
  end;
  try unfold update_pv; try unfold logged_store; try unfold frame;
  unfold search_kept, core_kept; simpl;
  repeat match goal with |- _ /\ _ => split end;
  first [ lia | done | stack_solve | by eauto | board_solve | helper_solve ].

Section AbsearchKept.
Context `{Consts} `{Extern}.
Variable cfg : Config.

#[local] Abbreviation St := (Search Board TranspositionTable).

Lemma wp_from ss (s0 s : St) {A} (m : M (S:=St) A) :
  search_kept cfg ss s0 s ->
  wp m (fun _ s' => search_kept cfg ss s s') s ->
  wp m (fun _ s' => search_kept cfg ss s0 s') s.
Proof.
  intros H0s. apply wp_mono. intros c s' Hs'.
  by eapply search_kept_trans.
Qed.

Lemma load_stopped_kept ss (s : St) :
  wp load_stopped
     (fun c s' => search_kept cfg ss s s' /\ tables_kept s s'
                  /\ exists b, c = Val b) s.
Proof.
  unfold wp, load_stopped. simpl.
  split; [|split; [unfold tables_kept; simpl; auto 10|by eexists]].
  unfold search_kept, core_kept. simpl.
  repeat split; try lia; try done.
  intros ->. done.
Qed.

Section Body.
Variable qrec : Node -> Score -> Score -> Z -> Fn (S:=St).
Variable arec : Node -> Z -> Score -> Score -> Z -> Fn (S:=St).
Hypothesis qrec_kept :
  forall node a b ss s v s',
    qrec node a b ss s = Some (v, s') -> search_kept cfg ss s s'.
Hypothesis arec_kept :
  forall node d a b ss s v s',
    arec node d a b ss s = Some (v, s') -> search_kept cfg ss s s'.

Lemma absearch_tb_kept node depth p alpha beta best maxValue ss (s : St) :
  wp (absearch_tb cfg node depth p alpha beta best maxValue)
     (fun _ s' => search_kept cfg ss s s') s.
Proof.
  unfold absearch_tb, TTable_storeEntry.
  repeat wp_step; kept_auto.
Qed.

Lemma absearch_early_kept node inCheck color ex ttHit tte depth alpha beta ss
    (s : St) :
  wp (absearch_early qrec arec node inCheck color ex ttHit tte depth alpha
        beta ss)
     (fun _ s' => search_kept cfg ss s s') s.
Proof.
  unfold absearch_early.
  repeat wp_step; try kept_auto.
  - eapply wp_call; [intros v s'; apply qrec_kept|].
    simpl. intros v s' Hs'. wp_step. kept_auto.
  - eapply wp_call; [intros v s'; apply qrec_kept|].
    simpl. intros v s' Hs'. wp_step. kept_auto.
  - eapply wp_call; [intros v s'; apply arec_kept|].
    simpl. intros v s' Hs'.
    repeat wp_step; kept_auto.
Qed.

Lemma absearch_singular_kept node e move ss (s : St) :
  wp (absearch_singular arec node e move ss)
     (fun _ s' => search_kept cfg ss s s') s.
Proof.
  unfold absearch_singular.
  repeat wp_step; try kept_auto.
  eapply wp_call; [intros v s'; apply arec_kept|].
  simpl. intros v s' Hs'.
  repeat wp_step; kept_auto.
Qed.

Lemma absearch_child_kept node e l madeMoves newDepth ss (s : St) :
  wp (absearch_child cfg arec node e l madeMoves newDepth ss)
     (fun c s' => search_kept cfg (ss + 1) s s' /\ exists v, c = Val v) s.
Proof.
  unfold absearch_child.
  assert (Hcall : forall (s0 s : St) nd d a b (Q : Ctl Score -> St -> Prop),
            search_kept cfg (ss + 1) s0 s ->
            (forall v s', search_kept cfg (ss + 1) s0 s' -> Q (Val v) s') ->
            wp (call (arec nd d a b (ss + 1))) Q s).
  { intros s0 s1 nd d a b Q H01 HQ.
    eapply wp_call; [intros v s'; apply arec_kept|]. simpl.
    intros v s' Hs'. apply HQ. by eapply search_kept_trans. }
  pose proof (search_kept_refl cfg (ss + 1) s) as Hrefl.
  repeat first
    [ wp_step
    | eapply Hcall; [eassumption|intros ? ? ?] ]; eauto.
Qed.

Lemma absearch_currmove_kept node e move madeMoves ss (s : St) :
  wp (absearch_currmove cfg node e move madeMoves)
     (fun _ s' => search_kept cfg ss s s' /\ board s' = board s
                  /\ nodes s' = nodes s /\ stack s' = stack s) s.
Proof.
  unfold absearch_currmove, wp, bind, load_stopped, getTime, when, print,
    modify, ret.
  destruct ((id cfg =? 0) && isRoot node && normalSearch cfg) eqn:Hmain;
    simpl; [|split; [apply search_kept_refl|done]].
  assert (Hid : id cfg = 0).
  { apply andb_prop in Hmain as [Hmain _].
    apply andb_prop in Hmain as [Hmain _]. lia. }
  destruct (stopped s || external_stop (loads s)) eqn:Hseen; simpl;
    [|destruct (clock (clock_reads s) >? 10000); simpl];
    (split; [|done]); unfold search_kept, core_kept; simpl;
    repeat split; try lia; try done;
    intros Hs; rewrite Hs in Hseen; done.
Qed.

Lemma absearch_finish_kept node e ss l (s : St) :
  wp (absearch_finish cfg node e ss l)
     (fun _ s' => search_kept cfg ss s s') s.
Proof.
  unfold absearch_finish, wp, bind, load_stopped, gets, when,
    TTable_storeEntry, modify, ret, search_kept, core_kept.
  destruct (negb (ae_excludedMove e =? 0)); simpl;
    [|destruct (normalSearch cfg); simpl;
      [destruct (stopped s || external_stop (loads s)) eqn:Hseen; simpl|]];
    repeat split; try lia; try done;
    intros Hs; rewrite Hs in Hseen; done.
Qed.

Lemma absearch_moves_kept n node e ss :
  forall mp l (s : St),
    wp (absearch_moves cfg arec n node e ss mp l)
       (fun _ s' => search_kept cfg ss s s') s.
Proof.
  induction n as [|n IH]; intros mp l s; simpl; [done|].
  repeat wp_step; try apply search_kept_refl; try apply IH.
  eapply wp_mono; [|apply absearch_singular_kept].
  intros [v|ext] s1 H1; [done|].
  repeat wp_step.
  eapply wp_mono; [|apply (absearch_currmove_kept _ _ _ _ ss)].
  intros [v|[]] s2 (H2 & Hb2 & Hn2 & Hs2); [by eapply search_kept_trans|].
  repeat wp_step.
  eapply wp_mono; [|apply absearch_child_kept].
  intros c s3 [H3 [score ->]].
  repeat wp_step;
    try (eapply wp_from; [|apply IH]);
    kept_auto.
Qed.

Lemma absearch_body_kept n node depth alpha beta ss (s : St) :
  wp (absearch_body cfg qrec arec n node depth alpha beta ss)
     (fun _ s' => search_kept cfg ss s s') s.
Proof.
  unfold absearch_body. wp_step.
  eapply wp_mono; [|apply limitReached_kept].
  intros c s1 (Hc1 & Ht1 & _ & _ & b & ->).
  pose proof (tables_search_kept cfg ss s s1 Hc1 Ht1) as H1.
  clear Hc1 Ht1.
  destruct b; [by wp_step|].
  wp_step. wp_step. wp_step; [by wp_step|].
  wp_step. wp_step. wp_step.
  eapply wp_mono; [|apply absearch_draws_frame].
  intros [v|[alpha1 beta1]] s2 ->; [kept_auto|].
  wp_step.
  { wp_step.
    eapply wp_call; [intros v s'; apply qrec_kept|].
    simpl. intros v s3 H3. wp_step. kept_auto. }
  wp_step. wp_step. wp_step. wp_step. wp_step. wp_step. wp_step. wp_step.
  wp_step. wp_step.
  eapply wp_mono; [|apply absearch_ttcut_frame].
  set (s2 := (if isPv node && _ then _ else _) : St).
  assert (H2 : search_kept cfg ss s s2).
  { subst s2. case_match; kept_auto. }
  clearbody s2. clear H1.
  intros [v|[alpha2 beta2]] s3 ->; [done|].
  wp_step.
  eapply wp_mono; [|apply (absearch_tb_kept _ _ _ _ _ _ _ ss)].
  intros c s4 H4'.
  assert (H4 : search_kept cfg ss s s4) by (by eapply search_kept_trans).
  clear H4' H2. destruct c as [v|[[alpha3 best3] maxValue3]]; [done|].
  wp_step.
  eapply wp_mono; [|apply absearch_early_kept].
  intros c s5 H5'.
  assert (H5 : search_kept cfg ss s s5) by (by eapply search_kept_trans).
  clear H5' H4. destruct c as [v|[[depth4 staticEval4] improving4]]; [done|].
  wp_step.
  eapply wp_mono; [|apply absearch_moves_kept].
  intros c s6 H6'.
  assert (H6 : search_kept cfg ss s s6) by (by eapply search_kept_trans).
  clear H6' H5. destruct c as [v|l]; [done|].
  eapply wp_mono; [|apply absearch_finish_kept].
  intros c s7 H7. by eapply search_kept_trans.
Qed.

End Body.

Lemma absearch_kept fuel :
  forall node depth alpha beta ss (s : St) v s',
    absearch cfg fuel node depth alpha beta ss s = Some (v, s') ->
    search_kept cfg ss s s'.
Proof.
  induction fuel as [|fuel IH]; intros node depth alpha beta ss s v s' Ha;
    simpl in Ha; [done|].
  eapply (wp_fn _ (fun _ s' => search_kept cfg ss s s')); [|exact Ha].
  eapply wp_mono; [|apply absearch_body_kept].
  - by intros [w|w] t.
  - intros nd a b ss0 s0 v0 s0' Hq.
    destruct (qsearch_kept cfg fuel nd a b ss0 s0 v0 s0' Hq).
    by apply tables_search_kept.
  - intros. eapply IH; eauto.
Qed.

End AbsearchKept.
(** *** [aspirationSearch] *)

Section AspirationKept.
Context `{Consts} `{Extern}.
Variable cfg : Config.

#[local] Abbreviation St := (Search Board TranspositionTable).

Section Root.
Variable root : Z -> Score -> Score -> Z -> Fn (S:=St).
Hypothesis root_kept :
  forall d a b ss s v s',
    root d a b ss s = Some (v, s') -> search_kept cfg ss s s'.

Lemma aspiration_loop_kept n depth ss :
  forall w (s : St),
    wp (aspiration_loop cfg root n depth ss w)
       (fun _ s' => search_kept cfg ss s s') s.
Proof.
  induction n as [|n IH]; intros w s; cbn [aspiration_loop]; [done|].
  cbv zeta. wp_step.
  eapply wp_call; [intros v s'; apply root_kept|].
  simpl. intros r s1 H1. wp_step.
  eapply wp_mono; [|apply (load_stopped_kept cfg ss)].
  intros c s2 (H2 & _ & b & ->).
  assert (H12 : search_kept cfg ss s s2) by (by eapply search_kept_trans).
  repeat wp_step; try done.
  eapply wp_from; [exact H12|apply IH].
Qed.

Lemma aspirationSearch_with_kept n depth prevEval ss (s : St) v s' :
  aspirationSearch_with cfg root n depth prevEval ss s = Some (v, s') ->
  search_kept cfg ss s s'.
Proof.
  unfold aspirationSearch_with.
  apply (wp_fn _ (fun _ s' => search_kept cfg ss s s')).
  wp_step. eapply wp_mono; [|apply aspiration_loop_kept].
  intros [r|r] s1 H1; [done|].
  wp_step. unfold when.
  destruct ((id cfg =? 0) && normalSearch cfg) eqn:Hmain.
  - apply andb_prop in Hmain as [Hid _]. apply Z.eqb_eq in Hid.
    unfold wp, bind, getTime, gets, print, modify, ret. simpl.
    kept_auto.
  - repeat wp_step. done.
Qed.

End Root.

Lemma aspirationSearch_kept fuel depth prevEval ss (s : St) v s' :
  aspirationSearch cfg fuel depth prevEval ss s = Some (v, s') ->
  search_kept cfg ss s s'.
Proof.
  unfold aspirationSearch. apply aspirationSearch_with_kept.
  intros d a b ss0 s0 v0 s0'. apply absearch_kept.
Qed.

(** X18: when unmaking a move undoes making it, every search hands the
    board back as it got it. *)
Theorem search_restores_board fuel :
  (forall b m, unmakeMove false (makeMove true b m) m = b) ->
  (forall b, unmakeNullMove (makeNullMove b) = b) ->
  (forall node alpha beta ss (s : St) v s',
     qsearch cfg fuel node alpha beta ss s = Some (v, s') ->
     board s' = board s)
  /\ (forall node depth alpha beta ss (s : St) v s',
        absearch cfg fuel node depth alpha beta ss s = Some (v, s') ->
        board s' = board s)
  /\ (forall depth prevEval ss (s : St) v s',
        aspirationSearch cfg fuel depth prevEval ss s = Some (v, s') ->
        board s' = board s).
Proof.
  intros Hmove Hnull.
  assert (Hinv : inverse_moves) by (by split).
  split; [|split].
  - intros node alpha beta ss s v s' Hq.
    destruct (qsearch_kept cfg fuel node alpha beta ss s v s' Hq)
      as [(Hb & _) _]. auto.
  - intros node depth alpha beta ss s v s' Ha.
    destruct (absearch_kept cfg fuel node depth alpha beta ss s v s' Ha)
      as [(Hb & _) _]. auto.
  - intros depth prevEval ss s v s' Ha.
    destruct (aspirationSearch_kept fuel depth prevEval ss s v s' Ha)
      as [(Hb & _) _]. auto.
Qed.

(** X19: [qsearch] leaves the butterfly table, the killers, the
    principal variation, [seldepth], the effort table, the stack, the
    tablebase counter and the output as they were. *)
Theorem qsearch_keeps_tables fuel node alpha beta ss (s : St) v s' :
  qsearch cfg fuel node alpha beta ss s = Some (v, s') ->
  history s' = history s
  /\ killerMoves s' = killerMoves s
  /\ pvTable s' = pvTable s
  /\ pvLength s' = pvLength s
  /\ seldepth s' = seldepth s
  /\ spentEffort s' = spentEffort s
  /\ stack s' = stack s
  /\ tbhits s' = tbhits s
  /\ output s' = output s.
Proof.
  intros Hq.
  by destruct (qsearch_kept cfg fuel node alpha beta ss s v s' Hq) as [_ Ht].
Qed.

(** X20: a search on the frame [ss] writes no frame below [ss], changes
    the ply of no frame, and keeps the length of the stack. *)
Theorem absearch_keeps_stack fuel node depth alpha beta ss (s : St) v s' :
  absearch cfg fuel node depth alpha beta ss s = Some (v, s') ->
  length (stack s') = length (stack s)
  /\ (forall i, ply (frame s' i) = ply (frame s i))
  /\ (forall i, i < ss -> frame s' i = frame s i).
Proof.
  intros Ha.
  by destruct (absearch_kept cfg fuel node depth alpha beta ss s v s' Ha)
    as (_ & _ & Hs & _).
Qed.

(** X21: a thread other than the main one prints nothing in a whole
    aspiration search, and leaves the effort table, [checkTime] and the
    clock alone. *)
Theorem helper_search_silent fuel depth prevEval ss (s : St) v s' :
  id cfg <> 0 ->
  aspirationSearch cfg fuel depth prevEval ss s = Some (v, s') ->
  output s' = output s
  /\ spentEffort s' = spentEffort s
  /\ checkTime s' = checkTime s
  /\ clock_reads s' = clock_reads s.
Proof.
  intros Hid Ha.
  destruct (aspirationSearch_kept fuel depth prevEval ss s v s' Ha)
    as ((_ & _ & _ & Hc) & _ & _ & Ho).
  destruct (Hc Hid), (Ho Hid). done.
Qed.

(** X22: a search never lowers the node counter or the tablebase
    counter, and never clears a stop flag that was set. *)
Theorem search_counters_grow fuel depth prevEval ss (s : St) v s' :
  aspirationSearch cfg fuel depth prevEval ss s = Some (v, s') ->
  nodes s <= nodes s'
  /\ tbhits s <= tbhits s'
  /\ (stopped s = true -> stopped s' = true).
Proof.
  intros Ha.
  destruct (aspirationSearch_kept fuel depth prevEval ss s v s' Ha)
    as ((_ & Hn & Hs & _) & Ht & _). done.
Qed.

End AspirationKept.
(** ** The further statements on closed inputs *)

Section ClosedMore.
#[local] Existing Instance engine_consts.

Lemma outputScore_mate_witness :
  outputScore (mate_in 3) = ("mate " ++ to_string ((3 + 1) / 2))%string.
Proof. apply (outputScore_mate (H := engine_consts)). simpl. lia. Defined.

Lemma outputScore_mated_witness :
  outputScore (mated_in 4) = ("mate " ++ to_string (4 mod 2 - 4 / 2))%string.
Proof. apply (outputScore_mated (H := engine_consts)). simpl. lia. Defined.

Lemma lsb_msb_bits_witness :
  0 <= lsb 64 40 <= msb 64 40 /\ msb 64 40 <= 63
  /\ Z.testbit 40 (lsb 64 40) = true
  /\ Z.testbit 40 (msb 64 40) = true
  /\ forall i, 0 <= i -> Z.testbit 40 i = true ->
       lsb 64 40 <= i <= msb 64 40.
Proof. apply (lsb_msb_bits 64 40). split; reflexivity. Defined.

Lemma poplsb_clears_lsb_witness :
  poplsb 64 40 = (lsb 64 40, 40 - 2 ^ lsb 64 40)
  /\ popcount (snd (poplsb 64 40)) = popcount 40 - 1.
Proof. apply (poplsb_clears_lsb 64 40). split; reflexivity. Defined.

Lemma square_distance_manhatten_witness :
  square_distance (fun sq => Z.land sq 7) (fun sq => Z.shiftr sq 3) 0 63 <= 7
  /\ square_distance (fun sq => Z.land sq 7) (fun sq => Z.shiftr sq 3) 0 63
     <= manhatten_distance (fun sq => Z.land sq 7) (fun sq => Z.shiftr sq 3)
          0 63
     <= 2 * square_distance (fun sq => Z.land sq 7) (fun sq => Z.shiftr sq 3)
            0 63.
Proof.
  apply (square_distance_manhatten
           (fun sq => Z.land sq 7) (fun sq => Z.shiftr sq 3) 0 63);
    vm_compute; split; discriminate.
Defined.

Lemma sameColor_get_square_color_witness :
  sameColor 0 9 = Bool.eqb (get_square_color 0) (get_square_color 9).
Proof. apply (sameColor_get_square_color 0 9); lia. Defined.

Lemma makePiece_decodes_witness :
  Z.rem (makePiece 2 1) 6 = 2 /\ makePiece 2 1 ÷ 6 = 1.
Proof.
  apply (makePiece_decodes (H := engine_consts) 2 1); simpl; lia.
Defined.

Lemma absearch_history_tight_witness :
  exists r s',
    absearch (H0 := demo_quiet_extern) demo_main 8 Root 3 (-100) 0 2
      demo_warm = Some (r, s')
    /\ zget (history demo_warm) 1804 = 465
    /\ zget (history s') 1804 = 917
    /\ history_tight (history s').
Proof.
  destruct (absearch (H0 := demo_quiet_extern) demo_main 8 Root 3 (-100) 0 2
              demo_warm) as [[r s']|] eqn:Hq.
  - exists r, s'. split; [reflexivity|].
    split; [vm_compute; reflexivity|]. split.
    + vm_compute in Hq. inversion Hq. vm_compute. reflexivity.
    + apply (absearch_history_tight (H0 := demo_quiet_extern) demo_main 8
               Root 3 (-100) 0 2 demo_warm r s'); [|exact Hq].
      apply (bool_decide_unpack _). vm_compute. exact I.
  - vm_compute in Hq. discriminate.
Defined.

Lemma updateAllHistories_killers_witness :
  zget2 (killerMoves
           (updateAllHistories (H0 := demo_extern) 796 50 40 3 [796] 1 2
              demo_start))
    0 (ply (frame (H0 := demo_extern) demo_start 2)) = 796
  /\ zget2 (killerMoves
              (updateAllHistories (H0 := demo_extern) 796 50 40 3 [796] 1 2
                 demo_start))
       1 (ply (frame (H0 := demo_extern) demo_start 2))
     = zget2 (killerMoves demo_start) 0
         (ply (frame (H0 := demo_extern) demo_start 2)).
Proof.
  apply (updateAllHistories_killers (H0 := demo_extern) 796 50 40 3 [796] 1 2
           demo_start);
    vm_compute; (reflexivity || discriminate || lia).
Defined.

Lemma limitReached_sticky_witness :
  exists s2,
    limitReached (H0 := demo_extern) demo_main
      (set_loads 1 (set_stopped true demo_start))
    = Some (Val true, s2).
Proof.
  apply (limitReached_sticky (H0 := demo_extern) demo_main
           (set_stopped true demo_start));
    [reflexivity|vm_compute; reflexivity].
Defined.

Lemma stopped_search_returns_zero_witness :
  qsearch (H0 := demo_extern) demo_main 3 NonPV (-100) 100 2
    (set_stopped true demo_start)
  = Some (0, set_loads (loads (set_stopped true demo_start) + 1)
               (set_stopped true demo_start))
  /\ absearch (H0 := demo_extern) demo_main 3 NonPV 2 (-100) 100 2
       (set_stopped true demo_start)
     = Some (0, set_loads (loads (set_stopped true demo_start) + 1)
                  (set_stopped true demo_start)).
Proof.
  apply (stopped_search_returns_zero (H0 := demo_extern) demo_main 2 NonPV 2
           (-100) 100 2 (set_stopped true demo_start)); reflexivity.
Defined.

Lemma qsearch_stand_pat_witness :
  exists r s',
    qsearch (H0 := demo_extern) demo_helper 5 NonPV (-100) 100 2 demo_start
    = Some (r, s')
    /\ evaluation (H0 := demo_extern)
         (board (set_loads 1 (set_stopped false demo_start))) <= r.
Proof.
  destruct (qsearch (H0 := demo_extern) demo_helper 5 NonPV (-100) 100 2
              demo_start) as [[r s']|] eqn:Hq;
    [|vm_compute in Hq; discriminate].
  destruct (qsearch_entry (H0 := demo_extern) NonPV (-100) 100 2
              (set_loads 1 (set_stopped false demo_start)))
    as [v|e] eqn:He; [vm_compute in He; discriminate|].
  exists r, s'. split; [reflexivity|].
  apply (qsearch_stand_pat (H0 := demo_extern) demo_helper 5 NonPV (-100) 100
           2 demo_start (set_loads 1 (set_stopped false demo_start)) e r s');
    [exact Hq|vm_compute; reflexivity|exact He].
Defined.

Lemma aspirationSearch_aborted_witness :
  exists s2,
    aspirationSearch_with (H0 := demo_extern) demo_main demo_root 1 12 40 2
      (set_stopped true demo_start)
    = Some (0, s2)
    /\ output s2 = output (set_stopped true demo_start)
    /\ clock_reads s2 = clock_reads (set_stopped true demo_start)
    /\ nodes s2 = nodes (set_stopped true demo_start).
Proof.
  apply (aspirationSearch_aborted (H0 := demo_extern) demo_main demo_root 0
           12 40 2 (set_stopped true demo_start)
           (set_stopped true demo_start) 10);
    vm_compute; reflexivity.
Defined.

Lemma aspirationSearch_full_window_witness :
  exists s2,
    aspirationSearch_with (H0 := demo_extern) demo_main demo_root 1 5 40 2
      demo_start
    = Some (0, s2)
    /\ if (id demo_main =? 0) && normalSearch demo_main
       then exists line, output s2 = line :: output demo_start
       else output s2 = output demo_start.
Proof.
  apply (aspirationSearch_full_window (H0 := demo_extern) demo_main demo_root
           0 5 40 2 demo_start demo_start 0);
    [lia|reflexivity|reflexivity|simpl; lia].
Defined.

Lemma update_pv_line_witness :
  zget (pvLength (update_pv (H0 := demo_extern) 0 796 demo_start)) 0
  = zget (pvLength demo_start) (0 + 1)
  /\ zget2 (pvTable (update_pv (H0 := demo_extern) 0 796 demo_start)) 0 0 = 796
  /\ (forall j, 0 + 1 <= j < zget (pvLength demo_start) (0 + 1) ->
        zget2 (pvTable (update_pv (H0 := demo_extern) 0 796 demo_start)) 0 j
        = zget2 (pvTable demo_start) (0 + 1) j)
  /\ (forall i, i <> 0 ->
        zget (pvTable (update_pv (H0 := demo_extern) 0 796 demo_start)) i
        = zget (pvTable demo_start) i).
Proof.
  apply (update_pv_line (H0 := demo_extern) 0 796 demo_start); vm_compute; (lia || discriminate).
Defined.

Lemma search_restores_board_witness :
  exists r s',
    absearch (H0 := demo_extern) demo_main 6 Root 3 (-32001) 32001 2
      demo_start = Some (r, s')
    /\ board s' = board demo_start.
Proof.
  destruct (absearch (H0 := demo_extern) demo_main 6 Root 3 (-32001) 32001 2
              demo_start) as [[r s']|] eqn:Hq;
    [|vm_compute in Hq; discriminate].
  exists r, s'. split; [reflexivity|].
  refine (proj1 (proj2 (search_restores_board (H0 := demo_extern) demo_main 6
                          _ _))
            Root 3 (-32001) 32001 2 demo_start r s' Hq);
    intros; simpl; lia.
Defined.

Lemma qsearch_keeps_tables_witness :
  exists r s',
    qsearch (H0 := demo_extern) demo_helper 5 NonPV (-100) 100 2 demo_start
    = Some (r, s')
    /\ history s' = history demo_start
    /\ killerMoves s' = killerMoves demo_start
    /\ pvTable s' = pvTable demo_start
    /\ pvLength s' = pvLength demo_start
    /\ seldepth s' = seldepth demo_start
    /\ spentEffort s' = spentEffort demo_start
    /\ stack s' = stack demo_start
    /\ tbhits s' = tbhits demo_start
    /\ output s' = output demo_start.
Proof.
  destruct (qsearch (H0 := demo_extern) demo_helper 5 NonPV (-100) 100 2
              demo_start) as [[r s']|] eqn:Hq;
    [|vm_compute in Hq; discriminate].
  exists r, s'. split; [reflexivity|].
  exact (qsearch_keeps_tables (H0 := demo_extern) demo_helper 5 NonPV (-100)
           100 2 demo_start r s' Hq).
Defined.

Lemma absearch_keeps_stack_witness :
  exists r s',
    absearch (H0 := demo_extern) demo_main 6 Root 3 (-32001) 32001 2
      demo_start = Some (r, s')
    /\ length (stack s') = length (stack demo_start)
    /\ (forall i, ply (frame (H0 := demo_extern) s' i)
                  = ply (frame (H0 := demo_extern) demo_start i))
    /\ (forall i, i < 2 -> frame (H0 := demo_extern) s' i
                           = frame (H0 := demo_extern) demo_start i).
Proof.
  destruct (absearch (H0 := demo_extern) demo_main 6 Root 3 (-32001) 32001 2
              demo_start) as [[r s']|] eqn:Hq;
    [|vm_compute in Hq; discriminate].
  exists r, s'. split; [reflexivity|].
  exact (absearch_keeps_stack (H0 := demo_extern) demo_main 6 Root 3 (-32001)
           32001 2 demo_start r s' Hq).
Defined.

Lemma helper_search_silent_witness :
  exists r s',
    aspirationSearch (H0 := demo_extern) demo_helper 6 3 0 2 demo_start
    = Some (r, s')
    /\ output s' = output demo_start
    /\ spentEffort s' = spentEffort demo_start
    /\ checkTime s' = checkTime demo_start
    /\ clock_reads s' = clock_reads demo_start.
Proof.
  destruct (aspirationSearch (H0 := demo_extern) demo_helper 6 3 0 2
              demo_start) as [[r s']|] eqn:Hq;
    [|vm_compute in Hq; discriminate].
  exists r, s'. split; [reflexivity|].
  apply (helper_search_silent (H0 := demo_extern) demo_helper 6 3 0 2
           demo_start r s'); [discriminate|exact Hq].
Defined.

Lemma search_counters_grow_witness :
  exists r s',
    aspirationSearch (H0 := demo_extern) demo_main 6 3 0 2 demo_start
    = Some (r, s')
    /\ nodes demo_start <= nodes s'
    /\ tbhits demo_start <= tbhits s'
    /\ (stopped demo_start = true -> stopped s' = true).
Proof.
  destruct (aspirationSearch (H0 := demo_extern) demo_main 6 3 0 2
              demo_start) as [[r s']|] eqn:Hq;
    [|vm_compute in Hq; discriminate].
  exists r, s'. split; [reflexivity|].
  exact (search_counters_grow (H0 := demo_extern) demo_main 6 3 0 2
           demo_start r s' Hq).
Defined.

Lemma qsearch_moves_best_move_witness :
  exists l' s',
    qsearch_moves (H0 := demo_extern)
      (qsearch (H0 := demo_extern) demo_helper 3 NonPV) 2 false 0 100 2
      [2332] {| q_alpha := 0; q_bestValue := -31800; q_bestMove := 0 |}
      demo_start
    = Some (Val l', s')
    /\ ((q_bestMove l' = 0 /\ q_alpha l' = 0
         /\ -31800 <= q_bestValue l' <= 0)
        \/ (0 < q_alpha l' /\ q_bestValue l' = q_alpha l')).
Proof.
  destruct (qsearch_moves (H0 := demo_extern)
              (qsearch (H0 := demo_extern) demo_helper 3 NonPV) 2 false 0 100
              2 [2332]
              {| q_alpha := 0; q_bestValue := -31800; q_bestMove := 0 |}
              demo_start) as [[[v|l'] s']|] eqn:Hq;
    [vm_compute in Hq; discriminate| |vm_compute in Hq; discriminate].
  exists l', s'. split; [reflexivity|].
  apply (qsearch_moves_best_move (H0 := demo_extern)
           (qsearch (H0 := demo_extern) demo_helper 3 NonPV) 2 false 0 100 2
           [2332] {| q_alpha := 0; q_bestValue := -31800; q_bestMove := 0 |}
           demo_start l' s'); [simpl; lia|exact Hq].
Defined.

Lemma aspiration_fits_int32_witness :
  let ws := window_slack (aspiration_window 12 40) in
  fits_int32 (w_alpha ws - w_delta ws)
  /\ fits_int32 (w_alpha ws + w_beta ws)
  /\ fits_int32 (w_beta ws + w_delta ws)
  /\ fits_int32 (w_delta ws + w_delta ws ÷ 2).
Proof.
  apply (aspiration_fits_int32 (H := engine_consts) 12 40
           (aspiration_window 12 40));
    [vm_compute; discriminate|simpl; lia|apply asp_reach_start].
Defined.

Lemma absearch_moves_best_move_witness :
  exists l' s',
    absearch_moves (H0 := demo_extern) demo_main
      (absearch (H0 := demo_extern) demo_main 5) 5 Root
      {| ae_depth := 2; ae_beta := 32001; ae_maxValue := 32000;
         ae_inCheck := false; ae_improving := false; ae_excludedMove := 0;
         ae_ttHit := false; ae_ttMove := 0; ae_tte := 0;
         ae_ttScore := 32002 |}
      2 [2332; 796]
      {| a_alpha := -32001; a_best := -32001; a_bestMove := 0;
         a_score := 32002; a_quiets := replicate 64 0; a_quietCount := 0;
         a_madeMoves := 0 |}
      demo_start
    = Some (Val l', s')
    /\ ((a_bestMove l' = 0 /\ a_alpha l' = -32001
         /\ -32001 <= a_best l' <= -32001)
        \/ (-32001 < a_alpha l' /\ a_best l' = a_alpha l')).
Proof.
  destruct (absearch_moves (H0 := demo_extern) demo_main
              (absearch (H0 := demo_extern) demo_main 5) 5 Root
              {| ae_depth := 2; ae_beta := 32001; ae_maxValue := 32000;
                 ae_inCheck := false; ae_improving := false;
                 ae_excludedMove := 0; ae_ttHit := false; ae_ttMove := 0;
                 ae_tte := 0; ae_ttScore := 32002 |}
              2 [2332; 796]
              {| a_alpha := -32001; a_best := -32001; a_bestMove := 0;
                 a_score := 32002; a_quiets := replicate 64 0;
                 a_quietCount := 0; a_madeMoves := 0 |}
              demo_start) as [[[v|l'] s']|] eqn:Hq;
    [vm_compute in Hq; discriminate| |vm_compute in Hq; discriminate].
  exists l', s'. split; [reflexivity|].
  apply (absearch_moves_best_move (H0 := demo_extern) demo_main
           (absearch (H0 := demo_extern) demo_main 5) 5 Root
           {| ae_depth := 2; ae_beta := 32001; ae_maxValue := 32000;
              ae_inCheck := false; ae_improving := false;
              ae_excludedMove := 0; ae_ttHit := false; ae_ttMove := 0;
              ae_tte := 0; ae_ttScore := 32002 |}
           2 [2332; 796]
           {| a_alpha := -32001; a_best := -32001; a_bestMove := 0;
              a_score := 32002; a_quiets := replicate 64 0;
              a_quietCount := 0; a_madeMoves := 0 |}
           demo_start l' s'); [simpl; lia|exact Hq].
Defined.

Lemma getPV_update_pv_witness :
  getPV (H0 := demo_extern) (update_pv (H0 := demo_extern) 0 796 demo_pv)
  = (" " ++ uciMove (Extern := demo_extern) 796
     ++ fold_left
          (fun acc i =>
             acc ++ " "
             ++ uciMove (Extern := demo_extern) (zget2 (pvTable demo_pv) 1 i))
          (zrange 1 (zget (pvLength demo_pv) 1)) "")%string.
Proof.
  apply (getPV_update_pv (H0 := demo_extern) 796 demo_pv);
    vm_compute; (lia || discriminate).
Defined.

End ClosedMore.

(** ** The bounds of the search stack *)

Section StackBelow.
Context `{Consts}.

Lemma stack_below_refl st : stack_below st st.
Proof. done. Qed.

Lemma stack_below_trans st1 st2 st3 :
  stack_below st1 st2 -> stack_below st2 st3 -> stack_below st1 st3.
Proof.
  intros (Hp1 & Hf1) (Hp2 & Hf2).
  split; intros i; [by rewrite Hp2|]. intros Hi. by rewrite Hf2, Hf1.
Qed.

Lemma stack_below_zset st j (f : Stack -> Stack) :
  j <= MAX_PLY + 2 -> (forall x, ply (f x) = ply x) ->
  stack_below st (zset st j (f (zget st j))).
Proof.
  intros Hj Hf. split.
  - intros i. destruct (Z.eq_dec i j) as [->|Hne].
    + destruct (zget_zset_cases st j (f (zget st j))) as [->| ->]; auto.
    + by rewrite zget_zset_ne.
  - intros i Hi. apply zget_zset_ne. lia.
Qed.

Lemma plied_below st st' : plied st -> stack_below st st' -> plied st'.
Proof. intros Hp (Hply & _) i Hi. rewrite Hply. by apply Hp. Qed.

Lemma plied_check_spec st : plied_check st = true -> plied st.
Proof.
  unfold plied_check. rewrite forallb_forall. intros Hall i Hi.
  apply Z.eqb_eq, Hall, list_elem_of_In, elem_of_zrange. lia.
Qed.

End StackBelow.

(** [stack_below] along a chain of states and frame updates. *)
Ltac below_solve :=
  first
    [ apply stack_below_refl
    | match goal with
      | |- stack_below ?A (zset ?B ?j (?g ?v (zget ?B ?j))) =>
        apply (stack_below_trans A B);
          [below_solve
          |apply (stack_below_zset B j (g v)); [lia|intros; reflexivity]]
      | Heq : stack ?t = _ |- stack_below _ (stack ?t) =>
        rewrite Heq; try unfold frame; simpl; below_solve
      | Hk : stack_below ?B (stack ?t) |- stack_below ?A (stack ?t) =>
        apply (stack_below_trans A B); [below_solve|exact Hk]
      end ].

Ltac below_open :=
  repeat match goal with
  | H : stack_below _ _ |- _ => progress (try unfold frame in H; simpl in H)
  | H : stack _ = _ |- _ => progress (try unfold frame in H; simpl in H)
  end.

Ltac below_auto :=
  below_open;
  try unfold update_pv; try unfold logged_store; try unfold frame;
  repeat match goal with
  | |- context [updateAllHistories ?a ?b ?c ?d ?e ?f ?g ?t] =>
    destruct (updateAllHistories_fields a b c d e f g t) as (? & ? & ->)
  end;
  simpl;
  lazymatch goal with
  | |- plied _ => eapply plied_below; [eassumption|below_solve]
  | |- stack_below _ _ => below_solve
  end.

Section AbsearchBelow.
Context `{Consts} `{Extern}.
Variable cfg : Config.

#[local] Abbreviation St := (Search Board TranspositionTable).

Lemma wp_below (s0 s : St) {A} (m : M (S:=St) A) :
  stack_below (stack s0) (stack s) ->
  wp m (fun _ s' => stack_below (stack s) (stack s')) s ->
  wp m (fun _ s' => stack_below (stack s0) (stack s')) s.
Proof.
  intros H0s. apply wp_mono. intros c s' Hs'.
  by eapply stack_below_trans.
Qed.

Lemma absearch_tb_stack node depth p alpha beta best maxValue (s : St) :
  wp (absearch_tb cfg node depth p alpha beta best maxValue)
     (fun _ s' => stack s' = stack s) s.
Proof.
  unfold absearch_tb, TTable_storeEntry. repeat wp_step; reflexivity.
Qed.

Lemma absearch_currmove_stack node e move madeMoves (s : St) :
  wp (absearch_currmove cfg node e move madeMoves)
     (fun c s' => stack s' = stack s /\ exists u, c = Val u) s.
Proof.
  unfold absearch_currmove, wp, bind, load_stopped, getTime, when, print,
    modify, ret.
  repeat case_match; simplify_eq; simpl; eauto.
Qed.

Lemma absearch_finish_stack node e ss l (s : St) :
  wp (absearch_finish cfg node e ss l) (fun _ s' => stack s' = stack s) s.
Proof.
  unfold absearch_finish, wp, bind, load_stopped, gets, when,
    TTable_storeEntry, modify, ret.
  repeat case_match; simplify_eq; simpl; eauto.
Qed.

Section Body.
Variable qrec : Node -> Score -> Score -> Z -> Fn (S:=St).
Variable arec : Node -> Z -> Score -> Score -> Z -> Fn (S:=St).
Hypothesis qrec_stack :
  forall node a b ss s v s',
    qrec node a b ss s = Some (v, s') -> stack s' = stack s.
Hypothesis arec_below :
  forall node d a b ss s v s',
    plied (stack s) -> 0 <= ss <= MAX_PLY + 3 ->
    arec node d a b ss s = Some (v, s') ->
    stack_below (stack s) (stack s').

Lemma absearch_early_below node inCheck color ex ttHit tte depth alpha beta ss
    (s : St) :
  plied (stack s) -> 0 <= ss <= MAX_PLY + 1 ->
  wp (absearch_early qrec arec node inCheck color ex ttHit tte depth alpha
        beta ss)
     (fun _ s' => stack_below (stack s) (stack s')) s.
Proof.
  intros Hp Hss. unfold absearch_early.
  repeat wp_step; try below_auto.
  - eapply wp_call; [intros v s'; apply qrec_stack|].
    simpl. intros v s' Hs'. wp_step. below_auto.
  - eapply wp_call; [intros v s'; apply qrec_stack|].
    simpl. intros v s' Hs'. wp_step. below_auto.
  - eapply wp_call;
      [intros v s'; apply arec_below; [below_auto|lia]|].
    simpl. intros v s' Hs'.
    repeat wp_step; below_auto.
Qed.

Lemma absearch_singular_below node e move ss (s : St) :
  plied (stack s) -> 0 <= ss <= MAX_PLY + 1 ->
  wp (absearch_singular arec node e move ss)
     (fun _ s' => stack_below (stack s) (stack s')) s.
Proof.
  intros Hp Hss. unfold absearch_singular.
  repeat wp_step; try below_auto.
  eapply wp_call; [intros v s'; apply arec_below; [below_auto|lia]|].
  simpl. intros v s' Hs'.
  repeat wp_step; below_auto.
Qed.

Lemma absearch_child_below node e l madeMoves newDepth ss (s : St) :
  plied (stack s) -> 0 <= ss <= MAX_PLY + 1 ->
  wp (absearch_child cfg arec node e l madeMoves newDepth ss)
     (fun c s' => stack_below (stack s) (stack s') /\ exists v, c = Val v) s.
Proof.
  intros Hp Hss. unfold absearch_child.
  assert (Hcall : forall (s1 : St) nd d a b (Q : Ctl Score -> St -> Prop),
            stack_below (stack s) (stack s1) ->
            (forall v s', stack_below (stack s) (stack s') -> Q (Val v) s') ->
            wp (call (arec nd d a b (ss + 1))) Q s1).
  { intros s1 nd d a b Q H01 HQ.
    eapply wp_call;
      [intros v s'; apply arec_below; [by eapply plied_below|lia]|].
    simpl. intros v s' Hs'. apply HQ. by eapply stack_below_trans. }
  pose proof (stack_below_refl (stack s)) as Hrefl.
  repeat first
    [ wp_step
    | eapply Hcall; [eassumption|intros ? ? ?] ]; eauto.
Qed.

Lemma absearch_moves_below n node e ss :
  0 <= ss <= MAX_PLY + 1 ->
  forall mp l (s : St),
    plied (stack s) ->
    wp (absearch_moves cfg arec n node e ss mp l)
       (fun _ s' => stack_below (stack s) (stack s')) s.
Proof.
  intros Hss.
  induction n as [|n IH]; intros mp l s Hp; simpl; [done|].
  repeat wp_step; try apply stack_below_refl; try (by apply IH).
  eapply wp_mono; [|by apply absearch_singular_below].
  intros [v|ext] s1 H1; [done|].
  repeat wp_step.
  eapply wp_mono; [|apply absearch_currmove_stack].
  intros c s2 (Hs2 & [] & ->).
  repeat wp_step.
  eapply wp_mono; [|apply absearch_child_below; [below_auto|done]].
  intros c s3 [H3 [score ->]].
  repeat wp_step;
    try (eapply wp_below; [|apply IH]);
    below_auto.
Qed.

Lemma absearch_body_below n node depth alpha beta ss (s : St) :
  plied (stack s) -> 0 <= ss <= MAX_PLY + 3 ->
  wp (absearch_body cfg qrec arec n node depth alpha beta ss)
     (fun _ s' => stack_below (stack s) (stack s')) s.
Proof.
  intros Hp Hss. unfold absearch_body. wp_step.
  eapply wp_mono; [|apply (limitReached_kept cfg)].
  intros c s1 (_ & Ht1 & _ & _ & b & ->).
  assert (Hs1 : stack s1 = stack s) by (unfold tables_kept in Ht1; tauto).
  clear Ht1.
  destruct b; [wp_step; below_auto|].
  wp_step. wp_step.
  destruct (ply (frame s1 ss) >=? MAX_PLY) eqn:Hply; [wp_step; below_auto|].
  assert (Hss' : 0 <= ss <= MAX_PLY + 1).
  { unfold frame in Hply. rewrite Hs1, (Hp ss Hss) in Hply.
    unfold stack_base in Hply. zbool. lia. }
  wp_step. wp_step. wp_step.
  eapply wp_mono; [|apply absearch_draws_frame].
  intros [v|[alpha1 beta1]] s2 ->; [below_auto|].
  wp_step.
  { wp_step.
    eapply wp_call; [intros v s'; apply qrec_stack|].
    simpl. intros v s3 H3. wp_step. below_auto. }
  wp_step. wp_step. wp_step. wp_step. wp_step. wp_step. wp_step. wp_step.
  wp_step. wp_step.
  eapply wp_mono; [|apply absearch_ttcut_frame].
  set (s2 := (if isPv node && _ then _ else _) : St).
  assert (H2 : stack_below (stack s) (stack s2)).
  { subst s2. case_match; below_auto. }
  clearbody s2. clear Hs1.
  intros [v|[alpha2 beta2]] s3 ->; [done|].
  wp_step.
  eapply wp_mono; [|apply absearch_tb_stack].
  intros c s4 Hs4.
  assert (H4 : stack_below (stack s) (stack s4)) by (by rewrite Hs4).
  clear Hs4 H2. destruct c as [v|[[alpha3 best3] maxValue3]]; [done|].
  wp_step.
  eapply wp_mono;
    [|apply absearch_early_below; [by eapply plied_below|done]].
  intros c s5 H5'.
  assert (H5 : stack_below (stack s) (stack s5))
    by (by eapply stack_below_trans).
  clear H5' H4. destruct c as [v|[[depth4 staticEval4] improving4]]; [done|].
  wp_step.
  eapply wp_mono;
    [|apply absearch_moves_below; [done|by eapply plied_below]].
  intros c s6 H6'.
  assert (H6 : stack_below (stack s) (stack s6))
    by (by eapply stack_below_trans).
  clear H6' H5. destruct c as [v|l]; [done|].
  eapply wp_mono; [|apply absearch_finish_stack].
  intros c s7 H7. by rewrite H7.
Qed.

End Body.

Lemma absearch_below fuel :
  forall node depth alpha beta ss (s : St) v s',
    plied (stack s) -> 0 <= ss <= MAX_PLY + 3 ->
    absearch cfg fuel node depth alpha beta ss s = Some (v, s') ->
    stack_below (stack s) (stack s').
Proof.
  induction fuel as [|fuel IH]; intros node depth alpha beta ss s v s' Hp Hss
    Ha; simpl in Ha; [done|].
  eapply (wp_fn _ (fun _ s' => stack_below (stack s) (stack s')));
    [|exact Ha].
  eapply wp_mono; [|apply absearch_body_below; [| |exact Hp|exact Hss]].
  - by intros [w|w] t.
  - intros nd a b ss0 s0 v0 s0' Hq.
    destruct (qsearch_kept cfg fuel nd a b ss0 s0 v0 s0' Hq) as [_ Ht].
    unfold tables_kept in Ht. tauto.
  - intros. eapply IH; eauto.
Qed.

(** X27: on a stack whose frames hold their plies, a search started on a
    frame of the array writes only frames from its own up to the index
    [MAX_PLY + 2]: with the [MAX_PLY + 4] frames of [iterativeDeepening]
    no write leaves the array, and the plies stay in place. *)
Theorem absearch_stack_bounds fuel node depth alpha beta ss (s : St) v s' :
  plied (stack s) -> 0 <= ss <= MAX_PLY + 3 ->
  absearch cfg fuel node depth alpha beta ss s = Some (v, s') ->
  plied (stack s')
  /\ forall i, i < ss \/ MAX_PLY + 2 < i -> frame s' i = frame s i.
Proof.
  intros Hp Hss Ha.
  pose proof (absearch_below fuel node depth alpha beta ss s v s' Hp Hss Ha)
    as Hb.
  split; [by eapply plied_below|].
  destruct Hb as [_ Hup].
  destruct (absearch_kept cfg fuel node depth alpha beta ss s v s' Ha)
    as (_ & _ & (_ & _ & Hlow) & _).
  intros i [Hi|Hi]; unfold frame; auto.
Qed.

End AbsearchBelow.

Section ClosedStack.
#[local] Existing Instance engine_consts.

Lemma absearch_stack_bounds_witness :
  exists r s',
    absearch (H0 := demo_extern) demo_main 6 Root 3 (-32001) 32001 2
      demo_start = Some (r, s')
    /\ plied (stack s')
    /\ forall i, i < 2 \/ MAX_PLY + 2 < i ->
         frame (H0 := demo_extern) s' i = frame (H0 := demo_extern) demo_start i.
Proof.
  destruct (absearch (H0 := demo_extern) demo_main 6 Root 3 (-32001) 32001 2
              demo_start) as [[r s']|] eqn:Hq;
    [|vm_compute in Hq; discriminate].
  exists r, s'. split; [reflexivity|].
  apply (absearch_stack_bounds (H0 := demo_extern) demo_main 6 Root 3
           (-32001) 32001 2 demo_start r s');
    [apply plied_check_spec; vm_compute; reflexivity|simpl; lia|exact Hq].
Defined.

End ClosedStack.

(** ** The value of a node without moves *)

Section NoMove.
Context `{Consts} `{Extern}.
Variable cfg : Config.

#[local] Abbreviation St := (Search Board TranspositionTable).

(** Mate-distance pruning raises [alpha] to [mated_in(ply)] in every node
    but the root. *)
Lemma absearch_draws_alpha node inCheck p alpha beta (s : St) :
  wp (absearch_draws node inCheck p alpha beta)
     (fun c s' =>
        s' = s
        /\ forall a b, c = Val (a, b) ->
             a = if isRoot node then alpha else Z.max alpha (mated_in p)) s.
Proof.
  unfold absearch_draws.
  repeat wp_step; (split; [reflexivity|]); intros a b Heq;
    inversion Heq; reflexivity.
Qed.

(** The table gives no cutoff and no bound while a move is excluded. *)
Lemma absearch_ttcut_alpha node ex ttHit tte ttScore depth ss alpha beta
    (s : St) :
  wp (absearch_ttcut node ex ttHit tte ttScore depth ss alpha beta)
     (fun c s' =>
        s' = s
        /\ forall a b, c = Val (a, b) -> ex <> 0 -> a = alpha) s.
Proof.
  unfold absearch_ttcut.
  repeat wp_step; (split; [reflexivity|]); intros a b Heq Hex;
    inversion Heq; subst; try reflexivity; zbool; lia.
Qed.

(** The tablebase moves [alpha] and [maxValue] only in a node of the
    principal variation, and [maxValue] only at a position it reports as
    lost. *)
Lemma absearch_tb_bound node depth p alpha beta best maxValue (s : St) :
  wp (absearch_tb cfg node depth p alpha beta best maxValue)
     (fun c s' =>
        forall a bst mv, c = Val (a, bst, mv) ->
          (isPv node = false -> a = alpha)
          /\ (mv = maxValue
              \/ (probeTB (board s) = VALUE_TB_LOSS
                  /\ mv = VALUE_MATED_IN_PLY + p + 1))) s.
Proof.
  unfold absearch_tb, TTable_storeEntry.
  repeat wp_step; intros a bst mv Heq; inversion Heq; subst;
    try (split; [done|by left]).
  split; [done|]. right.
  match goal with
  | Hp : (if ?c then _ else _) = (_, _) |- _ =>
    destruct c; [by inversion Hp; subst|]
  end.
  match goal with
  | Hp : (if ?x =? ?y then _ else _) = (_, _) |- _ =>
    destruct (Z.eqb_spec x y); inversion Hp; subst; done
  end.
Qed.

(** [absearch_body] is [absearch_upto] followed by the move loop and the
    end of the function. *)
Lemma absearch_body_upto qrec arec n node depth alpha beta ss :
  absearch_body cfg qrec arec n node depth alpha beta ss
  = absearch_upto cfg qrec arec node depth alpha beta ss
      (fun e mp l0 =>
         l <- absearch_moves cfg arec n node e ss mp l0 ;;
         absearch_finish cfg node e ss l).
Proof. reflexivity. Qed.

(** Two computations that differ in their last step only. *)
Lemma agree_bind {X A B} (m : M (S:=St) B) (f : B -> M X) (g : B -> M A) k :
  (forall b, agree (f b) (g b) k) -> agree (bind m f) (bind m g) k.
Proof.
  unfold agree, bind. intros Hfg s x s1.
  destruct (m s) as [[[v|b] s']|]; try discriminate. apply Hfg.
Qed.

Lemma agree_return {X A} v (m' : M A) (k : X -> M A) : agree (return_ v) m' k.
Proof. unfold agree, return_. discriminate. Qed.

(** Once the node has reached its move loop, [absearch_upto] goes on as
    its continuation. *)
Lemma absearch_upto_entry {A} qrec arec node depth alpha beta ss
    (k : AEntry -> MovePick -> ALoop -> M (S:=St) A) :
  agree (absearch_loop_entry cfg qrec arec node depth alpha beta ss)
        (absearch_upto cfg qrec arec node depth alpha beta ss k)
        (fun x => let '(e, mp, l) := x in k e mp l).
Proof.
  unfold absearch_loop_entry, absearch_upto.
  repeat first
    [ apply agree_return
    | by (unfold agree, ret; intros ? ? ? [= <- <-])
    | apply agree_bind; intros ?
    | match goal with
      | |- agree (if ?c then _ else _) _ _ => destruct c
      | |- agree (match ?x with _ => _ end) _ _ => destruct x
      | |- agree (let '(_, _) := ?x in _) _ _ => destruct x
      end; cbv beta iota zeta ].
Qed.

(** The move loop leaves its locals and the search object alone when the
    picker yields nothing but the excluded move before it runs dry. *)
Lemma absearch_moves_none arec n node e ss :
  forall mp l (s : St),
    Forall (fun m => m = ae_excludedMove e) (picked n mp s) ->
    (length (picked n mp s) < n)%nat ->
    absearch_moves cfg arec n node e ss mp l s = Some (Val l, s).
Proof.
  induction n as [|n IH]; intros mp l s Hp Hlen; [simpl in Hlen; lia|].
  cbn [absearch_moves]. cbn [picked] in Hp, Hlen.
  unfold bind at 1, gets.
  destruct (nextMove mp s) as [move mp'].
  destruct (move =? NO_MOVE); [reflexivity|].
  apply Forall_cons in Hp as [-> Hp]. simpl in Hlen.
  rewrite Z.eqb_refl. apply IH; [done|lia].
Qed.

Lemma wp_call_return {A} (f : Fn (S:=St)) (Q : Ctl A -> St -> Prop) s :
  (forall v s', Q (Ret v) s') ->
  wp (v <- call f ;; return_ v) Q s.
Proof.
  intros HQ. unfold wp, bind, call, return_.
  destruct (f s) as [[v s']|]; [apply HQ|done].
Qed.

Lemma search_kept_ply ss (s s' : St) i :
  search_kept cfg ss s s' -> ply (frame s' i) = ply (frame s i).
Proof. intros (_ & _ & (_ & Hp & _) & _). apply Hp. Qed.

(** What the move loop starts with: the frame still holds the ply, the
    entry holds the excluded move and the check flag of the position,
    [alpha] is the one of mate-distance pruning while a move is excluded
    outside the principal variation, and [maxValue] is [VALUE_MATE] unless
    the tablebase reported a loss. *)
Lemma absearch_loop_entry_spec fuel node depth alpha beta ss (s : St) :
  wp (absearch_loop_entry cfg (qsearch cfg fuel) (absearch cfg fuel) node
        depth alpha beta ss)
     (fun c s1 =>
        forall e mp l, c = Val (e, mp, l) ->
          ply (frame s1 ss) = ply (frame s ss)
          /\ ply (frame s ss) < MAX_PLY
          /\ ae_excludedMove e = excludedMove (frame s ss)
          /\ ae_inCheck e = inCheck_of (board s)
          /\ a_madeMoves l = 0
          /\ (isPv node = false -> ae_excludedMove e <> 0 ->
              a_alpha l = Z.max alpha (mated_in (ply (frame s ss))))
          /\ (ae_maxValue e = VALUE_MATE
              \/ (probeTB (board s) = VALUE_TB_LOSS
                  /\ ae_maxValue e
                     = VALUE_MATED_IN_PLY + ply (frame s ss) + 1))) s.
Proof.
  assert (qrec_kept : forall nd a b ss0 (s0 : St) v s0',
            qsearch cfg fuel nd a b ss0 s0 = Some (v, s0') ->
            search_kept cfg ss0 s0 s0').
  { intros nd a b ss0 s0 v s0' Hq.
    destruct (qsearch_kept cfg fuel nd a b ss0 s0 v s0' Hq).
    by apply tables_search_kept. }
  pose proof (absearch_kept cfg fuel) as arec_kept.
  unfold absearch_loop_entry, absearch_upto. wp_step.
  eapply wp_mono; [|apply limitReached_kept].
  intros c s1 (Hc1 & Ht1 & Hb1 & _ & b & ->).
  pose proof (tables_search_kept cfg ss s s1 Hc1 Ht1) as H1.
  assert (Hf1 : frame s1 ss = frame s ss).
  { unfold frame. destruct Ht1 as (_ & _ & _ & _ & _ & _ & -> & _). done. }
  clear Hc1 Ht1.
  destruct b; [by wp_step|].
  wp_step. wp_step. rewrite Hf1, Hb1. fold (inCheck_of (board s)).
  set (p := ply (frame s ss)) in *.
  set (ex := excludedMove (frame s ss)) in *.
  set (chk := inCheck_of (board s)) in *.
  destruct (Z.geb_spec p MAX_PLY) as [|Hply]; [by wp_step|].
  wp_step. wp_step. wp_step.
  eapply wp_mono; [|apply absearch_draws_alpha].
  intros [v|[alpha1 beta1]] s2 [-> Ha1]; [done|].
  specialize (Ha1 _ _ eq_refl).
  wp_step; [by apply wp_call_return|].
  wp_step. wp_step. wp_step. wp_step. wp_step. wp_step. wp_step.
  set (s2 := (if isPv node && _ then _ else _) : St).
  assert (H2 : search_kept cfg ss s s2).
  { subst s2. clear Hf1 Hb1.
    destruct (isPv node && (p >? seldepth _)); kept_auto. }
  assert (Hb2 : board s2 = board s).
  { subst s2. destruct (isPv node && (p >? seldepth _)); exact Hb1. }
  clearbody s2. clear H1 Hf1 Hb1 s1.
  destruct (probeTT (TTable s2) (hashKey (board s2)))
    as [[ttHit ttMove] tte].
  wp_step.
  eapply wp_mono; [|apply absearch_ttcut_alpha].
  intros [v|[alpha2 beta2]] s3 [-> Ha2]; [done|].
  specialize (Ha2 _ _ eq_refl).
  wp_step.
  eapply wp_mono;
    [|apply wp_conj;
      [apply (absearch_tb_kept cfg _ _ _ _ _ _ _ ss)
      |apply absearch_tb_bound]].
  intros c s4 [H4' Hv3].
  assert (H4 : search_kept cfg ss s s4) by (by eapply search_kept_trans).
  destruct c as [v|[[alpha3 best3] maxValue3]]; [done|].
  destruct (Hv3 _ _ _ eq_refl) as [Ha3 Hm3]. clear Hv3 H4'.
  rewrite Hb2 in Hm3. clear H2 Hb2.
  wp_step.
  eapply wp_mono; [|by apply absearch_early_kept].
  intros c s5 H5'.
  assert (H5 : search_kept cfg ss s s5) by (by eapply search_kept_trans).
  clear H5' H4. destruct c as [v|[[depth4 staticEval4] improving4]]; [done|].
  wp_step. intros e mp l [= <- <- <-]. simpl.
  split; [by eapply search_kept_ply|]. split; [done|].
  split; [done|]. split; [done|]. split; [done|]. split; [|done].
  intros Hpv Hex0. rewrite (Ha3 Hpv), (Ha2 Hex0), Ha1.
  by destruct node.
Qed.

(** C6: a node of [absearch] that reaches its move loop and tries no move
    there, because every move the picker yields before it runs dry is the
    excluded one, returns [alpha] when a move is excluded, [mated_in(ply)]
    when the side to move is in check, and 0 otherwise.  [alpha] is the
    local of that name at the head of the loop, which is the argument
    raised by mate-distance pruning to [mated_in(ply)] at least.  A move
    is excluded only in nodes outside the principal variation, and the
    tablebase reports no loss at a position without moves that is not in
    check. *)
Theorem absearch_no_move_value (fuel : nat) (node : Node) (depth : Z)
    (alpha beta : Score) (ss : Z) (s : St)
    (e : AEntry) (mp : MovePick) (l : ALoop) (s1 : St) :
  absearch_loop_entry cfg (qsearch cfg fuel) (absearch cfg fuel) node depth
    alpha beta ss s = Some (Val (e, mp, l), s1) ->
  Forall (fun m => m = excludedMove (frame s ss)) (picked fuel mp s1) ->
  (length (picked fuel mp s1) < fuel)%nat ->
  (excludedMove (frame s ss) <> NO_MOVE -> node = NonPV) ->
  (inCheck_of (board s) = false -> probeTB (board s) <> VALUE_TB_LOSS) ->
  (exists s',
     absearch cfg (Datatypes.S fuel) node depth alpha beta ss s
     = Some (if negb (excludedMove (frame s ss) =? NO_MOVE) then a_alpha l
             else if inCheck_of (board s) then mated_in (ply (frame s ss))
             else 0, s'))
  /\ (excludedMove (frame s ss) <> NO_MOVE ->
      a_alpha l = Z.max alpha (mated_in (ply (frame s ss)))).
Proof.
  intros Hentry Hpick Hlen Hex Htb.
  pose proof (absearch_loop_entry_spec fuel node depth alpha beta ss s)
    as Hspec.
  unfold wp in Hspec. rewrite Hentry in Hspec.
  destruct (Hspec e mp l eq_refl) as (Hp & Hply & He & Hc & Hm & Ha & Hmv).
  clear Hspec. rewrite <- He in Hpick.
  pose proof no_move_layout as [Hno _].
  split;
    [|intros Hex0; apply Ha;
      [by rewrite (Hex Hex0)|by rewrite He, <- Hno]].
  cbn [absearch]. unfold fn. rewrite absearch_body_upto.
  rewrite (absearch_upto_entry _ _ _ _ _ _ _ _ s (e, mp, l) s1 Hentry).
  unfold bind at 1. rewrite (absearch_moves_none _ _ _ _ _ _ _ _ Hpick Hlen).
  destruct (absearch_finish_spec cfg node e ss l s1) as [s' (Hfin & _)].
  rewrite Hfin. exists s'. f_equal. f_equal.
  unfold absearch_value. rewrite Hm, Hp, He, Hc. simpl.
  set (p := ply (frame s ss)) in *.
  set (ex := excludedMove (frame s ss)) in *.
  set (chk := inCheck_of (board s)) in *.
  rewrite Hno in *.
  pose proof mate_layout as [Hm1 Hm2]. pose proof tb_layout as [_ Htl].
  pose proof max_ply_layout.
  destruct (Z.eqb_spec ex 0) as [Hex0|Hex0]; simpl.
  - destruct chk.
    + destruct (isPv node); [|done]. unfold mated_in.
      destruct Hmv as [->|[_ ->]]; lia.
    + destruct (isPv node); [|done].
      destruct Hmv as [->|[Hloss _]]; [lia|]. by destruct Htb.
  - by rewrite (Hex Hex0).
Qed.

End NoMove.

Section ClosedNoMove.
#[local] Existing Instance engine_consts.

Lemma absearch_no_move_value_witness :
  (exists s',
     absearch (H0 := demo_mated_extern) demo_main_tb 9 PV 3 (-32001) 32001 2
       demo_start = Some (mated_in 0, s'))
  /\ (exists s',
        absearch (H0 := demo_stalemate_extern) demo_main 9 PV 3 (-100) 100 2
          demo_start = Some (0, s'))
  /\ (exists s',
        absearch (H0 := demo_single_extern) demo_main 9 NonPV 8 40 41 2
          demo_excluded = Some (40, s')).
Proof.
  split; [|split].
  - edestruct (absearch_no_move_value (H0 := demo_mated_extern) demo_main_tb
                 8 PV 3 (-32001) 32001 2 demo_start) as [[s' Hs'] _].
    + vm_compute. reflexivity.
    + vm_compute. constructor.
    + vm_compute. lia.
    + intros Hne. exfalso. apply Hne. vm_compute. reflexivity.
    + intros Hc. vm_compute in Hc. discriminate.
    + exists s'. rewrite Hs'. vm_compute. reflexivity.
  - edestruct (absearch_no_move_value (H0 := demo_stalemate_extern) demo_main
                 8 PV 3 (-100) 100 2 demo_start) as [[s' Hs'] _].
    + vm_compute. reflexivity.
    + vm_compute. constructor.
    + vm_compute. lia.
    + intros Hne. exfalso. apply Hne. vm_compute. reflexivity.
    + intros _. vm_compute. discriminate.
    + exists s'. rewrite Hs'. vm_compute. reflexivity.
  - edestruct (absearch_no_move_value (H0 := demo_single_extern) demo_main
                 8 NonPV 8 40 41 2 demo_excluded) as [[s' Hs'] _].
    + vm_compute. reflexivity.
    + vm_compute. repeat constructor.
    + vm_compute. lia.
    + intros _. reflexivity.
    + intros _. vm_compute. discriminate.
    + exists s'. rewrite Hs'. vm_compute. reflexivity.
Defined.

End ClosedNoMove.
